(** * audiocd: the buffered sector stream over a CD drive

    A shallow embedding of [audiocd.go] and [bindings.go].  The stream
    ([AudioCD]) is a record; every method is a computation in a small
    state monad whose state is the stream together with the chronological
    trace of the calls made into libcdio.  A Go panic is an outcome of its
    own.

    Integers.  [int64] offsets wrap around as in Go.  Go's [int] is taken
    to be 64 bits wide.  An [int] that is the length of a slice, or is
    derived from one by the code ([len(p)/BytesPerSector + 1] and its
    product with [BytesPerSector]), is kept exact, since a slice is never
    longer than the address space.  Conversions to the 32-bit and 8-bit
    C types are written out. *)

From Stdlib Require Import ZArith List String Bool Lia.
From Stdlib Require Import Strings.Byte.
Import ListNotations.
Local Open Scope Z_scope.

(** ** Constants of [audiocd.go] *)

Definition SampleRate : Z := 44100.
Definition BitsPerSample : Z := 16.
Definition BytesPerSample : Z := BitsPerSample / 8.
Definition Channels : Z := 2.
Definition SectorsPerSecond : Z := 75.
Definition SamplesPerSector : Z := SampleRate / SectorsPerSecond.
Definition BytesPerSector : Z :=
  SampleRate * Channels * BytesPerSample / SectorsPerSecond.

(** [io.SeekStart], [io.SeekCurrent], [io.SeekEnd] *)
Definition SeekStart : Z := 0.
Definition SeekCurrent : Z := 1.
Definition SeekEnd : Z := 2.

(** ** Machine integers *)

Definition wrap_signed (w z : Z) : Z := (z + 2 ^ (w - 1)) mod 2 ^ w - 2 ^ (w - 1).
Definition int64 (z : Z) : Z := wrap_signed 64 z.
Definition int32 (z : Z) : Z := wrap_signed 32 z.
Definition uint32 (z : Z) : Z := z mod 2 ^ 32.
Definition uint8 (z : Z) : Z := z mod 2 ^ 8.

(** C types used at the libcdio boundary. *)
Definition lsn_t : Z -> Z := int32.
Definition c_uint : Z -> Z := uint32.
Definition c_int : Z -> Z := int32.
Definition track_t : Z -> Z := uint8.

(** ** Slices *)

Definition len {A : Type} (l : list A) : Z := Z.of_nat (List.length l).

(** [make([]byte, n)] *)
Definition make_bytes (n : Z) : list byte := repeat x00 (Z.to_nat n).

(** [p[:n]] and [p[n:]] *)
Definition slice_to {A : Type} (p : list A) (n : Z) : list A := firstn (Z.to_nat n) p.
Definition slice_from {A : Type} (p : list A) (n : Z) : list A := skipn (Z.to_nat n) p.

(** Memory written through a pointer to the start of [p]: the bytes of
    [data] replace the front of [p], whose length does not change. *)
Definition blit (data p : list byte) : list byte :=
  firstn (List.length p) (data ++ skipn (List.length data) p).

(** ** Errors *)

(** [ErrNoDrive] is [fs.ErrNotExist]; [ErrNotOpen] and [os.ErrClosed] are
    both [fs.ErrClosed]. *)
Inductive error : Type :=
| ErrNotExist
| ErrClosed
| AudioCDError (code : Z)
| Errorf (msg : string).

Definition ErrNoDrive : error := ErrNotExist.
Definition ErrNotOpen : error := ErrClosed.

(** ** Data model *)

Record TrackPosition : Type := mkTrackPosition {
  NumChannels : Z;
  IsAudio : bool;
  IsCopyPermitted : bool;
  IsPreemphasisEnabled : bool;
  TrackNum : Z;
  StartSector : Z;
  LengthSectors_of : Z
}.

Definition zeroTrackPosition : TrackPosition :=
  mkTrackPosition 0 false false false 0 0 0.

Definition ContainsSector (t : TrackPosition) (sector : Z) : bool :=
  (sector >=? StartSector t) && (sector <? StartSector t + LengthSectors_of t).

(** A live libcdio session ([CdIo_t*] that is not NULL). *)
Definition CdIo : Type := positive.

Record AudioCD : Type := mkAudioCD {
  Device : string;
  buf : list byte;            (* the unread bytes of the bytes.Buffer *)
  sbuf : option (list byte);  (* None is the nil slice *)
  bufferedOffset : Z;
  trueOffset : Z;
  cdio : option CdIo          (* None is the nil pointer *)
}.

(** The zero value, ready to be opened. *)
Definition zeroAudioCD (dev : string) : AudioCD :=
  mkAudioCD dev [] None 0 0 None.

Definition set_buf (b : list byte) (cd : AudioCD) : AudioCD :=
  mkAudioCD (Device cd) b (sbuf cd) (bufferedOffset cd) (trueOffset cd) (cdio cd).
Definition set_sbuf (s : option (list byte)) (cd : AudioCD) : AudioCD :=
  mkAudioCD (Device cd) (buf cd) s (bufferedOffset cd) (trueOffset cd) (cdio cd).
Definition set_bufferedOffset (o : Z) (cd : AudioCD) : AudioCD :=
  mkAudioCD (Device cd) (buf cd) (sbuf cd) o (trueOffset cd) (cdio cd).
Definition set_trueOffset (o : Z) (cd : AudioCD) : AudioCD :=
  mkAudioCD (Device cd) (buf cd) (sbuf cd) (bufferedOffset cd) o (cdio cd).
Definition set_cdio (c : option CdIo) (cd : AudioCD) : AudioCD :=
  mkAudioCD (Device cd) (buf cd) (sbuf cd) (bufferedOffset cd) (trueOffset cd) c.

(** ** The libcdio boundary *)

(** One entry per C call, with the arguments as they cross the boundary.
    [EvReadAudioSectors] also records the length of the Go slice whose
    first byte is handed over. *)
Inductive Event : Type :=
| EvOpen (dev : option string)
| EvGetHwinfo (p : option CdIo)
| EvGetNumTracks (p : option CdIo)
| EvGetFirstTrackNum (p : option CdIo)
| EvGetTrackChannels (p : option CdIo) (t : Z)
| EvGetTrackCopyPermit (p : option CdIo) (t : Z)
| EvGetTrackPreemphasis (p : option CdIo) (t : Z)
| EvGetTrackFormat (p : option CdIo) (t : Z)
| EvGetTrackLsn (p : option CdIo) (t : Z)
| EvGetTrackSecCount (p : option CdIo) (t : Z)
| EvSetSpeed (p : option CdIo) (x : Z)
| EvReadAudioSectors (p : option CdIo) (lsn nsectors buflen : Z)
| EvEjectMedia (p : option CdIo)
| EvCloseTray (dev : option string)
| EvDestroy (p : option CdIo).

(** The drive and the library in front of it.  Each answer may depend on
    every call made so far.  The four constants come from libcdio's
    headers. *)
Class Drive : Type := {
  cdio_open : list Event -> option string -> option CdIo;
  cdio_get_hwinfo : list Event -> option CdIo -> option (string * string * string);
  cdio_get_num_tracks : list Event -> option CdIo -> Z;
  cdio_get_first_track_num : list Event -> option CdIo -> Z;
  cdio_get_track_channels : list Event -> option CdIo -> Z -> Z;
  cdio_get_track_copy_permit : list Event -> option CdIo -> Z -> Z;
  cdio_get_track_preemphasis : list Event -> option CdIo -> Z -> Z;
  cdio_get_track_format : list Event -> option CdIo -> Z -> Z;
  cdio_get_track_lsn : list Event -> option CdIo -> Z -> Z;
  cdio_get_track_sec_count : list Event -> option CdIo -> Z -> Z;
  cdio_set_speed : list Event -> option CdIo -> Z -> Z;
  cdio_read_audio_sectors : list Event -> option CdIo -> Z -> Z -> Z * list byte;
  cdio_eject_media : list Event -> option CdIo -> Z;
  cdio_close_tray : list Event -> option string -> Z;
  CDIO_INVALID_TRACK : Z;
  CDIO_INVALID_LSN : Z;
  CDIO_TRACK_FLAG_TRUE : Z;
  TRACK_FORMAT_AUDIO : Z
}.

(** ** The monad of a method call *)

Record World : Type := mkWorld {
  stream : AudioCD;
  trace : list Event
}.

(** How a call ends: it returns [a] in world [w], it panics in world [w],
    or the recursion ran deeper than the fuel given. *)
Inductive Outcome (A : Type) : Type :=
| Done (a : A) (w : World)
| Panic (w : World)
| OutOfFuel.
Arguments Done {A} a w.
Arguments Panic {A} w.
Arguments OutOfFuel {A}.

Definition M (A : Type) : Type := World -> Outcome A.

Definition ret {A : Type} (a : A) : M A := fun w => Done a w.

Definition bind {A B : Type} (m : M A) (k : A -> M B) : M B :=
  fun w =>
    match m w with
    | Done a w' => k a w'
    | Panic w' => Panic w'
    | OutOfFuel => OutOfFuel
    end.

Declare Scope cd_scope.
Delimit Scope cd_scope with cd.
Notation "x <- m ;; k" := (bind m (fun x => k))
  (at level 61, m at next level, right associativity) : cd_scope.
Notation "' pat <- m ;; k" := (bind m (fun x => match x with pat => k end))
  (at level 61, pat pattern, m at next level, right associativity) : cd_scope.
Notation "m ;; k" := (bind m (fun _ => k))
  (at level 61, right associativity) : cd_scope.
Local Open Scope cd_scope.

Definition panic {A : Type} : M A := fun w => Panic w.
Definition out_of_fuel {A : Type} : M A := fun _ => OutOfFuel.

(** Read a field of the stream. *)
Definition rd {A : Type} (f : AudioCD -> A) : M A := fun w => Done (f (stream w)) w.

(** Assign to fields of the stream. *)
Definition upd (f : AudioCD -> AudioCD) : M unit :=
  fun w => Done tt (mkWorld (f (stream w)) (trace w)).

(** A call into libcdio: the answer is computed from the calls made so
    far, then the call is appended to the trace. *)
Definition ccall {A : Type} (answer : list Event -> A) (e : Event) : M A :=
  fun w => Done (answer (trace w)) (mkWorld (stream w) (trace w ++ [e])).

(** ** bytes.Buffer *)

Definition buf_Len : M Z := rd (fun cd => len (buf cd)).

Definition buf_Truncate (n : Z) : M unit :=
  l <- buf_Len ;;
  if (n <? 0) || (n >? l) then panic
  else upd (fun cd => set_buf (slice_to (buf cd) n) cd).

Definition buf_Grow (n : Z) : M unit :=
  if n <? 0 then panic else ret tt.

Definition buf_Next (n : Z) : M (list byte) :=
  m <- buf_Len ;;
  let n := if n >? m then m else n in
  if n <? 0 then panic
  else
    b <- rd buf ;;
    upd (set_buf (slice_from b n)) ;;
    ret (slice_to b n).

Definition buf_Write (p : list byte) : M unit :=
  upd (fun cd => set_buf (buf cd ++ p) cd).

(** [make([]byte, n)] panics on a negative length. *)
Definition make (n : Z) : M (list byte) :=
  if n <? 0 then panic else ret (make_bytes n).

Section Methods.
Context {hw : Drive}.

(** ** bindings.go *)

Definition openDrive : M (option error) :=
  dev <- rd Device ;;
  p_cdio <- (if String.eqb dev "" then ccall (fun tr => cdio_open tr None) (EvOpen None)
             else ccall (fun tr => cdio_open tr (Some dev)) (EvOpen (Some dev))) ;;
  match p_cdio with
  | None => ret (Some ErrNoDrive)
  | Some h => upd (set_cdio (Some h)) ;; ret None
  end.

Definition model (p : option CdIo) : M string :=
  hwinfo <- ccall (fun tr => cdio_get_hwinfo tr p) (EvGetHwinfo p) ;;
  match hwinfo with
  | None => ret ""%string
  | Some (vendor, mdl, revision) =>
      ret (vendor ++ " " ++ mdl ++ " " ++ revision)%string
  end.

Definition trackCount (p : option CdIo) : M Z :=
  n <- ccall (fun tr => cdio_get_num_tracks tr p) (EvGetNumTracks p) ;;
  ret (track_t n).

Definition setSpeed (x : Z) : M (option error) :=
  p <- rd cdio ;;
  err <- ccall (fun tr => cdio_set_speed tr p (c_int x)) (EvSetSpeed p (c_int x)) ;;
  if err =? 0 then ret None else ret (Some (AudioCDError err)).

(** [p] shares its memory with the caller's slice: the contents after the
    call are returned with the error. *)
Definition readAudioSectors (p : list byte) (nsectors : Z)
  : M (list byte * option error) :=
  if negb (len p =? nsectors * BytesPerSector) then
    ret (p, Some (Errorf "audiocd: invalid buffer size"))
  else
    t <- rd trueOffset ;;
    let start := uint32 (Z.quot t BytesPerSector) in
    match p with
    | [] => panic (* &p[0] *)
    | _ :: _ =>
        h <- rd cdio ;;
        '(err, data) <- ccall (fun tr => cdio_read_audio_sectors tr h (lsn_t start) (c_uint nsectors))
                              (EvReadAudioSectors h (lsn_t start) (c_uint nsectors) (len p)) ;;
        if err =? 0 then ret (blit data p, None)
        else ret (blit data p, Some (AudioCDError err))
    end.

Definition ejectMedia : M (option error) :=
  p <- rd cdio ;;
  err <- ccall (fun tr => cdio_eject_media tr p) (EvEjectMedia p) ;;
  if err =? 0 then upd (set_cdio None) ;; ret None
  else ret (Some (AudioCDError err)).

Definition closeDrive (p : option CdIo) : M unit :=
  ccall (fun _ => tt) (EvDestroy p).

Definition closeTray (device : string) : M (option error) :=
  err <- (if String.eqb device "" then ccall (fun tr => cdio_close_tray tr None) (EvCloseTray None)
          else ccall (fun tr => cdio_close_tray tr (Some device)) (EvCloseTray (Some device))) ;;
  if err =? 0 then ret None else ret (Some (AudioCDError err)).

(** One turn of the loop of [toc] for track index [i]: the entry, or the
    error that ends the loop. *)
Definition toc_entry (p : option CdIo) (t1 : Z) (i : Z) : M (TrackPosition + error) :=
  let tt := track_t (t1 + i) in
  ch <- ccall (fun tr => cdio_get_track_channels tr p tt) (EvGetTrackChannels p tt) ;;
  cp <- ccall (fun tr => cdio_get_track_copy_permit tr p tt) (EvGetTrackCopyPermit p tt) ;;
  pe <- ccall (fun tr => cdio_get_track_preemphasis tr p tt) (EvGetTrackPreemphasis p tt) ;;
  fmt <- ccall (fun tr => cdio_get_track_format tr p tt) (EvGetTrackFormat p tt) ;;
  lsn <- ccall (fun tr => cdio_get_track_lsn tr p tt) (EvGetTrackLsn p tt) ;;
  let start := lsn_t lsn in
  if start =? CDIO_INVALID_LSN then ret (inr (Errorf "libcdio: CDIO_INVALID_LSN"))
  else
    cnt <- ccall (fun tr => cdio_get_track_sec_count tr p tt) (EvGetTrackSecCount p tt) ;;
    let length := c_uint cnt in
    if length =? 0 then ret (inr (Errorf "libcdio: CDIO_INVALID_LSN"))
    else ret (inl (mkTrackPosition (c_int ch) (fmt =? TRACK_FORMAT_AUDIO)
                     (cp =? CDIO_TRACK_FLAG_TRUE) (pe =? CDIO_TRACK_FLAG_TRUE)
                     (t1 + i) start length)).

Fixpoint toc_loop (p : option CdIo) (t1 : Z) (idx : list nat) (filled : list TrackPosition)
  : M (list TrackPosition * option error) :=
  match idx with
  | [] => ret (filled, None)
  | i :: rest =>
      r <- toc_entry p t1 (Z.of_nat i) ;;
      match r with
      | inr e => ret ([], Some e)
      | inl t => toc_loop p t1 rest (filled ++ [t])
      end
  end.

Definition toc (p : option CdIo) (ntracks : Z) : M (list TrackPosition * option error) :=
  (if ntracks <? 0 then panic else ret tt) ;; (* make([]TrackPosition, ntracks) *)
  t1 <- ccall (fun tr => cdio_get_first_track_num tr p) (EvGetFirstTrackNum p) ;;
  let t1 := track_t t1 in
  if t1 =? CDIO_INVALID_TRACK then ret ([], Some (Errorf "libcdio: CDIO_INVALID_TRACK"))
  else toc_loop p t1 (seq 0 (Z.to_nat ntracks)) [].

(** ** audiocd.go *)

Definition IsOpen : M bool :=
  c <- rd cdio ;;
  match c with
  | None => ret false
  | Some _ => ret true
  end.

Definition SetSpeed (x : Z) : M (option error) :=
  open <- IsOpen ;;
  if negb open then ret (Some ErrClosed)
  else
    let x := if x =? -1 then 65535 else x in
    setSpeed x.

Definition Open : M (option error) :=
  open <- IsOpen ;;
  if open then ret None
  else
    err <- openDrive ;;
    match err with
    | Some e => ret (Some e)
    | None =>
        err <- SetSpeed (-1) ;;
        match err with
        | Some e => ret (Some e)
        | None =>
            buf_Truncate 0 ;;
            buf_Grow BytesPerSector ;;
            upd (set_bufferedOffset 0) ;;
            upd (set_trueOffset 0) ;;
            ret None
        end
    end.

Definition Model : M string :=
  open <- IsOpen ;;
  if negb open then ret ""%string
  else c <- rd cdio ;; model c.

Definition TrackCount : M Z :=
  open <- IsOpen ;;
  if negb open then ret (-1)
  else c <- rd cdio ;; trackCount c.

Definition TOC : M (list TrackPosition * option error) :=
  open <- IsOpen ;;
  if negb open then ret ([], Some ErrNotOpen)
  else
    c <- rd cdio ;;
    n <- TrackCount ;;
    toc c n.

Definition LengthSectors : M (Z * option error) :=
  open <- IsOpen ;;
  if negb open then ret (-1, Some ErrNotOpen)
  else
    '(entries, err) <- TOC ;;
    match err with
    | Some e => ret (-1, Some e)
    | None =>
        match rev entries with
        | [] => panic (* toc[len(toc)-1] *)
        | last :: _ => ret (StartSector last + LengthSectors_of last, None)
        end
    end.

Definition readSectors (p : list byte) : M (list byte * Z * option error) :=
  open <- IsOpen ;;
  if negb open then ret (p, 0, Some ErrClosed)
  else if len p =? 0 then ret (p, 0, None)
  else if negb (Z.rem (len p) BytesPerSector =? 0) then
    ret (p, 0, Some (Errorf "audiocd: must read complete sectors"))
  else
    let nsectors := Z.quot (len p) BytesPerSector in
    '(p', err) <- readAudioSectors p nsectors ;;
    match err with
    | Some e => ret (p', 0, Some e)
    | None => ret (p', len p, None)
    end.

(** [cd.sbuf] is the slice handed to [readSectors], so what the drive
    stored in it is visible in [cd.sbuf] afterwards. *)
Definition bufferSectors (nsectors : Z) : M (option error) :=
  s <- rd sbuf ;;
  s <- match s with
       | None => make (nsectors * BytesPerSector)
       | Some b => ret b
       end ;;
  s <- (if len s <? nsectors * BytesPerSector then make (nsectors * BytesPerSector)
        else ret s) ;;
  upd (set_sbuf (Some s)) ;;
  '(s', n, err) <- readSectors s ;;
  upd (set_sbuf (Some s')) ;;
  upd (fun cd => set_bufferedOffset (int64 (bufferedOffset cd + n)) cd) ;;
  (if (n <? 0) || (n >? len s') then panic (* cd.sbuf[:n] *)
   else buf_Write (slice_to s' n)) ;;
  ret err.

Definition Seek (offset : Z) (whence : Z) : M (Z * option error) :=
  open <- IsOpen ;;
  if negb open then t <- rd trueOffset ;; ret (t, Some ErrClosed)
  else
    r <- (if whence =? SeekCurrent then
            t <- rd trueOffset ;; ret (inl (int64 (t + offset)))
          else if whence =? SeekEnd then
            '(l, err) <- LengthSectors ;;
            match err with
            | Some e => ret (inr e)
            | None =>
                let end_ := int64 (l * BytesPerSector) in
                ret (inl (int64 (end_ + offset)))
            end
          else ret (inl offset)) ;;
    match r with
    | inr e => ret (0, Some e)
    | inl newoffset =>
        t <- rd trueOffset ;;
        b <- rd bufferedOffset ;;
        if newoffset =? t then ret (t, None)
        else if (newoffset >? t) && (newoffset <? b) then
          (* can use data already in buffer *)
          buf_Next (int64 (newoffset - t)) ;;
          upd (set_trueOffset newoffset) ;;
          ret (newoffset, None)
        else
          (* otherwise we're going to need to wipe buffer and seek *)
          buf_Truncate 0 ;;
          upd (fun cd => set_trueOffset (bufferedOffset cd) cd) ;;
          let secoffset := int64 (newoffset - Z.rem newoffset BytesPerSector) in
          err <- bufferSectors 1 ;;
          upd (fun cd => set_trueOffset (bufferedOffset cd) cd) ;;
          match err with
          | Some e => t <- rd trueOffset ;; ret (t, Some e)
          | None =>
              (* seek buffer ahead to sub-sector offset *)
              buf_Next (int64 (newoffset - secoffset)) ;;
              upd (set_trueOffset newoffset) ;;
              ret (newoffset, None)
          end
    end.

Definition SeekToSector (sector : Z) : M (Z * option error) :=
  Seek (int64 (sector * BytesPerSector)) SeekStart.

(** [Read] calls itself; [fuel] bounds the depth of the calls.  The
    contents of [p] after the call are returned with [n] and [err]. *)
Fixpoint Read_fuel (fuel : nat) (p : list byte) : M (list byte * Z * option error) :=
  match fuel with
  | O => out_of_fuel
  | S fuel =>
      if len p =? 0 then ret (p, 0, None)
      else
        l <- buf_Len ;;
        if l >? 0 then
          (* if there's data available in the buffer, return just that *)
          let n := len p in
          let n := if n >? l then l else n in
          data <- buf_Next n ;;
          let head := blit data (slice_to p n) in
          upd (fun cd => set_trueOffset (int64 (trueOffset cd + n)) cd) ;;
          (* if more was requested, continue reading *)
          '(tail, nn, err) <- Read_fuel fuel (slice_from p n) ;;
          ret (head ++ tail, n + nn, err)
        else
          (* otherwise load data into the buffer *)
          let nsectors := Z.quot (len p) BytesPerSector + 1 in
          err <- bufferSectors nsectors ;;
          match err with
          | Some e => ret (p, 0, Some e)
          | None => Read_fuel fuel p (* recurse to load said data from buffer *)
          end
  end.

(** No call of [Read] nests deeper than this (see [Read_fuel_enough]). *)
Definition Read_depth : nat := 4.

Definition Read (p : list byte) : M (list byte * Z * option error) :=
  Read_fuel Read_depth p.

Definition Close : M (option error) :=
  open <- IsOpen ;;
  (if open then c <- rd cdio ;; closeDrive c else ret tt) ;;
  upd (set_cdio None) ;;
  buf_Truncate 0 ;;
  ret None.

Definition CloseTray (device : string) : M (option error) := closeTray device.

Definition EjectMedia : M (option error) :=
  err <- ejectMedia ;;
  match err with
  | Some e => ret (Some e)
  | None => Close
  end.

End Methods.

(** ** A drive to run the code on

    A disc of 250 sectors in two tracks, [0,100) and [100,250).  Every
    byte of sector [k] is [k mod 256], so a buffer shows which sector it
    was filled from.  [speed_rc] and [eject_rc] are the codes the drive
    answers to a speed change and to an eject. *)

Definition sector_byte (k : Z) : byte :=
  match Byte.of_N (Z.to_N (k mod 256)) with
  | Some b => b
  | None => x00
  end.

Definition disc_sector (k : Z) : list byte :=
  repeat (sector_byte k) (Z.to_nat BytesPerSector).

Definition disc_length : Z := 250.

Fixpoint disc_sectors (lsn : Z) (n : nat) : list byte :=
  match n with
  | O => []
  | S n' => disc_sector lsn ++ disc_sectors (lsn + 1) n'
  end.

Definition disc_read (lsn nsectors : Z) : Z * list byte :=
  if (lsn <? 0) || (lsn + nsectors >? disc_length) then (-1, [])
  else (0, disc_sectors lsn (Z.to_nat nsectors)).

Definition test_drive (speed_rc eject_rc : Z) : Drive := {|
  cdio_open := fun _ _ => Some 1%positive;
  cdio_get_hwinfo := fun _ _ => Some ("ACME", "CD-ROM", "1.0")%string;
  cdio_get_num_tracks := fun _ _ => 2;
  cdio_get_first_track_num := fun _ _ => 1;
  cdio_get_track_channels := fun _ _ _ => 2;
  cdio_get_track_copy_permit := fun _ _ _ => 0;
  cdio_get_track_preemphasis := fun _ _ _ => 0;
  cdio_get_track_format := fun _ _ _ => 0;
  cdio_get_track_lsn := fun _ _ t => if t =? 1 then 0 else 100;
  cdio_get_track_sec_count := fun _ _ t => if t =? 1 then 100 else 150;
  cdio_set_speed := fun _ _ _ => speed_rc;
  cdio_read_audio_sectors := fun _ _ lsn n => disc_read lsn n;
  cdio_eject_media := fun _ _ => eject_rc;
  cdio_close_tray := fun _ _ => 0;
  CDIO_INVALID_TRACK := 255;
  CDIO_INVALID_LSN := -45301;
  CDIO_TRACK_FLAG_TRUE := 1;
  TRACK_FORMAT_AUDIO := 0
|}.

Definition drive : Drive := test_drive 0 0.

(** Run [m] after [prev], keeping only the world. *)
Definition after {A : Type} (m : M A) (prev : option World) : option World :=
  match prev with
  | None => None
  | Some w => match m w with Done _ w' => Some w' | _ => None end
  end.

Definition fresh : World := mkWorld (zeroAudioCD "/dev/cdrom") [].

(** A drive whose tray does not move, and one whose speed cannot be set
    (both answer DRIVER_OP_UNSUPPORTED). *)
Definition stuck_tray : Drive := test_drive 0 (-2).
Definition fixed_speed : Drive := test_drive (-2) 0.

(** The worlds of the runs used below. *)
Definition device : string := "/dev/cdrom".
Definition session : option CdIo := Some 1%positive.
Definition open_trace : list Event :=
  [EvOpen (Some device); EvSetSpeed session 65535].

(** after [Open()] *)
Definition open_world : World :=
  mkWorld (mkAudioCD device [] None 0 0 session) open_trace.

(** after [Open(); Read(p)] with one byte in [p] *)
Definition streaming_world : World :=
  mkWorld (mkAudioCD device (repeat x00 2351) (Some (disc_sector 0)) 2352 1 session)
          (open_trace ++ [EvReadAudioSectors session 0 1 2352]).

(** after [Open(); Seek(3*2352, io.SeekStart)] *)
Definition sought_world : World :=
  mkWorld (mkAudioCD device (disc_sector 0) (Some (disc_sector 0)) 2352 7056 session)
          (open_trace ++ [EvReadAudioSectors session 0 1 2352]).

(** after [Open(); Read(p); Read(q)] with four sectors in [p] and one in
    [q]: the buffer is empty again and the scratch slice is five sectors
    long *)
Definition drained_world : World :=
  mkWorld (mkAudioCD device [] (Some (disc_sectors 0 5)) 11760 11760 session)
          (open_trace ++ [EvReadAudioSectors session 0 5 11760]).

(** after [bufferSectors(1)] in [drained_world] *)
Definition refilled_world : World :=
  mkWorld (mkAudioCD device (disc_sectors 5 5) (Some (disc_sectors 5 5)) 23520 11760 session)
          (open_trace ++ [EvReadAudioSectors session 0 5 11760;
                          EvReadAudioSectors session 5 5 11760]).

(** ** Vocabulary of the statements *)

(** The device reads of a trace, oldest first: start sector, sector
    count, bytes of the buffer handed over. *)
Fixpoint device_reads (tr : list Event) : list (Z * Z * Z) :=
  match tr with
  | [] => []
  | EvReadAudioSectors _ lsn n bytes :: rest => (lsn, n, bytes) :: device_reads rest
  | _ :: rest => device_reads rest
  end.

(** A read handed to the drive covers whole sectors, at least one. *)
Definition whole_sectors (e : Event) : Prop :=
  match e with
  | EvReadAudioSectors _ _ n bytes =>
      exists k, 1 <= k /\ bytes = k * BytesPerSector /\ n = c_uint k
  | _ => True
  end.

(** Whatever way the call ended, the trace only grew, and by events that
    satisfy [P]. *)
Definition emits {A : Type} (P : Event -> Prop) (o : Outcome A) (w : World) : Prop :=
  match o with
  | Done _ w' | Panic w' => exists new, trace w' = trace w ++ new /\ Forall P new
  | OutOfFuel => True
  end.

(** The accounting of the buffer: the cursor is not past the buffered
    region and the bytes between them are the bytes in the buffer. *)
Definition accounted (cd : AudioCD) : Prop :=
  trueOffset cd <= bufferedOffset cd /\
  bufferedOffset cd - trueOffset cd = len (buf cd).

(** The least number of whole sectors that hold [n] bytes. *)
Definition sectors_covering (n : Z) : Z :=
  (n + BytesPerSector - 1) / BytesPerSector.

(** [m] only ever adds events that satisfy [P]. *)
Definition quiet {A : Type} (P : Event -> Prop) (m : M A) : Prop :=
  forall w, emits P (m w) w.

(** Whatever way [m] ends, the stream it leaves is related by [R] to the
    stream it found. *)
Definition stable {A : Type} (R : AudioCD -> AudioCD -> Prop) (m : M A) : Prop :=
  forall w,
    match m w with
    | Done _ w' | Panic w' => R (stream w) (stream w')
    | OutOfFuel => True
    end.

Definition same_session (cd cd' : AudioCD) : Prop := cdio cd' = cdio cd.

(** Whatever way [m] ends, a stream that satisfied [I] still does. *)
Definition keeps {A : Type} (Inv : AudioCD -> Prop) (m : M A) : Prop :=
  forall w,
    Inv (stream w) ->
    match m w with
    | Done _ w' | Panic w' => Inv (stream w')
    | OutOfFuel => True
    end.

(** The scratch slice is nil or a whole number of sectors, at least one. *)
Definition sbuf_whole (cd : AudioCD) : Prop :=
  match sbuf cd with
  | None => True
  | Some b => exists k, 1 <= k /\ len b = k * BytesPerSector
  end.

(** The calls of the public surface. *)
Inductive Call : Type :=
| CallOpen
| CallClose
| CallEjectMedia
| CallRead (p : list byte)
| CallSeek (offset whence : Z)
| CallSeekToSector (sector : Z)
| CallSetSpeed (x : Z)
| CallModel
| CallTrackCount
| CallTOC
| CallLengthSectors.

(** The world a call leaves, also when it panicked (a caller may recover
    and go on using the stream). *)
Definition world_after {A : Type} (o : Outcome A) : option World :=
  match o with
  | Done _ w | Panic w => Some w
  | OutOfFuel => None
  end.

Definition perform {hw : Drive} (c : Call) (w : World) : option World :=
  match c with
  | CallOpen => world_after (Open w)
  | CallClose => world_after (Close w)
  | CallEjectMedia => world_after (EjectMedia w)
  | CallRead p => world_after (Read p w)
  | CallSeek offset whence => world_after (Seek offset whence w)
  | CallSeekToSector sector => world_after (SeekToSector sector w)
  | CallSetSpeed x => world_after (SetSpeed x w)
  | CallModel => world_after (Model w)
  | CallTrackCount => world_after (TrackCount w)
  | CallTOC => world_after (TOC w)
  | CallLengthSectors => world_after (LengthSectors w)
  end.

(** The worlds a program can bring a zero-valued stream to. *)
Inductive reachable {hw : Drive} : World -> Prop :=
| reach_zero (dev : string) : reachable (mkWorld (zeroAudioCD dev) [])
| reach_call (w w' : World) (c : Call) :
    reachable w -> perform c w = Some w' -> reachable w'.

(** The scratch slice [bufferSectors] hands to [readSectors]. *)
Definition scratch (nsectors : Z) (s : option (list byte)) : list byte :=
  match s with
  | Some b => if len b <? nsectors * BytesPerSector
              then make_bytes (nsectors * BytesPerSector) else b
  | None => make_bytes (nsectors * BytesPerSector)
  end.

(** The sector index [readAudioSectors] passes to libcdio. *)
Definition start_lsn (cd : AudioCD) : Z :=
  lsn_t (uint32 (Z.quot (trueOffset cd) BytesPerSector)).

(** ** The disc behind the stream *)

(** The [n] bytes of the disc from absolute offset [off] on, for a disc
    whose byte at offset [o] is [content o]. *)
Definition bytes_from (content : Z -> byte) (off n : Z) : list byte :=
  map (fun i => content (off + Z.of_nat i)) (seq 0 (Z.to_nat n)).

(** The stream is open, the buffer is accounted for and holds the bytes of
    the disc from the cursor on, and the buffered region ends on a sector
    boundary that a 32-bit sector address reaches. *)
Definition streaming (content : Z -> byte) (cd : AudioCD) : Prop :=
  cdio cd <> None /\
  0 <= trueOffset cd /\
  accounted cd /\
  Z.rem (bufferedOffset cd) BytesPerSector = 0 /\
  bufferedOffset cd <= 2 ^ 31 * BytesPerSector /\
  buf cd = bytes_from content (trueOffset cd) (len (buf cd)) /\
  sbuf_whole cd.

(** The read [bufferSectors(nsectors)] would make in world [w] stays
    within 32-bit sector addresses, and the drive answers it with the
    bytes of the disc. *)
Definition drive_delivers {hw : Drive} (content : Z -> byte) (w : World) (nsectors : Z)
  : Prop :=
  let s := scratch nsectors (sbuf (stream w)) in
  bufferedOffset (stream w) + len s <= 2 ^ 31 * BytesPerSector /\
  cdio_read_audio_sectors (trace w) (cdio (stream w))
    (Z.quot (bufferedOffset (stream w)) BytesPerSector)
    (Z.quot (len s) BytesPerSector)
  = (0, bytes_from content (bufferedOffset (stream w)) (len s)).

(** The contents of the disc in [test_drive]. *)
Definition disc_content (off : Z) : byte := sector_byte (off / BytesPerSector).

(** What [toc] checks of a track before it returns it, and what follows
    for [ContainsSector]. *)
Definition track_checked {hw : Drive} (t : TrackPosition) : Prop :=
  0 < LengthSectors_of t /\
  StartSector t <> CDIO_INVALID_LSN /\
  ContainsSector t (StartSector t) = true /\
  ContainsSector t (StartSector t + LengthSectors_of t - 1) = true /\
  ContainsSector t (StartSector t + LengthSectors_of t) = false.

(** ** More drives and worlds *)

(** The test drive with other answers: whether a drive is found at all,
    how many tracks the disc has, the number of its first track, and the
    sector count of its second track. *)
Definition other_drive (found : bool) (ntracks first count2 : Z) : Drive := {|
  cdio_open := fun _ _ => if found then Some 1%positive else None;
  cdio_get_hwinfo := fun _ _ => Some ("ACME", "CD-ROM", "1.0")%string;
  cdio_get_num_tracks := fun _ _ => ntracks;
  cdio_get_first_track_num := fun _ _ => first;
  cdio_get_track_channels := fun _ _ _ => 2;
  cdio_get_track_copy_permit := fun _ _ _ => 0;
  cdio_get_track_preemphasis := fun _ _ _ => 0;
  cdio_get_track_format := fun _ _ _ => 0;
  cdio_get_track_lsn := fun _ _ t => if t =? first then 0 else 100;
  cdio_get_track_sec_count := fun _ _ t => if t =? first then 100 else count2;
  cdio_set_speed := fun _ _ _ => 0;
  cdio_read_audio_sectors := fun _ _ lsn n => disc_read lsn n;
  cdio_eject_media := fun _ _ => 0;
  cdio_close_tray := fun _ _ => 0;
  CDIO_INVALID_TRACK := 255;
  CDIO_INVALID_LSN := -45301;
  CDIO_TRACK_FLAG_TRUE := 1;
  TRACK_FORMAT_AUDIO := 0
|}.

Definition absent_drive : Drive := other_drive false 2 1 150.
Definition blank_disc : Drive := other_drive true 0 1 150.
Definition unnumbered_disc : Drive := other_drive true 2 255 150.
Definition torn_disc : Drive := other_drive true 2 1 0.

(** A closed stream that was used before: offsets left by an earlier
    session. *)
Definition used_world : World :=
  mkWorld (mkAudioCD device [] (Some (disc_sector 0)) 2352 7056 None) [].

(** The cursor two bytes before the end of the disc, those two bytes
    buffered. *)
Definition last_bytes_world : World :=
  mkWorld (mkAudioCD device [sector_byte 249; sector_byte 249] (Some (disc_sector 249))
                     588000 587998 session)
          open_trace.

(** The two tracks of the test disc. *)
Definition track_one : TrackPosition := mkTrackPosition 2 true false false 1 0 100.
Definition track_two : TrackPosition := mkTrackPosition 2 true false false 2 100 150.

(** ** example_rip_test.go *)

Definition uint16 (z : Z) : Z := z mod 2 ^ 16.

(** [byte(v)]: the low eight bits. *)
Definition byte_of (z : Z) : byte :=
  match Byte.of_N (Z.to_N (z mod 256)) with
  | Some b => b
  | None => x00
  end.

(** The bytes [byte(v), byte(v>>8), ...] that [binary.LittleEndian]
    stores. *)
Fixpoint le_bytes (k : nat) (v : Z) : list byte :=
  match k with
  | O => []
  | S k' => byte_of v :: le_bytes k' (Z.shiftr v 8)
  end.

(** [binary.LittleEndian.PutUint32(b, v)] and [PutUint16]: an index check
    on the last byte written, then the stores.  [None] is the panic. *)
Definition PutUint32 (v : Z) (b : list byte) : option (list byte) :=
  if len b <? 4 then None else Some (blit (le_bytes 4 v) b).
Definition PutUint16 (v : Z) (b : list byte) : option (list byte) :=
  if len b <? 2 then None else Some (blit (le_bytes 2 v) b).

(** [copy(dst, src)] *)
Definition copy (src dst : list byte) : option (list byte) := Some (blit src dst).

(** [f(b[lo:hi])] for an [f] that writes through its argument: the slice
    shares the memory of [b]. *)
Definition on_slice (lo hi : Z) (f : list byte -> option (list byte)) (b : list byte)
  : option (list byte) :=
  if (0 <=? lo) && (lo <=? hi) && (hi <=? len b) then
    match f (slice_from (slice_to b hi) lo) with
    | Some s => Some (slice_to b lo ++ s ++ slice_from b hi)
    | None => None
    end
  else None.

Definition and_then (m : option (list byte)) (f : list byte -> option (list byte))
  : option (list byte) :=
  match m with
  | Some b => f b
  | None => None
  end.

(** [nbytes] is a [uint32]; [nbytes+44-8] wraps around as in Go. *)
Definition CreateWavHeader (nbytes : Z) : option (list byte) :=
  and_then (Some (make_bytes 44)) (fun b =>
  and_then (on_slice 0 4 (copy [x52; x49; x46; x46]) b) (fun b =>          (* RIFF *)
  and_then (on_slice 4 8 (PutUint32 (uint32 (uint32 (nbytes + 44) - 8))) b) (fun b =>
  and_then (on_slice 8 12 (copy [x57; x41; x56; x45]) b) (fun b =>         (* WAVE *)
  and_then (on_slice 12 16 (copy [x66; x6d; x74; x20]) b) (fun b =>        (* fmt  *)
  and_then (on_slice 16 20 (PutUint32 16) b) (fun b =>
  and_then (on_slice 20 22 (PutUint16 1) b) (fun b =>
  and_then (on_slice 22 24 (PutUint16 Channels) b) (fun b =>
  and_then (on_slice 24 28 (PutUint32 SampleRate) b) (fun b =>
  and_then (on_slice 28 32 (PutUint32 (SampleRate * Channels * BytesPerSample)) b) (fun b =>
  and_then (on_slice 32 34 (PutUint16 (Channels * BytesPerSample)) b) (fun b =>
  and_then (on_slice 34 36 (PutUint16 BitsPerSample) b) (fun b =>
  and_then (on_slice 36 40 (copy [x64; x61; x74; x61]) b) (fun b =>        (* data *)
  and_then (on_slice 40 44 (PutUint32 nbytes) b) (fun b =>
  Some b)))))))))))))).

(** The number a little-endian field holds. *)
Definition le_value (l : list byte) : Z :=
  fold_right (fun b acc => Z.of_N (Byte.to_N b) + 256 * acc) 0 l.

(** [b[lo:hi]] of a header that was returned. *)
Definition field (lo hi : Z) (b : list byte) : list byte :=
  slice_from (slice_to b hi) lo.

(** ** Arithmetic and slices *)

Lemma BytesPerSector_eq : BytesPerSector = 2352.
Proof. reflexivity. Qed.

#[global] Opaque BytesPerSector.

Lemma len_nonneg {A : Type} (l : list A) : 0 <= len l.
Proof. unfold len; lia. Qed.

Lemma len_nil_iff {A : Type} (l : list A) : len l = 0 <-> l = [].
Proof.
  unfold len; split; intros H.
  - destruct l; [reflexivity | cbn in H; lia].
  - subst; reflexivity.
Qed.

Lemma len_make_bytes (n : Z) : 0 <= n -> len (make_bytes n) = n.
Proof. intros H; unfold len, make_bytes; rewrite repeat_length; lia. Qed.

Lemma len_slice_to {A : Type} (l : list A) (n : Z) :
  0 <= n <= len l -> len (slice_to l n) = n.
Proof. unfold len, slice_to; intros H; rewrite length_firstn; lia. Qed.

Lemma len_slice_from {A : Type} (l : list A) (n : Z) :
  0 <= n <= len l -> len (slice_from l n) = len l - n.
Proof. unfold len, slice_from; intros H; rewrite length_skipn; lia. Qed.

Lemma slice_to_all {A : Type} (l : list A) : slice_to l (len l) = l.
Proof. unfold slice_to, len; rewrite Nat2Z.id; apply firstn_all. Qed.

Lemma slice_from_all {A : Type} (l : list A) : slice_from l (len l) = [].
Proof. unfold slice_from, len; rewrite Nat2Z.id; apply skipn_all. Qed.

Lemma len_blit (data p : list byte) : len (blit data p) = len p.
Proof.
  unfold len, blit. rewrite length_firstn, length_app, length_skipn. lia.
Qed.

Lemma blit_same_length (data p : list byte) : len data = len p -> blit data p = data.
Proof.
  unfold len, blit; intros H.
  assert (E : List.length data = List.length p) by lia.
  rewrite <- E, skipn_all2 by lia.
  rewrite app_nil_r. apply firstn_all.
Qed.

Lemma scratch_covers (n : Z) (s : option (list byte)) :
  0 <= n -> n * BytesPerSector <= len (scratch n s).
Proof.
  intros Hn. unfold scratch. rewrite BytesPerSector_eq.
  destruct s as [b|].
  - destruct (Z.ltb_spec (len b) (n * 2352)) as [Hlt|Hge].
    + rewrite len_make_bytes; lia.
    + lia.
  - rewrite len_make_bytes; lia.
Qed.

Lemma scratch_fits_exact (n : Z) (s : option (list byte)) :
  0 <= n ->
  (forall b, s = Some b -> len b <= n * BytesPerSector) ->
  len (scratch n s) = n * BytesPerSector.
Proof.
  intros Hn Hfit. unfold scratch. rewrite BytesPerSector_eq in *.
  destruct s as [b|].
  - specialize (Hfit b eq_refl).
    destruct (Z.ltb_spec (len b) (n * 2352)).
    + apply len_make_bytes; lia.
    + lia.
  - apply len_make_bytes; lia.
Qed.

Lemma c_uint_small (n : Z) : 0 <= n < 2 ^ 32 -> c_uint n = n.
Proof. intros H. unfold c_uint, uint32. apply Z.mod_small; exact H. Qed.

Lemma int64_small (z : Z) : - 2 ^ 63 <= z < 2 ^ 63 -> int64 z = z.
Proof.
  intros H. unfold int64, wrap_signed.
  change (2 ^ (64 - 1)) with (2 ^ 63). change (2 ^ 64) with (2 * 2 ^ 63).
  rewrite Z.mod_small; lia.
Qed.

(** [len(p)/BytesPerSector + 1] is the least number of sectors holding
    more than [len(p)] bytes. *)
Lemma refill_count_least (n : Z) :
  0 <= n ->
  n < (Z.quot n BytesPerSector + 1) * BytesPerSector /\
  forall k, n < k * BytesPerSector -> Z.quot n BytesPerSector + 1 <= k.
Proof.
  intros Hn. rewrite BytesPerSector_eq. rewrite Z.quot_div_nonneg by lia.
  split.
  - pose proof (Z.mod_pos_bound n 2352 ltac:(lia)).
    pose proof (Z.div_mod n 2352 ltac:(lia)). lia.
  - intros k Hk.
    assert (n / 2352 < k) by (apply Z.div_lt_upper_bound; lia).
    lia.
Qed.

(** ** Running the monad *)

Lemma bind_Done {A B : Type} (m : M A) (k : A -> M B) (w w' : World) (a : A) :
  m w = Done a w' -> bind m k w = k a w'.
Proof. intros H; unfold bind; rewrite H; reflexivity. Qed.

Lemma bind_assoc {A B C : Type} (m : M A) (k : A -> M B) (k' : B -> M C) (w : World) :
  bind (bind m k) k' w = bind m (fun a => bind (k a) k') w.
Proof. unfold bind; destruct (m w); reflexivity. Qed.

Ltac run :=
  cbn [bind ret rd upd ccall panic out_of_fuel stream trace
       Device buf sbuf bufferedOffset trueOffset cdio
       set_buf set_sbuf set_bufferedOffset set_trueOffset set_cdio
       negb andb orb fst snd].

Section Proofs.
Context {hw : Drive}.

Lemma IsOpen_run (w : World) :
  IsOpen w = Done (match cdio (stream w) with Some _ => true | None => false end) w.
Proof. unfold IsOpen; run. destruct (cdio (stream w)); reflexivity. Qed.

(** *** Seek to where the cursor already is *)

(** C9.  On an open stream, [Seek(trueOffset, io.SeekStart)] returns
    [trueOffset] with no error and leaves the world as it was: same
    buffer, same offsets, no call into libcdio. *)
Theorem Seek_to_cursor_is_noop (w : World) (h : CdIo) :
  cdio (stream w) = Some h ->
  Seek (trueOffset (stream w)) SeekStart w = Done (trueOffset (stream w), None) w.
Proof.
  intros Hopen. unfold Seek.
  rewrite (bind_Done _ _ _ _ _ (IsOpen_run w)), Hopen. run.
  change (SeekStart =? SeekCurrent) with false.
  change (SeekStart =? SeekEnd) with false.
  run. rewrite Z.eqb_refl. reflexivity.
Qed.

(** The same through [io.SeekCurrent] with offset 0, for a cursor that is
    an [int64]. *)
Lemma Seek_current_zero_is_noop (w : World) (h : CdIo) :
  cdio (stream w) = Some h ->
  - 2 ^ 63 <= trueOffset (stream w) < 2 ^ 63 ->
  Seek 0 SeekCurrent w = Done (trueOffset (stream w), None) w.
Proof.
  intros Hopen Hrange. unfold Seek.
  rewrite (bind_Done _ _ _ _ _ (IsOpen_run w)), Hopen. run.
  change (SeekCurrent =? SeekCurrent) with true.
  run. rewrite Z.add_0_r, int64_small by exact Hrange.
  rewrite Z.eqb_refl. reflexivity.
Qed.

(** *** bytes.Buffer *)

Lemma buf_Truncate_0_run (w : World) :
  buf_Truncate 0 w = Done tt (mkWorld (set_buf [] (stream w)) (trace w)).
Proof.
  unfold buf_Truncate, buf_Len. run.
  assert (E : (0 >? len (buf (stream w))) = false)
    by (pose proof (len_nonneg (buf (stream w))); lia).
  change (0 <? 0) with false. rewrite E. reflexivity.
Qed.

Lemma buf_Grow_run (n : Z) (w : World) : 0 <= n -> buf_Grow n w = Done tt w.
Proof.
  intros Hn. unfold buf_Grow.
  destruct (Z.ltb_spec n 0); [lia | reflexivity].
Qed.

Lemma buf_Next_run (n : Z) (w : World) :
  0 <= n ->
  let m := Z.min n (len (buf (stream w))) in
  buf_Next n w =
  Done (slice_to (buf (stream w)) m)
       (mkWorld (set_buf (slice_from (buf (stream w)) m) (stream w)) (trace w)).
Proof.
  intros Hn m. unfold buf_Next, buf_Len. run.
  pose proof (len_nonneg (buf (stream w))) as Hl.
  replace (if n >? len (buf (stream w)) then len (buf (stream w)) else n) with m
    by (unfold m; destruct (Z.gtb_spec n (len (buf (stream w)))); lia).
  destruct (Z.ltb_spec m 0); [unfold m in *; lia | reflexivity].
Qed.

Lemma buf_Next_negative (n : Z) (w : World) :
  n < 0 -> buf_Next n w = Panic w.
Proof.
  intros Hn. unfold buf_Next, buf_Len. run.
  pose proof (len_nonneg (buf (stream w))) as Hl.
  destruct (Z.gtb_spec n (len (buf (stream w)))); [lia|].
  destruct (Z.ltb_spec n 0); [reflexivity | lia].
Qed.

(** *** Open, Close, EjectMedia *)

(** The device name [openDrive] passes to [cdio_open]. *)
Lemma openDrive_run (w : World) :
  let dev := if String.eqb (Device (stream w)) "" then None else Some (Device (stream w)) in
  openDrive w =
  match cdio_open (trace w) dev with
  | None => Done (Some ErrNoDrive) (mkWorld (stream w) (trace w ++ [EvOpen dev]))
  | Some h => Done None (mkWorld (set_cdio (Some h) (stream w)) (trace w ++ [EvOpen dev]))
  end.
Proof.
  unfold openDrive. run.
  destruct (String.eqb (Device (stream w)) ""); run;
    match goal with |- context [cdio_open ?t ?d] => destruct (cdio_open t d) end;
    reflexivity.
Qed.

Lemma SetSpeed_open_run (w : World) (h : CdIo) (x : Z) :
  cdio (stream w) = Some h ->
  let x' := c_int (if x =? -1 then 65535 else x) in
  let rc := cdio_set_speed (trace w) (Some h) x' in
  SetSpeed x w =
  Done (if rc =? 0 then None else Some (AudioCDError rc))
       (mkWorld (stream w) (trace w ++ [EvSetSpeed (Some h) x'])).
Proof.
  intros Hopen. unfold SetSpeed.
  rewrite (bind_Done _ _ _ _ _ (IsOpen_run w)), Hopen. run.
  unfold setSpeed. run. rewrite Hopen.
  destruct (_ =? 0); reflexivity.
Qed.

Lemma Close_run (w : World) :
  Close w =
  Done None
    (mkWorld (set_buf [] (set_cdio None (stream w)))
       (trace w ++ match cdio (stream w) with
                   | Some h => [EvDestroy (Some h)]
                   | None => []
                   end)).
Proof.
  unfold Close.
  rewrite (bind_Done _ _ _ _ _ (IsOpen_run w)).
  unfold closeDrive.
  destruct (cdio (stream w)) as [h|] eqn:Hc; run; rewrite ?Hc; run;
    rewrite (bind_Done _ _ _ _ _ (buf_Truncate_0_run _)); run;
    rewrite ?app_nil_r; reflexivity.
Qed.

(** C10.  When [cdio_open] yields a session [h] and the speed call that
    follows answers a code [rc] other than 0, [Open] returns that error
    and keeps the session: the stream is the old one with [cdio] set, so
    [IsOpen] is true and buffer and offsets were not reset; the session is
    released by the [Close] that follows. *)
Theorem Open_keeps_session_when_speed_fails (w : World) (h : CdIo) :
  let dev := if String.eqb (Device (stream w)) "" then None else Some (Device (stream w)) in
  let rc := cdio_set_speed (trace w ++ [EvOpen dev]) (Some h) 65535 in
  let w1 := mkWorld (set_cdio (Some h) (stream w))
                    (trace w ++ [EvOpen dev; EvSetSpeed (Some h) 65535]) in
  cdio (stream w) = None ->
  cdio_open (trace w) dev = Some h ->
  rc <> 0 ->
  Open w = Done (Some (AudioCDError rc)) w1 /\
  IsOpen w1 = Done true w1 /\
  buf (stream w1) = buf (stream w) /\
  bufferedOffset (stream w1) = bufferedOffset (stream w) /\
  trueOffset (stream w1) = trueOffset (stream w) /\
  Close w1 =
    Done None (mkWorld (set_buf [] (set_cdio None (stream w)))
                       (trace w1 ++ [EvDestroy (Some h)])).
Proof.
  intros dev rc w1 Hclosed Hdrive Hrc.
  assert (HO : Open w = Done (Some (AudioCDError rc)) w1).
  { unfold Open.
    rewrite (bind_Done _ _ _ _ _ (IsOpen_run w)), Hclosed.
    pose proof (openDrive_run w) as Hod. cbv zeta in Hod. fold dev in Hod.
    rewrite Hdrive in Hod.
    rewrite (bind_Done _ _ _ _ _ Hod).
    erewrite bind_Done by (apply SetSpeed_open_run with (h := h); reflexivity).
    cbn [stream trace]. change (c_int (if -1 =? -1 then 65535 else -1)) with 65535.
    fold rc. destruct (Z.eqb_spec rc 0) as [E|_]; [contradiction|].
    unfold w1. rewrite <- app_assoc. reflexivity. }
  split; [exact HO|].
  split; [rewrite IsOpen_run; reflexivity|].
  do 3 (split; [reflexivity|]).
  rewrite Close_run. reflexivity.
Qed.

Lemma EjectMedia_run (w : World) :
  let p := cdio (stream w) in
  let rc := cdio_eject_media (trace w) p in
  EjectMedia w =
  if rc =? 0
  then Done None (mkWorld (set_buf [] (set_cdio None (stream w)))
                          (trace w ++ [EvEjectMedia p]))
  else Done (Some (AudioCDError rc))
            (mkWorld (stream w) (trace w ++ [EvEjectMedia p])).
Proof.
  intros p rc.
  assert (He : ejectMedia w =
               if rc =? 0
               then Done None (mkWorld (set_cdio None (stream w)) (trace w ++ [EvEjectMedia p]))
               else Done (Some (AudioCDError rc))
                         (mkWorld (stream w) (trace w ++ [EvEjectMedia p]))).
  { cbv [ejectMedia bind rd ccall]. cbn [stream trace]. fold p. fold rc.
    destruct (rc =? 0); reflexivity. }
  unfold EjectMedia.
  destruct (rc =? 0); rewrite (bind_Done _ _ _ _ _ He); [|reflexivity].
  rewrite Close_run. cbn [stream trace cdio set_cdio].
  rewrite app_nil_r. reflexivity.
Qed.

(** C5, as the code has it.  [EjectMedia] makes one libcdio call.  When
    the eject answers 0 the session is dropped and [Close] is performed:
    no error is returned, the stream is no longer open and its buffer is
    empty.  When the eject answers another code, that error is returned
    and the stream is left exactly as it was. *)
Theorem EjectMedia_closes_only_after_successful_eject (w : World) :
  let p := cdio (stream w) in
  let rc := cdio_eject_media (trace w) p in
  exists w',
    EjectMedia w = Done (if rc =? 0 then None else Some (AudioCDError rc)) w' /\
    trace w' = trace w ++ [EvEjectMedia p] /\
    stream w' = (if rc =? 0 then set_buf [] (set_cdio None (stream w)) else stream w) /\
    (if rc =? 0 then IsOpen w' = Done false w' /\ buf (stream w') = [] else True).
Proof.
  intros p rc. pose proof (EjectMedia_run w) as H. cbv zeta in H.
  fold p in H. fold rc in H.
  destruct (rc =? 0); eexists; (split; [exact H|]);
    (split; [reflexivity|]); (split; [reflexivity|]).
  - split; reflexivity.
  - exact I.
Qed.

(** C6, as the code has it.  [Close] returns no error on every stream.
    It makes one libcdio call, [cdio_destroy], when a session is held and
    none otherwise; afterwards no session is held and the buffer is empty.
    Both offsets keep their values.  On a stream that is already closed
    (no session, nothing buffered) [Close] changes nothing and calls
    nothing; so does a second [Close]. *)
Theorem Close_releases_and_discards_keeping_offsets (w : World) :
  let w1 := mkWorld (set_buf [] (set_cdio None (stream w)))
                    (trace w ++ match cdio (stream w) with
                                | Some h => [EvDestroy (Some h)]
                                | None => []
                                end) in
  Close w = Done None w1 /\
  cdio (stream w1) = None /\
  buf (stream w1) = [] /\
  bufferedOffset (stream w1) = bufferedOffset (stream w) /\
  trueOffset (stream w1) = trueOffset (stream w) /\
  Close w1 = Done None w1 /\
  (cdio (stream w) = None -> buf (stream w) = [] -> Close w = Done None w).
Proof.
  intros w1. split; [apply Close_run|].
  do 4 (split; [reflexivity|]).
  split.
  - rewrite Close_run. unfold w1. cbn [stream trace cdio set_cdio set_buf].
    rewrite app_nil_r. reflexivity.
  - intros Hc Hb. rewrite Close_run, Hc, app_nil_r.
    destruct w as [[dev b sb bo t c] tr]. cbn in Hc, Hb. subst c b. reflexivity.
Qed.

(** *** The read path *)

Lemma readAudioSectors_run (p : list byte) (nsectors : Z) (w : World) :
  p <> [] ->
  len p = nsectors * BytesPerSector ->
  let h := cdio (stream w) in
  let lsn := start_lsn (stream w) in
  readAudioSectors p nsectors w =
  let (rc, data) := cdio_read_audio_sectors (trace w) h lsn (c_uint nsectors) in
  Done (blit data p, if rc =? 0 then None else Some (AudioCDError rc))
       (mkWorld (stream w)
                (trace w ++ [EvReadAudioSectors h lsn (c_uint nsectors) (len p)])).
Proof.
  intros Hp Hlen h lsn. unfold readAudioSectors.
  rewrite Hlen, Z.eqb_refl. run.
  destruct p as [|b p']; [contradiction|]. run.
  fold (start_lsn (stream w)). fold lsn. fold h.
  destruct (cdio_read_audio_sectors (trace w) h lsn (c_uint nsectors)) as [rc data].
  rewrite <- Hlen.
  destruct (rc =? 0); reflexivity.
Qed.

(** What [readSectors] does, case by case. *)
Lemma readSectors_run (p : list byte) (w : World) :
  readSectors p w =
  match cdio (stream w) with
  | None => Done (p, 0, Some ErrClosed) w
  | Some h =>
      if len p =? 0 then Done (p, 0, None) w
      else if negb (Z.rem (len p) BytesPerSector =? 0)
      then Done (p, 0, Some (Errorf "audiocd: must read complete sectors")) w
      else
        let nsectors := Z.quot (len p) BytesPerSector in
        let lsn := start_lsn (stream w) in
        let (rc, data) := cdio_read_audio_sectors (trace w) (Some h) lsn (c_uint nsectors) in
        Done (blit data p, if rc =? 0 then len p else 0,
              if rc =? 0 then None else Some (AudioCDError rc))
             (mkWorld (stream w)
                (trace w ++ [EvReadAudioSectors (Some h) lsn (c_uint nsectors) (len p)]))
  end.
Proof.
  unfold readSectors.
  rewrite (bind_Done _ _ _ _ _ (IsOpen_run w)).
  destruct (cdio (stream w)) as [h|] eqn:Hc; run; [|reflexivity].
  destruct (Z.eqb_spec (len p) 0) as [E0|N0]; [reflexivity|].
  destruct (Z.eqb_spec (Z.rem (len p) BytesPerSector) 0) as [Er|Nr]; run; [|reflexivity].
  assert (Hp : p <> []) by (intros ->; apply N0; reflexivity).
  assert (Hlen : len p = Z.quot (len p) BytesPerSector * BytesPerSector).
  { pose proof (Z.quot_rem' (len p) BytesPerSector). lia. }
  pose proof (readAudioSectors_run p _ w Hp Hlen) as Hr. cbv zeta in Hr.
  rewrite Hc in Hr. cbv zeta.
  destruct (cdio_read_audio_sectors _ _ _ _) as [rc data].
  rewrite (bind_Done _ _ _ _ _ Hr).
  destruct (rc =? 0); reflexivity.
Qed.

Lemma make_run (n : Z) (w : World) : 0 <= n -> make n w = Done (make_bytes n) w.
Proof. intros Hn. unfold make. destruct (Z.ltb_spec n 0); [lia | reflexivity]. Qed.

Lemma nonneg_sectors (n : Z) : 0 <= n -> 0 <= n * BytesPerSector.
Proof. intros Hn. rewrite BytesPerSector_eq. lia. Qed.

(** [bufferSectors] in terms of [readSectors] on the scratch slice. *)
Lemma bufferSectors_run (n : Z) (w : World) :
  0 <= n ->
  let s := scratch n (sbuf (stream w)) in
  bufferSectors n w =
  match readSectors s (mkWorld (set_sbuf (Some s) (stream w)) (trace w)) with
  | Done (s', k, err) w' =>
      if (k <? 0) || (k >? len s') then
        Panic (mkWorld (set_bufferedOffset (int64 (bufferedOffset (stream w') + k))
                          (set_sbuf (Some s') (stream w'))) (trace w'))
      else
        Done err
          (mkWorld (set_buf (buf (stream w') ++ slice_to s' k)
                      (set_bufferedOffset (int64 (bufferedOffset (stream w') + k))
                         (set_sbuf (Some s') (stream w'))))
                   (trace w'))
  | Panic w' => Panic w'
  | OutOfFuel => OutOfFuel
  end.
Proof.
  intros Hn s. pose proof (nonneg_sectors n Hn) as Hnn.
  assert (Hs : forall k : list byte -> M (option error),
             bind (s0 <- match sbuf (stream w) with
                         | None => make (n * BytesPerSector)
                         | Some b => ret b
                         end ;;
                   if len s0 <? n * BytesPerSector then make (n * BytesPerSector)
                   else ret s0) k w = k s w).
  { intros k. rewrite bind_assoc. unfold s, scratch.
    destruct (sbuf (stream w)) as [b|].
    - run. destruct (len b <? n * BytesPerSector).
      + rewrite (bind_Done _ _ _ _ _ (make_run _ w Hnn)). reflexivity.
      + reflexivity.
    - rewrite (bind_Done _ _ _ _ _ (make_run _ w Hnn)).
      rewrite len_make_bytes, Z.ltb_irrefl by exact Hnn. reflexivity. }
  unfold bufferSectors. run.
  rewrite <- bind_assoc, Hs. run.
  destruct (readSectors s _) as [[[s' k] err] w'|w'|] eqn:Hr.
  - rewrite (bind_Done _ _ _ _ _ Hr).
    cbv [bind upd buf_Write panic ret]. cbn [stream trace].
    destruct ((k <? 0) || (k >? len s')); reflexivity.
  - unfold bind. rewrite Hr. reflexivity.
  - unfold bind. rewrite Hr. reflexivity.
Qed.

Lemma bufferSectors_closed (n : Z) (w : World) :
  0 <= n ->
  cdio (stream w) = None ->
  exists w', bufferSectors n w = Done (Some ErrClosed) w' /\
             trace w' = trace w /\
             cdio (stream w') = None /\
             buf (stream w') = buf (stream w).
Proof.
  intros Hn Hc. rewrite (bufferSectors_run n w Hn). cbv zeta.
  rewrite readSectors_run. cbn [stream trace cdio set_sbuf]. rewrite Hc.
  change (0 <? 0) with false.
  assert (E : (0 >? len (scratch n (sbuf (stream w)))) = false)
    by (pose proof (len_nonneg (scratch n (sbuf (stream w)))); lia).
  rewrite E. cbn [orb stream trace].
  eexists; split; [reflexivity|].
  cbn [stream trace cdio buf set_buf set_bufferedOffset set_sbuf].
  change (slice_to (scratch n (sbuf (stream w))) 0) with (@nil byte).
  rewrite app_nil_r. auto.
Qed.

(** [bufferSectors] on an open stream whose scratch slice is a whole
    number of sectors: one device read of the whole scratch slice, at the
    sector of [trueOffset]. *)
Lemma bufferSectors_open (n : Z) (w : World) (h : CdIo) :
  1 <= n ->
  cdio (stream w) = Some h ->
  let s := scratch n (sbuf (stream w)) in
  Z.rem (len s) BytesPerSector = 0 ->
  let lsn := start_lsn (stream w) in
  let cnt := c_uint (Z.quot (len s) BytesPerSector) in
  let rc := fst (cdio_read_audio_sectors (trace w) (Some h) lsn cnt) in
  let s' := blit (snd (cdio_read_audio_sectors (trace w) (Some h) lsn cnt)) s in
  bufferSectors n w =
  Done (if rc =? 0 then None else Some (AudioCDError rc))
    (mkWorld
       (set_buf (buf (stream w) ++ (if rc =? 0 then s' else []))
          (set_bufferedOffset
             (int64 (bufferedOffset (stream w) + (if rc =? 0 then len s else 0)))
             (set_sbuf (Some s') (stream w))))
       (trace w ++ [EvReadAudioSectors (Some h) lsn cnt (len s)])).
Proof.
  intros Hn Hc s Hrem lsn cnt rc s'.
  assert (Hn0 : 0 <= n) by lia.
  pose proof (scratch_covers n (sbuf (stream w)) Hn0) as Hcov. fold s in Hcov.
  rewrite BytesPerSector_eq in Hcov.
  rewrite (bufferSectors_run n w Hn0). cbv zeta. fold s.
  rewrite readSectors_run. cbn [stream trace cdio set_sbuf]. rewrite Hc.
  destruct (Z.eqb_spec (len s) 0) as [E|_]; [lia|].
  rewrite Hrem. change (negb (0 =? 0)) with false. cbv iota zeta.
  change (start_lsn (set_sbuf (Some s) (stream w))) with lsn. fold cnt.
  unfold rc, s'.
  destruct (cdio_read_audio_sectors (trace w) (Some h) lsn cnt) as [rc0 data].
  cbn [fst snd].
  destruct (rc0 =? 0).
  - destruct (Z.ltb_spec (len s) 0); [lia|].
    rewrite len_blit.
    destruct (Z.gtb_spec (len s) (len s)); [lia|]. cbn [orb stream trace].
    rewrite <- (len_blit data s) at 1. rewrite slice_to_all. reflexivity.
  - change (0 <? 0) with false.
    assert (E : (0 >? len (blit data s)) = false)
      by (pose proof (len_nonneg (blit data s)); lia).
    rewrite E. reflexivity.
Qed.

(** *** Only whole sectors cross the boundary *)

Lemma emits_refl {A : Type} (P : Event -> Prop) (a : A) (w : World) :
  emits P (Done a w) w.
Proof. exists []. split; [symmetry; apply app_nil_r | constructor]. Qed.

Lemma quiet_ret {A : Type} (P : Event -> Prop) (a : A) : quiet P (ret a).
Proof. intros w. apply emits_refl. Qed.

Lemma quiet_rd {A : Type} (P : Event -> Prop) (f : AudioCD -> A) : quiet P (rd f).
Proof. intros w. apply emits_refl. Qed.

Lemma quiet_upd (P : Event -> Prop) (f : AudioCD -> AudioCD) : quiet P (upd f).
Proof.
  intros w. exists []. split; [symmetry; apply app_nil_r | constructor].
Qed.

Lemma quiet_panic {A : Type} (P : Event -> Prop) : quiet P (@panic A).
Proof.
  intros w. exists []. split; [symmetry; apply app_nil_r | constructor].
Qed.

Lemma quiet_out_of_fuel {A : Type} (P : Event -> Prop) : quiet P (@out_of_fuel A).
Proof. intros w. exact I. Qed.

Lemma quiet_ccall {A : Type} (P : Event -> Prop) (answer : list Event -> A) (e : Event) :
  P e -> quiet P (ccall answer e).
Proof.
  intros He w. exists [e]. split; [reflexivity | repeat constructor; exact He].
Qed.

Lemma quiet_bind {A B : Type} (P : Event -> Prop) (m : M A) (k : A -> M B) :
  quiet P m -> (forall a, quiet P (k a)) -> quiet P (bind m k).
Proof.
  intros Hm Hk w. unfold bind. specialize (Hm w).
  destruct (m w) as [a w1|w1|]; [|exact Hm|exact I].
  destruct Hm as (new1 & E1 & F1). specialize (Hk a w1).
  destruct (k a w1) as [b w2|w2|]; [| |exact I];
    destruct Hk as (new2 & E2 & F2);
    exists (new1 ++ new2);
    (split; [rewrite E2, E1, app_assoc; reflexivity | apply Forall_app; auto]).
Qed.

Ltac quiet_step :=
  first
    [ apply quiet_ret | apply quiet_rd | apply quiet_upd | apply quiet_panic
    | apply quiet_out_of_fuel
    | apply quiet_ccall; exact I
    | apply quiet_bind; [|intros ?]
    | match goal with
      | |- quiet _ (if ?c then _ else _) => destruct c
      | |- quiet _ (match ?x with _ => _ end) => destruct x
      | |- quiet _ (let (_, _) := ?x in _) => destruct x
      end ].

Ltac quiet_auto := repeat quiet_step.

Lemma quiet_buf_Next (P : Event -> Prop) (n : Z) : quiet P (buf_Next n).
Proof. unfold buf_Next, buf_Len. quiet_auto. Qed.

Lemma quiet_buf_Truncate (P : Event -> Prop) (n : Z) : quiet P (buf_Truncate n).
Proof. unfold buf_Truncate, buf_Len. quiet_auto. Qed.

Lemma quiet_IsOpen (P : Event -> Prop) : quiet P IsOpen.
Proof. unfold IsOpen. quiet_auto. Qed.

Lemma quiet_readAudioSectors (p : list byte) (nsectors : Z) :
  quiet whole_sectors (readAudioSectors p nsectors).
Proof.
  unfold readAudioSectors.
  destruct (Z.eqb_spec (len p) (nsectors * BytesPerSector)) as [E|N];
    cbn [negb]; [|quiet_auto].
  apply quiet_bind; [quiet_auto|intros t].
  destruct p as [|b p']; [quiet_auto|].
  apply quiet_bind; [quiet_auto|intros h].
  apply quiet_bind; [|intros [err data]; quiet_auto].
  apply quiet_ccall. exists nsectors.
  split; [|split; [exact E | reflexivity]].
  rewrite BytesPerSector_eq in E.
  assert (0 < len (b :: p')) by (unfold len; cbn [List.length]; lia).
  lia.
Qed.

Lemma quiet_readSectors (p : list byte) : quiet whole_sectors (readSectors p).
Proof.
  unfold readSectors.
  apply quiet_bind; [apply quiet_IsOpen|intros open].
  destruct (negb open); [quiet_auto|].
  destruct (len p =? 0); [quiet_auto|].
  destruct (negb _); [quiet_auto|].
  apply quiet_bind; [apply quiet_readAudioSectors|intros [p' err]].
  quiet_auto.
Qed.

Lemma quiet_bufferSectors (n : Z) : quiet whole_sectors (bufferSectors n).
Proof.
  unfold bufferSectors, make, buf_Write.
  apply quiet_bind; [quiet_auto|intros s0].
  apply quiet_bind; [quiet_auto|intros s1].
  apply quiet_bind; [quiet_auto|intros s2].
  apply quiet_bind; [quiet_auto|intros []].
  apply quiet_bind; [apply quiet_readSectors|intros [[s' k] err]].
  quiet_auto.
Qed.

Lemma quiet_Read_fuel (fuel : nat) :
  forall p, quiet whole_sectors (Read_fuel fuel p).
Proof.
  induction fuel as [|fuel IH]; intros p; cbn [Read_fuel]; [quiet_auto|].
  destruct (len p =? 0); [quiet_auto|].
  unfold buf_Len.
  apply quiet_bind; [quiet_auto|intros l].
  destruct (l >? 0).
  - apply quiet_bind; [apply quiet_buf_Next|intros data].
    apply quiet_bind; [quiet_auto|intros []].
    apply quiet_bind; [apply IH|intros [[tail nn] err]].
    quiet_auto.
  - apply quiet_bind; [apply quiet_bufferSectors|intros [e|]];
      [quiet_auto|apply IH].
Qed.

Lemma quiet_toc_entry (p : option CdIo) (t1 i : Z) :
  quiet whole_sectors (toc_entry p t1 i).
Proof. unfold toc_entry. quiet_auto. Qed.

Lemma quiet_toc_loop (p : option CdIo) (t1 : Z) (idx : list nat) :
  forall filled, quiet whole_sectors (toc_loop p t1 idx filled).
Proof.
  induction idx as [|i rest IH]; intros filled; cbn [toc_loop]; [quiet_auto|].
  apply quiet_bind; [apply quiet_toc_entry|intros [t|e]];
    [apply IH|quiet_auto].
Qed.

Lemma quiet_LengthSectors : quiet whole_sectors LengthSectors.
Proof.
  unfold LengthSectors, TOC, TrackCount, trackCount, toc.
  apply quiet_bind; [apply quiet_IsOpen|intros open].
  destruct (negb open); [quiet_auto|].
  apply quiet_bind; [|intros [entries err]; quiet_auto].
  apply quiet_bind; [apply quiet_IsOpen|intros open'].
  destruct (negb open'); [quiet_auto|].
  apply quiet_bind; [quiet_auto|intros c].
  apply quiet_bind.
  { apply quiet_bind; [apply quiet_IsOpen|intros o]. quiet_auto. }
  intros n.
  apply quiet_bind; [quiet_auto|intros []].
  apply quiet_bind; [quiet_auto|intros t1].
  destruct (_ =? _); [quiet_auto|apply quiet_toc_loop].
Qed.

Lemma quiet_Seek (offset whence : Z) : quiet whole_sectors (Seek offset whence).
Proof.
  unfold Seek.
  apply quiet_bind; [apply quiet_IsOpen|intros open].
  destruct (negb open); [quiet_auto|].
  apply quiet_bind.
  { destruct (whence =? SeekCurrent); [quiet_auto|].
    destruct (whence =? SeekEnd); [|quiet_auto].
    apply quiet_bind; [apply quiet_LengthSectors|intros [l err]]. quiet_auto. }
  intros [newoffset|e]; [|quiet_auto].
  apply quiet_bind; [quiet_auto|intros t].
  apply quiet_bind; [quiet_auto|intros b].
  destruct (newoffset =? t); [quiet_auto|].
  destruct (_ && _).
  - apply quiet_bind; [apply quiet_buf_Next|intros data]. quiet_auto.
  - apply quiet_bind; [apply quiet_buf_Truncate|intros []].
    apply quiet_bind; [quiet_auto|intros []].
    apply quiet_bind; [apply quiet_bufferSectors|intros err].
    apply quiet_bind; [quiet_auto|intros []].
    destruct err; [quiet_auto|].
    apply quiet_bind; [apply quiet_buf_Next|intros data]. quiet_auto.
Qed.

(** *** Read *)

Lemma bind_ext {A B : Type} (m : M A) (k1 k2 : A -> M B) (w : World) :
  (forall a w', m w = Done a w' -> k1 a w' = k2 a w') ->
  bind m k1 w = bind m k2 w.
Proof.
  intros H. unfold bind. destruct (m w) as [a w'| |]; auto.
Qed.

Lemma bind_not_out_of_fuel {A B : Type} (m : M A) (k : A -> M B) (w w' : World) (a : A) :
  bind m k w <> OutOfFuel -> m w = Done a w' -> k a w' <> OutOfFuel.
Proof. intros H E. rewrite (bind_Done _ _ _ _ _ E) in H. exact H. Qed.

(** Once a call of [Read] has ended within its fuel, more fuel changes
    nothing. *)
Lemma Read_fuel_mono (fuel : nat) :
  forall p w fuel',
    Read_fuel fuel p w <> OutOfFuel ->
    (fuel <= fuel')%nat ->
    Read_fuel fuel' p w = Read_fuel fuel p w.
Proof.
  induction fuel as [|fuel IH]; intros p w fuel' Hend Hle.
  - exfalso. apply Hend. reflexivity.
  - destruct fuel' as [|fuel']; [lia|].
    cbn [Read_fuel] in *.
    destruct (len p =? 0); [reflexivity|].
    apply bind_ext. intros l w1 E1.
    pose proof (bind_not_out_of_fuel _ _ _ _ _ Hend E1) as H1. cbv beta in H1.
    destruct (l >? 0).
    + apply bind_ext. intros data w2 E2.
      pose proof (bind_not_out_of_fuel _ _ _ _ _ H1 E2) as H2. cbv beta in H2.
      apply bind_ext. intros u w3 E3.
      pose proof (bind_not_out_of_fuel _ _ _ _ _ H2 E3) as H3. cbv beta in H3.
      unfold bind at 1 2. rewrite (IH _ w3 fuel'); [reflexivity| |lia].
      intros E. apply H3. unfold bind. rewrite E. reflexivity.
    + apply bind_ext. intros err w2 E2.
      pose proof (bind_not_out_of_fuel _ _ _ _ _ H1 E2) as H2. cbv beta in H2.
      destruct err; [reflexivity|].
      apply IH; [exact H2|lia].
Qed.

Lemma Read_fuel_nil (fuel : nat) (w : World) :
  Read_fuel (S fuel) [] w = Done ([], 0, None) w.
Proof. reflexivity. Qed.

(** The first branch of [Read]: bytes are waiting in the buffer. *)
Lemma Read_fuel_serve (fuel : nat) (p : list byte) (w : World) :
  0 < len p ->
  0 < len (buf (stream w)) ->
  let n := Z.min (len p) (len (buf (stream w))) in
  Read_fuel (S fuel) p w =
  bind (Read_fuel fuel (slice_from p n))
       (fun '(tail, nn, err) =>
          ret (blit (slice_to (buf (stream w)) n) (slice_to p n) ++ tail, n + nn, err))
       (mkWorld (set_trueOffset (int64 (trueOffset (stream w) + n))
                   (set_buf (slice_from (buf (stream w)) n) (stream w)))
                (trace w)).
Proof.
  intros Hp Hb n. cbn [Read_fuel].
  destruct (Z.eqb_spec (len p) 0); [lia|].
  unfold buf_Len. run.
  destruct (Z.gtb_spec (len (buf (stream w))) 0); [|lia].
  replace (if len p >? len (buf (stream w)) then len (buf (stream w)) else len p)
    with n by (unfold n; destruct (Z.gtb_spec (len p) (len (buf (stream w)))); lia).
  assert (Hn : 0 <= n) by (unfold n; lia).
  pose proof (buf_Next_run n w Hn) as HN. cbv zeta in HN.
  replace (Z.min n (len (buf (stream w)))) with n in HN by (unfold n; lia).
  rewrite (bind_Done _ _ _ _ _ HN). run. reflexivity.
Qed.

(** The second branch of [Read]: the buffer is empty. *)
Lemma Read_fuel_refill (fuel : nat) (p : list byte) (w : World) :
  0 < len p ->
  buf (stream w) = [] ->
  Read_fuel (S fuel) p w =
  bind (bufferSectors (Z.quot (len p) BytesPerSector + 1))
       (fun err => match err with
                   | Some e => ret (p, 0, Some e)
                   | None => Read_fuel fuel p
                   end) w.
Proof.
  intros Hp Hb. cbn [Read_fuel].
  destruct (Z.eqb_spec (len p) 0); [lia|].
  unfold buf_Len. run. rewrite Hb. reflexivity.
Qed.

(** A request that the buffer covers is served by two calls. *)
Lemma Read_fuel_covered (fuel : nat) (p : list byte) (w : World) :
  0 < len p <= len (buf (stream w)) ->
  Read_fuel (S (S fuel)) p w =
  Done (slice_to (buf (stream w)) (len p), len p, None)
       (mkWorld (set_trueOffset (int64 (trueOffset (stream w) + len p))
                   (set_buf (slice_from (buf (stream w)) (len p)) (stream w)))
                (trace w)).
Proof.
  intros Hp.
  rewrite Read_fuel_serve by lia. cbv zeta.
  replace (Z.min (len p) (len (buf (stream w)))) with (len p) by lia.
  rewrite slice_from_all, slice_to_all.
  rewrite (bind_Done _ _ _ _ _ (Read_fuel_nil fuel _)). run.
  rewrite blit_same_length by (rewrite len_slice_to; [reflexivity | lia]).
  rewrite app_nil_r, Z.add_0_r. reflexivity.
Qed.

Lemma refill_count_pos (p : list byte) : 1 <= Z.quot (len p) BytesPerSector + 1.
Proof.
  pose proof (len_nonneg p). rewrite BytesPerSector_eq.
  pose proof (Z.quot_pos (len p) 2352). lia.
Qed.

(** After a refill without error the buffer holds more than the request. *)
Lemma bufferSectors_fills (n : Z) (w : World) :
  1 <= n ->
  buf (stream w) = [] ->
  match bufferSectors n w with
  | Done None w' => n * BytesPerSector <= len (buf (stream w'))
  | Done (Some _) _ => True
  | Panic _ => True
  | OutOfFuel => False
  end.
Proof.
  intros Hn Hb.
  assert (Hn0 : 0 <= n) by lia.
  pose proof (scratch_covers n (sbuf (stream w)) Hn0) as Hcov.
  rewrite (bufferSectors_run n w Hn0). cbv zeta.
  rewrite readSectors_run. cbn [stream trace cdio set_sbuf].
  set (s := scratch n (sbuf (stream w))) in *.
  assert (Hs : 0 < len s) by (rewrite BytesPerSector_eq in Hcov; lia).
  destruct (cdio (stream w)) as [h|].
  - destruct (Z.eqb_spec (len s) 0); [lia|].
    destruct (negb _).
    + destruct ((0 <? 0) || (0 >? len s)); exact I.
    + cbv zeta.
      destruct (cdio_read_audio_sectors _ _ _ _) as [rc data].
      destruct (rc =? 0).
      * rewrite len_blit.
        destruct (Z.ltb_spec (len s) 0); [lia|].
        destruct (Z.gtb_spec (len s) (len s)); [lia|].
        cbn [orb stream buf set_buf set_bufferedOffset set_sbuf].
        rewrite Hb. cbn [app].
        rewrite <- (len_blit data s) at 1. rewrite slice_to_all, len_blit.
        exact Hcov.
      * destruct ((0 <? 0) || (0 >? len (blit data s))); exact I.
  - destruct ((0 <? 0) || (0 >? len s)); exact I.
Qed.

(** [Read] never nests deeper than [Read_depth]. *)
Lemma Read_total (p : list byte) (w : World) : Read p w <> OutOfFuel.
Proof.
  unfold Read, Read_depth.
  assert (Hrefill : forall fuel q w0, 0 < len q -> buf (stream w0) = [] ->
                      Read_fuel (S (S (S fuel))) q w0 <> OutOfFuel).
  { intros fuel q w0 Hq Hb0. rewrite Read_fuel_refill by assumption.
    pose proof (bufferSectors_fills _ w0 (refill_count_pos q) Hb0) as Hf.
    pose proof (refill_count_least (len q) (len_nonneg q)) as [Hlt _].
    unfold bind.
    destruct (bufferSectors _ w0) as [[e|] w1|w1|]; try discriminate; [|contradiction].
    rewrite Read_fuel_covered by lia. discriminate. }
  destruct (Z.eqb_spec (len p) 0) as [E|N].
  - apply len_nil_iff in E. subst p. discriminate.
  - pose proof (len_nonneg p) as Hp.
    destruct (Z.eqb_spec (len (buf (stream w))) 0) as [Eb|Nb].
    + apply len_nil_iff in Eb. apply Hrefill; [lia | exact Eb].
    + pose proof (len_nonneg (buf (stream w))) as Hb.
      destruct (Z_le_gt_dec (len p) (len (buf (stream w)))) as [Hle|Hgt].
      * rewrite Read_fuel_covered by lia. discriminate.
      * rewrite Read_fuel_serve by lia. cbv zeta.
        replace (Z.min (len p) (len (buf (stream w)))) with (len (buf (stream w))) by lia.
        rewrite slice_from_all.
        unfold bind.
        match goal with
        | |- match ?c with _ => _ end <> _ =>
            assert (Hc : c <> OutOfFuel); [|destruct c as [[[? ?] ?] ?|?|];
                                             [discriminate|discriminate|contradiction]]
        end.
        apply Hrefill; [|reflexivity].
        rewrite len_slice_from; lia.
Qed.

Lemma Read_fuel_enough (fuel : nat) (p : list byte) (w : World) :
  (Read_depth <= fuel)%nat -> Read_fuel fuel p w = Read p w.
Proof.
  intros Hle. apply Read_fuel_mono; [apply Read_total | exact Hle].
Qed.

Lemma quiet_Read (p : list byte) : quiet whole_sectors (Read p).
Proof. apply quiet_Read_fuel. Qed.

(** *** A stream that is not open *)

Lemma IsOpen_closed (w : World) :
  cdio (stream w) = None -> IsOpen w = Done false w.
Proof. intros Hc. rewrite IsOpen_run, Hc. reflexivity. Qed.

Lemma Seek_closed (w : World) (offset whence : Z) :
  cdio (stream w) = None ->
  Seek offset whence w = Done (trueOffset (stream w), Some ErrClosed) w.
Proof.
  intros Hc. unfold Seek.
  rewrite (bind_Done _ _ _ _ _ (IsOpen_closed w Hc)). reflexivity.
Qed.

Lemma Read_closed (w : World) (p : list byte) :
  cdio (stream w) = None ->
  p <> [] ->
  buf (stream w) = [] ->
  exists w', Read p w = Done (p, 0, Some ErrClosed) w' /\
             trace w' = trace w /\
             cdio (stream w') = None /\
             buf (stream w') = [].
Proof.
  intros Hc Hp Hb.
  assert (Hlen : 0 < len p).
  { pose proof (len_nonneg p). destruct (Z.eqb_spec (len p) 0) as [E|N]; [|lia].
    apply len_nil_iff in E. contradiction. }
  pose proof (refill_count_pos p) as Hn.
  destruct (bufferSectors_closed (Z.quot (len p) BytesPerSector + 1) w ltac:(lia) Hc)
    as (w' & Hbs & Htr & Hc' & Hb').
  exists w'. unfold Read, Read_depth.
  rewrite Read_fuel_refill by assumption.
  rewrite (bind_Done _ _ _ _ _ Hbs).
  split; [reflexivity|]. split; [exact Htr|]. split; [exact Hc'|].
  rewrite Hb'. exact Hb.
Qed.

(** C7, as the code has it.  On a stream that holds no session, [Seek],
    [TOC], [LengthSectors] and [SetSpeed] return [ErrClosed] and leave the
    world untouched; [Model] and [TrackCount], which have no error result,
    return the empty string and -1; [Read] of a non-empty [p] (the buffer
    of a closed stream being empty, see [closed_stream_has_empty_buffer])
    returns 0 bytes and [ErrClosed].  None of them calls libcdio.  [Read]
    of an empty [p] returns 0 and no error. *)
Theorem closed_stream_fails_without_device_call (w : World) :
  cdio (stream w) = None ->
  (forall offset whence,
     Seek offset whence w = Done (trueOffset (stream w), Some ErrClosed) w) /\
  TOC w = Done ([], Some ErrClosed) w /\
  LengthSectors w = Done (-1, Some ErrClosed) w /\
  (forall x, SetSpeed x w = Done (Some ErrClosed) w) /\
  Model w = Done ""%string w /\
  TrackCount w = Done (-1) w /\
  Read [] w = Done ([], 0, None) w /\
  (forall p, p <> [] -> buf (stream w) = [] ->
     exists w', Read p w = Done (p, 0, Some ErrClosed) w' /\
                trace w' = trace w /\
                cdio (stream w') = None /\
                buf (stream w') = []).
Proof.
  intros Hc.
  pose proof (IsOpen_closed w Hc) as HO.
  split; [intros; apply Seek_closed; exact Hc|].
  split; [unfold TOC; rewrite (bind_Done _ _ _ _ _ HO); reflexivity|].
  split; [unfold LengthSectors; rewrite (bind_Done _ _ _ _ _ HO); reflexivity|].
  split; [intros; unfold SetSpeed; rewrite (bind_Done _ _ _ _ _ HO); reflexivity|].
  split; [unfold Model; rewrite (bind_Done _ _ _ _ _ HO); reflexivity|].
  split; [unfold TrackCount; rewrite (bind_Done _ _ _ _ _ HO); reflexivity|].
  split; [reflexivity|].
  intros p Hp Hb. apply Read_closed; assumption.
Qed.

(** *** Read on an empty buffer *)

(** C3, as the code has it.  Take an open stream with an empty buffer, a
    request of at least one byte, and a scratch slice no longer than
    [len(p)/BytesPerSector + 1] sectors (it is nil until the first read).
    [Read] then makes one device read, at the sector of [trueOffset], of
    [len(p)/BytesPerSector + 1] whole sectors; when the drive answers 0 it
    returns [len(p)] bytes, the first [len(p)] the drive stored, and leaves
    the remaining [(len(p)/BytesPerSector + 1) * BytesPerSector - len(p)]
    stored bytes in the buffer. *)
Theorem Read_on_empty_buffer_refills_once (w : World) (h : CdIo) (p data : list byte) :
  let nsectors := Z.quot (len p) BytesPerSector + 1 in
  let lsn := start_lsn (stream w) in
  cdio (stream w) = Some h ->
  buf (stream w) = [] ->
  0 < len p ->
  (forall b, sbuf (stream w) = Some b -> len b <= nsectors * BytesPerSector) ->
  cdio_read_audio_sectors (trace w) (Some h) lsn (c_uint nsectors) = (0, data) ->
  exists s w',
    Read p w = Done (slice_to s (len p), len p, None) w' /\
    trace w' =
      trace w ++ [EvReadAudioSectors (Some h) lsn (c_uint nsectors)
                    (nsectors * BytesPerSector)] /\
    s = blit data (scratch nsectors (sbuf (stream w))) /\
    len s = nsectors * BytesPerSector /\
    buf (stream w') = slice_from s (len p) /\
    len (buf (stream w')) = nsectors * BytesPerSector - len p /\
    0 < len (buf (stream w')) <= BytesPerSector.
Proof.
  intros nsectors lsn Hc Hb Hp Hfit Hdev.
  pose proof (refill_count_pos p) as Hn. fold nsectors in Hn.
  pose proof (refill_count_least (len p) (len_nonneg p)) as [Hlt _].
  fold nsectors in Hlt.
  set (s0 := scratch nsectors (sbuf (stream w))).
  assert (Hs0 : len s0 = nsectors * BytesPerSector)
    by (apply scratch_fits_exact; [lia | exact Hfit]).
  assert (Hrem : Z.rem (len s0) BytesPerSector = 0).
  { rewrite Hs0, BytesPerSector_eq. apply Z.rem_mul. lia. }
  assert (Hquot : Z.quot (len s0) BytesPerSector = nsectors).
  { rewrite Hs0, BytesPerSector_eq. apply Z.quot_mul. lia. }
  pose proof (bufferSectors_open nsectors w h Hn Hc Hrem) as Hbs.
  cbv zeta in Hbs. fold s0 in Hbs. rewrite Hquot in Hbs. fold lsn in Hbs.
  rewrite Hdev in Hbs. cbn [fst snd] in Hbs. change (0 =? 0) with true in Hbs.
  cbv iota in Hbs. rewrite Hb in Hbs. cbn [app] in Hbs.
  exists (blit data s0).
  eexists. unfold Read, Read_depth.
  rewrite Read_fuel_refill by assumption. fold nsectors.
  rewrite (bind_Done _ _ _ _ _ Hbs).
  rewrite Read_fuel_covered
    by (cbn [stream buf set_buf]; rewrite len_blit, Hs0; lia).
  cbn [stream trace buf set_buf set_trueOffset set_bufferedOffset set_sbuf].
  split; [reflexivity|].
  split; [rewrite Hs0; reflexivity|].
  split; [reflexivity|].
  split; [rewrite len_blit; exact Hs0|].
  split; [reflexivity|].
  assert (Hl : len (slice_from (blit data s0) (len p)) = nsectors * BytesPerSector - len p)
    by (rewrite len_slice_from; rewrite len_blit, Hs0; lia).
  split; [exact Hl|].
  cbn [stream buf set_buf set_trueOffset].
  rewrite Hl. subst nsectors. rewrite BytesPerSector_eq in *.
  rewrite Z.quot_div_nonneg in * by lia.
  pose proof (Z.mod_pos_bound (len p) 2352 ltac:(lia)).
  pose proof (Z.div_mod (len p) 2352 ltac:(lia)). lia.
Qed.

(** *** Seek *)

(** The fast path: the target is ahead of the cursor and inside the
    buffered region.  The cursor moves, the buffer loses its front, and
    nothing is read. *)
Lemma Seek_fast_path (w : World) (h : CdIo) (target : Z) :
  cdio (stream w) = Some h ->
  trueOffset (stream w) < target < bufferedOffset (stream w) ->
  0 <= trueOffset (stream w) ->
  bufferedOffset (stream w) < 2 ^ 63 ->
  let skip := Z.min (target - trueOffset (stream w)) (len (buf (stream w))) in
  Seek target SeekStart w =
  Done (target, None)
       (mkWorld (set_trueOffset target
                   (set_buf (slice_from (buf (stream w)) skip) (stream w)))
                (trace w)).
Proof.
  intros Hc Hin Hlo Hhi skip. unfold Seek.
  rewrite (bind_Done _ _ _ _ _ (IsOpen_run w)), Hc. run.
  change (SeekStart =? SeekCurrent) with false.
  change (SeekStart =? SeekEnd) with false. run.
  destruct (Z.eqb_spec target (trueOffset (stream w))); [lia|].
  destruct (Z.gtb_spec target (trueOffset (stream w))); [|lia].
  destruct (Z.ltb_spec target (bufferedOffset (stream w))); [|lia].
  cbn [andb].
  rewrite int64_small by lia.
  pose proof (buf_Next_run (target - trueOffset (stream w)) w ltac:(lia)) as HN.
  cbv zeta in HN. fold skip in HN.
  rewrite (bind_Done _ _ _ _ _ HN). reflexivity.
Qed.

(** The slow path: the target is behind the cursor, or at or past the end
    of the buffered region.  The one device read goes to the sector of the
    old [bufferedOffset], whatever the target is; [bufferedOffset] grows by
    the bytes read and [trueOffset] becomes the target. *)
Lemma Seek_slow_path (w : World) (h : CdIo) (target : Z) (data : list byte) :
  let s := scratch 1 (sbuf (stream w)) in
  let lsn := lsn_t (uint32 (Z.quot (bufferedOffset (stream w)) BytesPerSector)) in
  let cnt := c_uint (Z.quot (len s) BytesPerSector) in
  cdio (stream w) = Some h ->
  target < trueOffset (stream w) \/
    (trueOffset (stream w) < target /\ bufferedOffset (stream w) <= target) ->
  0 <= target < 2 ^ 63 ->
  Z.rem (len s) BytesPerSector = 0 ->
  cdio_read_audio_sectors (trace w) (Some h) lsn cnt = (0, data) ->
  Seek target SeekStart w =
  Done (target, None)
       (mkWorld
          (set_trueOffset target
             (set_buf (slice_from (blit data s) (Z.rem target BytesPerSector))
                (set_bufferedOffset (int64 (bufferedOffset (stream w) + len s))
                   (set_sbuf (Some (blit data s)) (stream w)))))
          (trace w ++ [EvReadAudioSectors (Some h) lsn cnt (len s)])).
Proof.
  intros s lsn cnt Hc Hout Hrange Hrem Hdev. unfold Seek.
  rewrite (bind_Done _ _ _ _ _ (IsOpen_run w)), Hc. run.
  change (SeekStart =? SeekCurrent) with false.
  change (SeekStart =? SeekEnd) with false. run.
  destruct (Z.eqb_spec target (trueOffset (stream w))); [lia|].
  assert (E : (target >? trueOffset (stream w)) && (target <? bufferedOffset (stream w))
              = false).
  { destruct (Z.gtb_spec target (trueOffset (stream w))); [|reflexivity].
    destruct (Z.ltb_spec target (bufferedOffset (stream w))); [lia|reflexivity]. }
  rewrite E.
  rewrite (bind_Done _ _ _ _ _ (buf_Truncate_0_run w)). run.
  match goal with
  | |- bind (bufferSectors 1) _ ?w1 = _ =>
      pose proof (bufferSectors_open 1 w1 h ltac:(lia) Hc) as Hbs
  end.
  cbv zeta in Hbs. cbn [stream trace sbuf buf bufferedOffset set_buf set_trueOffset] in Hbs.
  fold s in Hbs. specialize (Hbs Hrem).
  change (start_lsn (set_trueOffset (bufferedOffset (stream w)) (set_buf [] (stream w))))
    with lsn in Hbs.
  fold cnt in Hbs. rewrite Hdev in Hbs. cbn [fst snd] in Hbs.
  change (0 =? 0) with true in Hbs. cbv iota in Hbs. cbn [app] in Hbs.
  rewrite (bind_Done _ _ _ _ _ Hbs). run.
  pose proof (Z.rem_bound_pos target BytesPerSector ltac:(lia)
                ltac:(rewrite BytesPerSector_eq; lia)) as Hr.
  rewrite BytesPerSector_eq in Hr.
  assert (Hsec : int64 (target - int64 (target - Z.rem target BytesPerSector))
                 = Z.rem target BytesPerSector).
  { rewrite BytesPerSector_eq.
    rewrite (int64_small (target - Z.rem target 2352)) by lia.
    rewrite int64_small by lia. lia. }
  rewrite Hsec.
  pose proof (scratch_covers 1 (sbuf (stream w)) ltac:(lia)) as Hcov. fold s in Hcov.
  match goal with
  | |- bind (buf_Next _) _ ?w2 = _ =>
      pose proof (buf_Next_run (Z.rem target BytesPerSector) w2
                    ltac:(rewrite BytesPerSector_eq; lia)) as HN
  end.
  cbv zeta in HN. cbn [stream trace buf set_buf set_trueOffset] in HN.
  replace (Z.min (Z.rem target BytesPerSector) (len (blit data s)))
    with (Z.rem target BytesPerSector) in HN
    by (rewrite len_blit; rewrite BytesPerSector_eq in *; lia).
  rewrite (bind_Done _ _ _ _ _ HN). reflexivity.
Qed.

(** *** What a closed stream looks like *)

Lemma stable_ret {A : Type} (R : AudioCD -> AudioCD -> Prop) (a : A) :
  (forall cd, R cd cd) -> stable R (ret a).
Proof. intros Hr w. apply Hr. Qed.

Lemma stable_rd {A : Type} (R : AudioCD -> AudioCD -> Prop) (f : AudioCD -> A) :
  (forall cd, R cd cd) -> stable R (rd f).
Proof. intros Hr w. apply Hr. Qed.

Lemma stable_panic {A : Type} (R : AudioCD -> AudioCD -> Prop) :
  (forall cd, R cd cd) -> stable R (@panic A).
Proof. intros Hr w. apply Hr. Qed.

Lemma stable_ccall {A : Type} (R : AudioCD -> AudioCD -> Prop)
      (answer : list Event -> A) (e : Event) :
  (forall cd, R cd cd) -> stable R (ccall answer e).
Proof. intros Hr w. apply Hr. Qed.

Lemma stable_upd (R : AudioCD -> AudioCD -> Prop) (f : AudioCD -> AudioCD) :
  (forall cd, R cd (f cd)) -> stable R (upd f).
Proof. intros Hf w. apply Hf. Qed.

Lemma stable_bind {A B : Type} (R : AudioCD -> AudioCD -> Prop) (m : M A) (k : A -> M B) :
  (forall a b c, R a b -> R b c -> R a c) ->
  stable R m -> (forall a, stable R (k a)) -> stable R (bind m k).
Proof.
  intros Ht Hm Hk w. unfold bind. specialize (Hm w).
  destruct (m w) as [a w1|w1|]; [|exact Hm|exact I].
  specialize (Hk a w1).
  destruct (k a w1) as [b w2|w2|]; [| |exact I]; eapply Ht; eassumption.
Qed.

Lemma same_session_refl (cd : AudioCD) : same_session cd cd.
Proof. reflexivity. Qed.

Lemma same_session_trans (a b c : AudioCD) :
  same_session a b -> same_session b c -> same_session a c.
Proof. unfold same_session. congruence. Qed.

Lemma eq_trans_stream (a b c : AudioCD) : a = b -> b = c -> a = c.
Proof. congruence. Qed.

(** Steps of a proof that the session is kept. *)
Ltac session_step :=
  first
    [ apply stable_ret; exact same_session_refl
    | apply stable_rd; exact same_session_refl
    | apply stable_panic; exact same_session_refl
    | apply stable_ccall; exact same_session_refl
    | apply stable_upd; intros ?; reflexivity
    | apply stable_bind; [exact same_session_trans| |intros ?]
    | match goal with
      | |- stable _ (if ?c then _ else _) => destruct c
      | |- stable _ (match ?x with _ => _ end) => destruct x
      end ].

(** Steps of a proof that the stream is not touched. *)
Ltac frame_step :=
  first
    [ apply stable_ret; exact (@eq_refl AudioCD)
    | apply stable_rd; exact (@eq_refl AudioCD)
    | apply stable_panic; exact (@eq_refl AudioCD)
    | apply stable_ccall; exact (@eq_refl AudioCD)
    | apply stable_bind; [exact eq_trans_stream| |intros ?]
    | match goal with
      | |- stable _ (if ?c then _ else _) => destruct c
      | |- stable _ (match ?x with _ => _ end) => destruct x
      end ].

Lemma bufferSectors_same_session (n : Z) : stable same_session (bufferSectors n).
Proof.
  unfold bufferSectors, make, readSectors, readAudioSectors, IsOpen, buf_Write.
  repeat session_step.
Qed.

Lemma Read_fuel_same_session (fuel : nat) :
  forall p, stable same_session (Read_fuel fuel p).
Proof.
  induction fuel as [|fuel IH]; intros p; cbn [Read_fuel]; [intros w; exact I|].
  destruct (len p =? 0); [session_step|].
  unfold buf_Len, buf_Next.
  apply stable_bind; [exact same_session_trans|session_step|intros l].
  destruct (l >? 0).
  - apply stable_bind; [exact same_session_trans|repeat session_step|intros data].
    apply stable_bind; [exact same_session_trans|session_step|intros u].
    apply stable_bind; [exact same_session_trans|apply IH|intros [[tail nn] err]].
    session_step.
  - apply stable_bind;
      [exact same_session_trans|apply bufferSectors_same_session|intros [e|]];
      [session_step|apply IH].
Qed.

Lemma IsOpen_frame : stable eq IsOpen.
Proof. unfold IsOpen. repeat frame_step. Qed.

Lemma SetSpeed_frame (x : Z) : stable eq (SetSpeed x).
Proof. unfold SetSpeed, IsOpen, setSpeed. repeat frame_step. Qed.

Lemma Model_frame : stable eq Model.
Proof. unfold Model, IsOpen, model. repeat frame_step. Qed.

Lemma TrackCount_frame : stable eq TrackCount.
Proof. unfold TrackCount, IsOpen, trackCount. repeat frame_step. Qed.

Lemma toc_loop_frame (p : option CdIo) (t1 : Z) (idx : list nat) :
  forall filled, stable eq (toc_loop p t1 idx filled).
Proof.
  induction idx as [|i rest IH]; intros filled; cbn [toc_loop]; [frame_step|].
  apply stable_bind; [exact eq_trans_stream| |intros [t|e]];
    [unfold toc_entry; repeat frame_step | apply IH | frame_step].
Qed.

Lemma TOC_frame : stable eq TOC.
Proof.
  unfold TOC, toc.
  apply stable_bind; [exact eq_trans_stream|apply IsOpen_frame|intros open].
  destruct (negb open); [frame_step|].
  apply stable_bind; [exact eq_trans_stream|frame_step|intros c].
  apply stable_bind; [exact eq_trans_stream|apply TrackCount_frame|intros n].
  apply stable_bind; [exact eq_trans_stream|repeat frame_step|intros u].
  apply stable_bind; [exact eq_trans_stream|frame_step|intros t1].
  destruct (_ =? _); [frame_step|apply toc_loop_frame].
Qed.

Lemma LengthSectors_frame : stable eq LengthSectors.
Proof.
  unfold LengthSectors.
  apply stable_bind; [exact eq_trans_stream|apply IsOpen_frame|intros open].
  destruct (negb open); [frame_step|].
  apply stable_bind; [exact eq_trans_stream|apply TOC_frame|intros [entries err]].
  repeat frame_step.
Qed.

Lemma Seek_same_session (offset whence : Z) : stable same_session (Seek offset whence).
Proof.
  unfold Seek.
  apply stable_bind; [exact same_session_trans| |intros open].
  { unfold IsOpen. repeat session_step. }
  destruct (negb open); [repeat session_step|].
  apply stable_bind; [exact same_session_trans| |intros [newoffset|e]].
  - destruct (whence =? SeekCurrent); [repeat session_step|].
    destruct (whence =? SeekEnd); [|session_step].
    apply stable_bind; [exact same_session_trans| |intros [l err]; repeat session_step].
    intros w. pose proof (LengthSectors_frame w) as H.
    destruct (LengthSectors w); try exact I; unfold same_session; rewrite <- H; reflexivity.
  - unfold buf_Next, buf_Truncate, buf_Len.
    apply stable_bind; [exact same_session_trans|session_step|intros t].
    apply stable_bind; [exact same_session_trans|session_step|intros b].
    destruct (newoffset =? t); [session_step|].
    destruct (_ && _); [repeat session_step|].
    apply stable_bind; [exact same_session_trans|repeat session_step|intros u1].
    apply stable_bind; [exact same_session_trans|session_step|intros u2].
    apply stable_bind;
      [exact same_session_trans|apply bufferSectors_same_session|intros err].
    repeat session_step.
  - session_step.
Qed.

(** A stream that holds no session has nothing buffered: true of the zero
    value and kept by every call of the public surface. *)
Lemma closed_stream_has_empty_buffer (w : World) :
  reachable w -> cdio (stream w) = None -> buf (stream w) = [].
Proof.
  induction 1 as [dev|w w' c Hreach IH Hcall]; [reflexivity|].
  assert (Hframe : forall (A : Type) (m : M A),
             stable eq m -> world_after (m w) = Some w' ->
             cdio (stream w') = None -> buf (stream w') = []).
  { intros A m Hm Hw. specialize (Hm w).
    destruct (m w) as [a w1|w1|]; cbn in Hw; try discriminate;
      injection Hw as <-; rewrite <- Hm; exact IH. }
  assert (Hsess : forall (A : Type) (m : M A),
             stable same_session m -> cdio (stream w) <> None ->
             world_after (m w) = Some w' ->
             cdio (stream w') = None -> buf (stream w') = []).
  { intros A m Hm Hopen Hw Hc'. specialize (Hm w).
    destruct (m w) as [a w1|w1|]; cbn in Hw; try discriminate;
      injection Hw as <-; unfold same_session in Hm; congruence. }
  destruct c; cbn [perform] in Hcall.
  - (* Open *)
    unfold Open in Hcall.
    rewrite (bind_Done _ _ _ _ _ (IsOpen_run w)) in Hcall.
    destruct (cdio (stream w)) as [h|] eqn:Hc.
    + cbn in Hcall. injection Hcall as <-. congruence.
    + pose proof (openDrive_run w) as Hod. cbv zeta in Hod.
      destruct (cdio_open _ _) as [h|].
      * rewrite (bind_Done _ _ _ _ _ Hod) in Hcall.
        erewrite bind_Done in Hcall
          by (apply SetSpeed_open_run with (h := h); reflexivity).
        destruct (_ =? 0).
        -- rewrite (bind_Done _ _ _ _ _ (buf_Truncate_0_run _)) in Hcall.
           rewrite (bind_Done _ _ _ _ _
                      (buf_Grow_run BytesPerSector _
                         ltac:(rewrite BytesPerSector_eq; lia))) in Hcall.
           cbn in Hcall. injection Hcall as <-. discriminate.
        -- cbn in Hcall. injection Hcall as <-. discriminate.
      * rewrite (bind_Done _ _ _ _ _ Hod) in Hcall.
        cbn in Hcall. injection Hcall as <-. intros _. exact (IH eq_refl).
  - (* Close *)
    rewrite Close_run in Hcall. cbn in Hcall. injection Hcall as <-. reflexivity.
  - (* EjectMedia *)
    rewrite EjectMedia_run in Hcall.
    destruct (_ =? 0); cbn in Hcall; injection Hcall as <-; [reflexivity | exact IH].
  - (* Read *)
    destruct (cdio (stream w)) as [h|] eqn:Hc.
    + apply (Hsess _ (Read p)); [apply Read_fuel_same_session | congruence | exact Hcall].
    + destruct p as [|b p'].
      * cbn in Hcall. injection Hcall as <-. rewrite Hc. exact IH.
      * destruct (Read_closed w (b :: p') Hc ltac:(discriminate) (IH eq_refl))
          as (w1 & E & _ & _ & Hb).
        rewrite E in Hcall. cbn in Hcall. injection Hcall as <-. intros _. exact Hb.
  - (* Seek *)
    destruct (cdio (stream w)) as [h|] eqn:Hc.
    + apply (Hsess _ (Seek offset whence));
        [apply Seek_same_session | congruence | exact Hcall].
    + rewrite (Seek_closed w _ _ Hc) in Hcall.
      cbn in Hcall. injection Hcall as <-. rewrite Hc. exact IH.
  - (* SeekToSector *)
    destruct (cdio (stream w)) as [h|] eqn:Hc.
    + apply (Hsess _ (SeekToSector sector));
        [apply Seek_same_session | congruence | exact Hcall].
    + unfold SeekToSector in Hcall.
      rewrite (Seek_closed w _ _ Hc) in Hcall.
      cbn in Hcall. injection Hcall as <-. rewrite Hc. exact IH.
  - exact (Hframe _ _ (SetSpeed_frame x) Hcall).
  - exact (Hframe _ _ Model_frame Hcall).
  - exact (Hframe _ _ TrackCount_frame Hcall).
  - exact (Hframe _ _ TOC_frame Hcall).
  - exact (Hframe _ _ LengthSectors_frame Hcall).
Qed.

(** *** The scratch slice stays a whole number of sectors *)

Lemma keeps_ret {A : Type} (Inv : AudioCD -> Prop) (a : A) : keeps Inv (ret a).
Proof. intros w H. exact H. Qed.

Lemma keeps_rd {A : Type} (Inv : AudioCD -> Prop) (f : AudioCD -> A) : keeps Inv (rd f).
Proof. intros w H. exact H. Qed.

Lemma keeps_panic {A : Type} (Inv : AudioCD -> Prop) : keeps Inv (@panic A).
Proof. intros w H. exact H. Qed.

Lemma keeps_ccall {A : Type} (Inv : AudioCD -> Prop) (answer : list Event -> A) (e : Event) :
  keeps Inv (ccall answer e).
Proof. intros w H. exact H. Qed.

Lemma keeps_upd (Inv : AudioCD -> Prop) (f : AudioCD -> AudioCD) :
  (forall cd, Inv cd -> Inv (f cd)) -> keeps Inv (upd f).
Proof. intros Hf w H. apply Hf. exact H. Qed.

Lemma keeps_bind {A B : Type} (Inv : AudioCD -> Prop) (m : M A) (k : A -> M B) :
  keeps Inv m -> (forall a, keeps Inv (k a)) -> keeps Inv (bind m k).
Proof.
  intros Hm Hk w H. unfold bind. specialize (Hm w H).
  destruct (m w) as [a w1|w1|]; [|exact Hm|exact I].
  apply Hk. exact Hm.
Qed.

Lemma keeps_of_frame {A : Type} (Inv : AudioCD -> Prop) (m : M A) :
  stable eq m -> keeps Inv m.
Proof.
  intros Hm w H. specialize (Hm w).
  destruct (m w) as [a w1|w1|]; [| |exact I]; rewrite <- Hm; exact H.
Qed.

Ltac whole_step :=
  first
    [ apply keeps_ret | apply keeps_rd | apply keeps_panic | apply keeps_ccall
    | apply keeps_upd; intros ? ?; assumption
    | apply keeps_bind; [|intros ?]
    | match goal with
      | |- keeps _ (if ?c then _ else _) => destruct c
      | |- keeps _ (match ?x with _ => _ end) => destruct x
      end ].

Lemma scratch_whole (n : Z) (cd : AudioCD) :
  1 <= n -> sbuf_whole cd ->
  exists k, 1 <= k /\ len (scratch n (sbuf cd)) = k * BytesPerSector.
Proof.
  intros Hn Hcd. unfold sbuf_whole in Hcd. unfold scratch.
  assert (Hm : len (make_bytes (n * BytesPerSector)) = n * BytesPerSector)
    by (apply len_make_bytes; apply nonneg_sectors; lia).
  destruct (sbuf cd) as [b|]; [|exists n; auto].
  destruct (len b <? n * BytesPerSector); [exists n; auto | exact Hcd].
Qed.

Lemma bufferSectors_keeps_sbuf_whole (n : Z) :
  1 <= n -> keeps sbuf_whole (bufferSectors n).
Proof.
  intros Hn w Hw.
  destruct (scratch_whole n (stream w) Hn Hw) as (k & Hk & Hlen).
  rewrite (bufferSectors_run n w ltac:(lia)). cbv zeta.
  rewrite readSectors_run. cbn [stream trace cdio set_sbuf].
  set (s := scratch n (sbuf (stream w))) in *.
  destruct (cdio (stream w)) as [h|].
  - destruct (len s =? 0); [destruct (_ || _); exists k; auto|].
    destruct (negb _); [destruct (_ || _); exists k; auto|].
    cbv zeta. destruct (cdio_read_audio_sectors _ _ _ _) as [rc data].
    destruct (_ || _); exists k; cbn [sbuf]; rewrite len_blit; auto.
  - destruct (_ || _); exists k; auto.
Qed.

Lemma buf_Next_keeps_sbuf_whole (n : Z) : keeps sbuf_whole (buf_Next n).
Proof. unfold buf_Next, buf_Len. repeat whole_step. Qed.

Lemma buf_Truncate_keeps_sbuf_whole (n : Z) : keeps sbuf_whole (buf_Truncate n).
Proof. unfold buf_Truncate, buf_Len. repeat whole_step. Qed.

Lemma Read_fuel_keeps_sbuf_whole (fuel : nat) :
  forall p, keeps sbuf_whole (Read_fuel fuel p).
Proof.
  induction fuel as [|fuel IH]; intros p; cbn [Read_fuel]; [intros w _; exact I|].
  destruct (len p =? 0); [whole_step|].
  unfold buf_Len.
  apply keeps_bind; [whole_step|intros l].
  destruct (l >? 0).
  - apply keeps_bind; [apply buf_Next_keeps_sbuf_whole|intros data].
    apply keeps_bind; [whole_step|intros u].
    apply keeps_bind; [apply IH|intros [[tail nn] err]]. whole_step.
  - apply keeps_bind;
      [apply bufferSectors_keeps_sbuf_whole; apply refill_count_pos|intros [e|]];
      [whole_step|apply IH].
Qed.

Lemma Seek_keeps_sbuf_whole (offset whence : Z) : keeps sbuf_whole (Seek offset whence).
Proof.
  unfold Seek.
  apply keeps_bind; [apply keeps_of_frame, IsOpen_frame|intros open].
  destruct (negb open); [repeat whole_step|].
  apply keeps_bind; [|intros [newoffset|e]].
  - destruct (whence =? SeekCurrent); [repeat whole_step|].
    destruct (whence =? SeekEnd); [|whole_step].
    apply keeps_bind; [apply keeps_of_frame, LengthSectors_frame|intros [l err]].
    repeat whole_step.
  - apply keeps_bind; [whole_step|intros t].
    apply keeps_bind; [whole_step|intros b].
    destruct (newoffset =? t); [whole_step|].
    destruct (_ && _).
    + apply keeps_bind; [apply buf_Next_keeps_sbuf_whole|intros data].
      repeat whole_step.
    + apply keeps_bind; [apply buf_Truncate_keeps_sbuf_whole|intros u1].
      apply keeps_bind; [whole_step|intros u2].
      apply keeps_bind; [apply bufferSectors_keeps_sbuf_whole; lia|intros err].
      apply keeps_bind; [whole_step|intros u3].
      destruct err; [repeat whole_step|].
      apply keeps_bind; [apply buf_Next_keeps_sbuf_whole|intros data].
      repeat whole_step.
  - whole_step.
Qed.

Lemma Close_keeps_sbuf_whole : keeps sbuf_whole Close.
Proof. intros w H. rewrite Close_run. exact H. Qed.

Lemma EjectMedia_keeps_sbuf_whole : keeps sbuf_whole EjectMedia.
Proof. intros w H. rewrite EjectMedia_run. destruct (_ =? 0); exact H. Qed.

Lemma Open_keeps_sbuf_whole : keeps sbuf_whole Open.
Proof.
  unfold Open, openDrive.
  apply keeps_bind; [apply keeps_of_frame, IsOpen_frame|intros open].
  destruct open; [whole_step|].
  apply keeps_bind; [repeat whole_step|intros [e|]]; [whole_step|].
  apply keeps_bind; [apply keeps_of_frame, SetSpeed_frame|intros [e|]]; [whole_step|].
  apply keeps_bind; [apply buf_Truncate_keeps_sbuf_whole|intros u1].
  unfold buf_Grow. repeat whole_step.
Qed.

(** In every world a program can reach, the scratch slice is nil or a
    whole number of sectors: what [bufferSectors] passes to [readSectors]
    is always sized in whole sectors. *)
Lemma reachable_sbuf_whole (w : World) : reachable w -> sbuf_whole (stream w).
Proof.
  induction 1 as [dev|w w' c Hreach IH Hcall]; [exact I|].
  assert (Hk : forall (A : Type) (m : M A),
             keeps sbuf_whole m -> world_after (m w) = Some w' ->
             sbuf_whole (stream w')).
  { intros A m Hm Hw. specialize (Hm w IH).
    destruct (m w) as [a w1|w1|]; cbn in Hw; try discriminate;
      injection Hw as <-; exact Hm. }
  destruct c; cbn [perform] in Hcall.
  - exact (Hk _ _ Open_keeps_sbuf_whole Hcall).
  - exact (Hk _ _ Close_keeps_sbuf_whole Hcall).
  - exact (Hk _ _ EjectMedia_keeps_sbuf_whole Hcall).
  - exact (Hk _ _ (Read_fuel_keeps_sbuf_whole _ p) Hcall).
  - exact (Hk _ _ (Seek_keeps_sbuf_whole offset whence) Hcall).
  - exact (Hk _ (SeekToSector sector) (Seek_keeps_sbuf_whole _ _) Hcall).
  - exact (Hk _ _ (keeps_of_frame _ _ (SetSpeed_frame x)) Hcall).
  - exact (Hk _ _ (keeps_of_frame _ _ Model_frame) Hcall).
  - exact (Hk _ _ (keeps_of_frame _ _ TrackCount_frame) Hcall).
  - exact (Hk _ _ (keeps_of_frame _ _ TOC_frame) Hcall).
  - exact (Hk _ _ (keeps_of_frame _ _ LengthSectors_frame) Hcall).
Qed.

(** C8.  Every read that [Read], [Seek], [bufferSectors] or [readSectors]
    hands to libcdio, from any state of the stream, passes a buffer of
    [k * BytesPerSector] bytes with [k >= 1], and asks for [k] sectors.
    In every world a program can reach, the slice [bufferSectors] passes to
    [readSectors] is such a buffer.  [readSectors] on a slice whose length
    is not a multiple of [BytesPerSector] returns an error and calls
    nothing. *)
Theorem device_reads_are_whole_sectors :
  (forall p w, emits whole_sectors (Read p w) w /\ Read p w <> OutOfFuel) /\
  (forall offset whence w, emits whole_sectors (Seek offset whence w) w) /\
  (forall n w, emits whole_sectors (bufferSectors n w) w) /\
  (forall p w, emits whole_sectors (readSectors p w) w) /\
  (forall n w, reachable w -> 1 <= n ->
               exists k, 1 <= k /\
                         len (scratch n (sbuf (stream w))) = k * BytesPerSector) /\
  (forall p w, Z.rem (len p) BytesPerSector <> 0 ->
               exists e, readSectors p w = Done (p, 0, Some e) w).
Proof.
  split; [intros p w; split; [apply quiet_Read | apply Read_total]|].
  split; [intros; apply quiet_Seek|].
  split; [intros; apply quiet_bufferSectors|].
  split; [intros; apply quiet_readSectors|].
  split; [intros n w Hr Hn; apply scratch_whole;
          [exact Hn | apply reachable_sbuf_whole; exact Hr]|].
  intros p w Hrem. rewrite readSectors_run.
  destruct (cdio (stream w)); [|eauto].
  destruct (Z.eqb_spec (len p) 0) as [E|_].
  - exfalso. apply Hrem. rewrite E. reflexivity.
  - destruct (Z.eqb_spec (Z.rem (len p) BytesPerSector) 0); [contradiction|].
    cbn [negb]. eauto.
Qed.

End Proofs.

Lemma sectors_covering_least (n : Z) :
  0 <= n ->
  n <= sectors_covering n * BytesPerSector /\
  forall k, n <= k * BytesPerSector -> sectors_covering n <= k.
Proof.
  intros Hn. unfold sectors_covering. rewrite BytesPerSector_eq.
  pose proof (Z.mod_pos_bound (n + 2352 - 1) 2352 ltac:(lia)).
  pose proof (Z.div_mod (n + 2352 - 1) 2352 ltac:(lia)).
  split; [lia|].
  intros k Hk.
  assert ((n + 2352 - 1) / 2352 < k + 1) by (apply Z.div_lt_upper_bound; lia).
  lia.
Qed.

(** ** The runs *)

Lemma open_world_reached : after (@Open drive) (Some fresh) = Some open_world.
Proof. vm_compute. reflexivity. Qed.

Lemma streaming_world_reached :
  after (@Read drive [x00]) (Some open_world) = Some streaming_world.
Proof. vm_compute. reflexivity. Qed.

Lemma streaming_world_reached_stuck_tray :
  after (@Read stuck_tray [x00]) (after (@Open stuck_tray) (Some fresh))
  = Some streaming_world.
Proof. vm_compute. reflexivity. Qed.

Lemma drained_world_reached :
  after (@Read drive (make_bytes 2352))
    (after (@Read drive (make_bytes 9408)) (Some open_world)) = Some drained_world.
Proof. vm_compute. reflexivity. Qed.

Lemma open_world_accounted : accounted (stream open_world).
Proof. split; vm_compute; [discriminate | reflexivity]. Qed.

(** C1 fails on the code.  After [Open()], [Seek(3*2352, io.SeekStart)]
    takes the slow path and returns offset 7056 without error, but the one
    device read it makes starts at sector 0, where the stream stood, not at
    sector 3: the buffer then holds sector 0 of the disc. *)
Theorem Seek_slow_path_reads_sector_of_old_position :
  @Seek drive (3 * 2352) SeekStart open_world = Done (7056, None) sought_world /\
  device_reads (trace sought_world) = [(0, 1, 2352)] /\
  buf (stream sought_world) = disc_sector 0 /\
  disc_sector 0 <> disc_sector 3 /\
  trueOffset (stream sought_world) = 7056.
Proof.
  split; [vm_compute; reflexivity|].
  split; [reflexivity|].
  split; [reflexivity|].
  split; [|reflexivity].
  intros H. vm_compute in H. discriminate H.
Qed.

(** C2 fails on the code.  The accounting holds after [Open()]; after
    [Seek(3*2352, io.SeekStart)] the cursor is at 7056 while the buffered
    region ends at 2352, and 2352 bytes are in the buffer. *)
Theorem Seek_slow_path_breaks_accounting :
  accounted (stream open_world) /\
  @Seek drive 7056 SeekStart open_world = Done (7056, None) sought_world /\
  bufferedOffset (stream sought_world) < trueOffset (stream sought_world) /\
  bufferedOffset (stream sought_world) - trueOffset (stream sought_world) = -4704 /\
  len (buf (stream sought_world)) = 2352 /\
  ~ accounted (stream sought_world).
Proof.
  split; [apply open_world_accounted|].
  split; [vm_compute; reflexivity|].
  split; [vm_compute; reflexivity|].
  split; [reflexivity|].
  split; [vm_compute; reflexivity|].
  intros [H _]. vm_compute in H. apply H. reflexivity.
Qed.

(** C3 fails as stated.  A request of exactly one sector on an empty
    buffer makes the drive read two sectors, one more than the least
    number that covers it, and a whole sector stays buffered; a request of
    no bytes reads nothing, where [len(p)/BytesPerSector + 1] is 1. *)
Lemma Read_refill_is_not_the_least_cover :
  (exists w',
     @Read drive (make_bytes 2352) open_world = Done (disc_sector 0, 2352, None) w' /\
     device_reads (trace w') = [(0, 2, 4704)] /\
     sectors_covering 2352 = 1 /\
     buf (stream w') = disc_sector 1) /\
  @Read drive [] open_world = Done ([], 0, None) open_world /\
  Z.quot (len (@nil byte)) BytesPerSector + 1 = 1.
Proof.
  split.
  - eexists. split; [vm_compute; reflexivity|].
    split; [vm_compute; reflexivity|].
    split; vm_compute; reflexivity.
  - split; vm_compute; reflexivity.
Qed.

Lemma Read_on_empty_buffer_refills_once_witness :
  exists s w',
    @Read drive (make_bytes 8232) open_world = Done (slice_to s 8232, 8232, None) w' /\
    trace w' = open_trace ++ [EvReadAudioSectors session 0 4 9408] /\
    len (buf (stream w')) = 1176.
Proof.
  destruct (@Read_on_empty_buffer_refills_once drive open_world 1%positive
              (make_bytes 8232) (disc_sectors 0 4))
    as (s & w' & HR & Htr & _ & _ & _ & Hlen & _).
  - reflexivity.
  - reflexivity.
  - vm_compute. reflexivity.
  - intros b Hb. discriminate Hb.
  - vm_compute. reflexivity.
  - exists s, w'. split; [exact HR|]. split; [exact Htr | exact Hlen].
Defined.

(** C4 fails on the code.  Once a larger read has grown the scratch slice
    to five sectors, [bufferSectors(1)] asks the drive for all five:
    11760 bytes, not 2352.  A [Read] of one byte shows it from outside. *)
Theorem bufferSectors_reads_the_whole_scratch_slice :
  sbuf (stream drained_world) = Some (disc_sectors 0 5) /\
  @bufferSectors drive 1 drained_world = Done None refilled_world /\
  device_reads (trace refilled_world) = [(0, 5, 11760); (5, 5, 11760)] /\
  1 * BytesPerSector = 2352 /\
  len (buf (stream refilled_world)) = 11760 /\
  exists w',
    @Read drive [x00] drained_world = Done ([sector_byte 5], 1, None) w' /\
    device_reads (trace w') = [(0, 5, 11760); (5, 5, 11760)].
Proof.
  split; [reflexivity|].
  split; [vm_compute; reflexivity|].
  split; [reflexivity|].
  split; [vm_compute; reflexivity|].
  split; [vm_compute; reflexivity|].
  eexists. split; vm_compute; reflexivity.
Qed.

(** C5 fails as stated.  When the drive refuses to eject, [EjectMedia]
    returns the error and does not close: the session is still held and
    the buffered bytes are still there. *)
Lemma EjectMedia_failure_leaves_stream_open :
  exists w',
    @EjectMedia stuck_tray streaming_world = Done (Some (AudioCDError (-2))) w' /\
    IsOpen w' = Done true w' /\
    len (buf (stream w')) = 2351 /\
    trace w' = trace streaming_world ++ [EvEjectMedia session].
Proof.
  eexists. split; [vm_compute; reflexivity|].
  split; [reflexivity|]. split; vm_compute; reflexivity.
Qed.

(** C6 fails as stated.  [Close] after one byte was read leaves
    [trueOffset] at 1 and [bufferedOffset] at 2352. *)
Lemma Close_keeps_offsets :
  exists w',
    Close streaming_world = Done None w' /\
    trueOffset (stream w') = 1 /\
    bufferedOffset (stream w') = 2352.
Proof.
  eexists. split; [vm_compute; reflexivity|]. split; reflexivity.
Qed.

Lemma Close_releases_and_discards_keeping_offsets_witness :
  Close fresh = Done None fresh /\
  exists w', Close streaming_world = Done None w' /\
             trace w' = trace streaming_world ++ [EvDestroy session] /\
             buf (stream w') = [].
Proof.
  destruct (Close_releases_and_discards_keeping_offsets fresh)
    as (_ & _ & _ & _ & _ & _ & Hnoop).
  destruct (Close_releases_and_discards_keeping_offsets streaming_world)
    as (Hclose & _ & Hbuf & _).
  split; [apply Hnoop; reflexivity|].
  eexists. split; [exact Hclose|]. split; [reflexivity | exact Hbuf].
Defined.

(** C7 fails as stated.  [Read] of an empty [p] on a stream that was
    never opened returns 0 and no error. *)
Lemma Read_nothing_on_closed_stream_succeeds :
  cdio (stream fresh) = None /\
  @Read drive [] fresh = Done ([], 0, None) fresh.
Proof. split; reflexivity. Qed.

Lemma closed_stream_fails_without_device_call_witness :
  @Seek drive 2352 SeekStart fresh = Done (0, Some ErrClosed) fresh /\
  @LengthSectors drive fresh = Done (-1, Some ErrClosed) fresh /\
  exists w', @Read drive [x00] fresh = Done ([x00], 0, Some ErrClosed) w' /\
             trace w' = [].
Proof.
  destruct (@closed_stream_fails_without_device_call drive fresh eq_refl)
    as (HS & _ & HL & _ & _ & _ & _ & HR).
  split; [apply HS|]. split; [exact HL|].
  destruct (HR [x00]) as (w' & H1 & H2 & _).
  - discriminate.
  - reflexivity.
  - exists w'. split; [exact H1 | exact H2].
Defined.

Lemma device_reads_are_whole_sectors_witness :
  Z.rem (len [x00; x00; x00]) BytesPerSector <> 0 /\
  exists e, @readSectors drive [x00; x00; x00] open_world
            = Done ([x00; x00; x00], 0, Some e) open_world.
Proof.
  assert (H : Z.rem (len [x00; x00; x00]) BytesPerSector <> 0)
    by (vm_compute; discriminate).
  split; [exact H|].
  exact (proj2 (proj2 (proj2 (proj2 (proj2 (@device_reads_are_whole_sectors drive)))))
           [x00; x00; x00] open_world H).
Defined.

Lemma Seek_to_cursor_is_noop_witness :
  cdio (stream streaming_world) = Some 1%positive /\
  @Seek drive 1 SeekStart streaming_world = Done (1, None) streaming_world.
Proof.
  split; [reflexivity|].
  exact (@Seek_to_cursor_is_noop drive streaming_world 1%positive eq_refl).
Defined.

(** Through [io.SeekEnd] the target is known only once the table of
    contents was fetched: a seek from the end that resolves to the cursor
    leaves the stream as it was, after fourteen libcdio calls. *)
Lemma Seek_from_end_to_cursor_fetches_toc :
  exists w w',
    after (@Seek drive 588000 SeekStart) (Some open_world) = Some w /\
    @Seek drive 0 SeekEnd w = Done (588000, None) w' /\
    stream w' = stream w /\
    List.length (trace w') = (List.length (trace w) + 14)%nat /\
    device_reads (trace w') = device_reads (trace w).
Proof.
  eexists. eexists. split; [vm_compute; reflexivity|].
  split; [vm_compute; reflexivity|].
  split; [reflexivity|]. split; vm_compute; reflexivity.
Qed.

Lemma Open_keeps_session_when_speed_fails_witness :
  @Open fixed_speed fresh =
    Done (Some (AudioCDError (-2))) (mkWorld (mkAudioCD device [] None 0 0 session) open_trace) /\
  IsOpen (mkWorld (mkAudioCD device [] None 0 0 session) open_trace)
    = Done true (mkWorld (mkAudioCD device [] None 0 0 session) open_trace).
Proof.
  destruct (@Open_keeps_session_when_speed_fails fixed_speed fresh 1%positive)
    as (H1 & H2 & _).
  - reflexivity.
  - reflexivity.
  - vm_compute. discriminate.
  - split; [exact H1 | exact H2].
Defined.

(** * More of the code

    Properties of the rest of [audiocd.go] and [bindings.go], and of the
    WAV header of [example_rip_test.go]. *)

Lemma int64_range (z : Z) : - 2 ^ 63 <= int64 z < 2 ^ 63.
Proof.
  unfold int64, wrap_signed.
  change (2 ^ (64 - 1)) with (2 ^ 63). change (2 ^ 64) with (2 * 2 ^ 63).
  pose proof (Z.mod_pos_bound (z + 2 ^ 63) (2 * 2 ^ 63) ltac:(lia)). lia.
Qed.

Lemma int64_add_idemp (a b : Z) : int64 (int64 a + b) = int64 (a + b).
Proof.
  unfold int64, wrap_signed.
  replace ((a + 2 ^ (64 - 1)) mod 2 ^ 64 - 2 ^ (64 - 1) + b + 2 ^ (64 - 1))
    with ((a + 2 ^ (64 - 1)) mod 2 ^ 64 + b) by lia.
  rewrite Zplus_mod_idemp_l.
  replace (a + 2 ^ (64 - 1) + b) with (a + b + 2 ^ (64 - 1)) by lia.
  reflexivity.
Qed.

Section Lifecycle.
Context {hw : Drive}.

(** ** Open and SetSpeed *)

Lemma Open_closed_run (w : World) :
  cdio (stream w) = None ->
  let dev := if String.eqb (Device (stream w)) "" then None else Some (Device (stream w)) in
  Open w =
  match cdio_open (trace w) dev with
  | None => Done (Some ErrNoDrive) (mkWorld (stream w) (trace w ++ [EvOpen dev]))
  | Some h =>
      let rc := cdio_set_speed (trace w ++ [EvOpen dev]) (Some h) 65535 in
      if rc =? 0
      then Done None
             (mkWorld (mkAudioCD (Device (stream w)) [] (sbuf (stream w)) 0 0 (Some h))
                      (trace w ++ [EvOpen dev; EvSetSpeed (Some h) 65535]))
      else Done (Some (AudioCDError rc))
             (mkWorld (set_cdio (Some h) (stream w))
                      (trace w ++ [EvOpen dev; EvSetSpeed (Some h) 65535]))
  end.
Proof.
  intros Hc dev. unfold Open.
  rewrite (bind_Done _ _ _ _ _ (IsOpen_run w)), Hc.
  pose proof (openDrive_run w) as Hod. cbv zeta in Hod. fold dev in Hod.
  destruct (cdio_open (trace w) dev) as [h|].
  - rewrite (bind_Done _ _ _ _ _ Hod).
    erewrite bind_Done by (apply SetSpeed_open_run with (h := h); reflexivity).
    cbn [stream trace]. change (c_int (if -1 =? -1 then 65535 else -1)) with 65535.
    cbv zeta. rewrite <- app_assoc. cbn [app].
    destruct (_ =? 0); [|reflexivity].
    rewrite (bind_Done _ _ _ _ _ (buf_Truncate_0_run _)).
    rewrite (bind_Done _ _ _ _ _
               (buf_Grow_run BytesPerSector _ ltac:(rewrite BytesPerSector_eq; lia))).
    reflexivity.
  - rewrite (bind_Done _ _ _ _ _ Hod). reflexivity.
Qed.

(** X1.  On a closed stream, when [cdio_open] yields a session and the
    speed call answers 0, [Open] returns no error after exactly these two
    libcdio calls (the speed asked for is 0xffff); the stream then holds
    the session, its buffer is empty and both offsets are 0, whatever they
    were before.  The device name and the scratch slice are kept. *)
Theorem Open_resets_buffer_and_offsets (w : World) (h : CdIo) :
  let dev := if String.eqb (Device (stream w)) "" then None else Some (Device (stream w)) in
  cdio (stream w) = None ->
  cdio_open (trace w) dev = Some h ->
  cdio_set_speed (trace w ++ [EvOpen dev]) (Some h) 65535 = 0 ->
  Open w =
  Done None
    (mkWorld (mkAudioCD (Device (stream w)) [] (sbuf (stream w)) 0 0 (Some h))
             (trace w ++ [EvOpen dev; EvSetSpeed (Some h) 65535])).
Proof.
  intros dev Hc Hopen Hspeed.
  pose proof (Open_closed_run w Hc) as H. cbv zeta in H. fold dev in H.
  rewrite Hopen, Hspeed in H. exact H.
Qed.

(** X2.  When [Open] returned no error, the stream is open, and a second
    [Open] returns no error, changes nothing and calls nothing: the speed
    is not set again and the buffer is not reset. *)
Theorem Open_after_Open_is_noop (w w' : World) :
  Open w = Done None w' ->
  IsOpen w' = Done true w' /\ Open w' = Done None w'.
Proof.
  intros H.
  assert (Hopen : exists h, cdio (stream w') = Some h).
  { destruct (cdio (stream w)) as [h|] eqn:Hc.
    - unfold Open in H. rewrite (bind_Done _ _ _ _ _ (IsOpen_run w)), Hc in H.
      injection H as <-. eauto.
    - pose proof (Open_closed_run w Hc) as Hr. cbv zeta in Hr. rewrite Hr in H.
      destruct (cdio_open _ _) as [h|]; [|discriminate].
      destruct (_ =? 0); [|discriminate].
      injection H as <-. exists h. reflexivity. }
  destruct Hopen as [h Hh].
  split; [rewrite IsOpen_run, Hh; reflexivity|].
  unfold Open. rewrite (bind_Done _ _ _ _ _ (IsOpen_run w')), Hh. reflexivity.
Qed.

(** X3.  On a closed stream, when [cdio_open] yields no session, [Open]
    returns [ErrNoDrive] after that one call: the speed is not set and the
    stream is as it was, still closed. *)
Theorem Open_without_drive (w : World) :
  let dev := if String.eqb (Device (stream w)) "" then None else Some (Device (stream w)) in
  cdio (stream w) = None ->
  cdio_open (trace w) dev = None ->
  Open w = Done (Some ErrNoDrive) (mkWorld (stream w) (trace w ++ [EvOpen dev])) /\
  IsOpen (mkWorld (stream w) (trace w ++ [EvOpen dev]))
  = Done false (mkWorld (stream w) (trace w ++ [EvOpen dev])).
Proof.
  intros dev Hc Hopen.
  pose proof (Open_closed_run w Hc) as H. cbv zeta in H. fold dev in H.
  rewrite Hopen in H. split; [exact H|].
  rewrite IsOpen_run. cbn [stream]. rewrite Hc. reflexivity.
Qed.


(** ** What the calls never do *)

(** X5.  [SetSpeed], [Model], [TrackCount], [TOC] and [LengthSectors] never
    change the stream (device name, buffer, scratch slice, offsets,
    session), whatever the drive answers and also when they panic. *)
Theorem accessors_leave_stream_untouched :
  (forall x, stable eq (SetSpeed x)) /\
  stable eq Model /\
  stable eq TrackCount /\
  stable eq TOC /\
  stable eq LengthSectors.
Proof.
  split; [exact SetSpeed_frame|].
  split; [exact Model_frame|].
  split; [exact TrackCount_frame|].
  split; [exact TOC_frame | exact LengthSectors_frame].
Qed.

(** X6.  [Read], [Seek] and [SeekToSector] never drop or replace the
    session: the stream is open afterwards exactly when it was before,
    also after a device error or a panic. *)
Theorem Read_and_Seek_keep_session :
  (forall p, stable same_session (Read p)) /\
  (forall offset whence, stable same_session (Seek offset whence)) /\
  (forall sector, stable same_session (SeekToSector sector)).
Proof.
  split; [intros p; apply Read_fuel_same_session|].
  split; [exact Seek_same_session|].
  intros sector. apply Seek_same_session.
Qed.

(** X7.  In every world a program can bring a zero-valued stream to
    through the public calls, a stream that holds no session has nothing
    buffered, and the scratch slice is nil or a whole number of sectors,
    at least one. *)
Theorem reachable_stream_invariants (w : World) :
  reachable w ->
  (cdio (stream w) = None -> buf (stream w) = []) /\
  sbuf_whole (stream w).
Proof.
  intros H. split.
  - apply closed_stream_has_empty_buffer. exact H.
  - apply reachable_sbuf_whole. exact H.
Qed.

End Lifecycle.

Lemma len_app {A : Type} (l1 l2 : list A) : len (l1 ++ l2) = len l1 + len l2.
Proof. unfold len; rewrite length_app; lia. Qed.

Section Reading.
Context {hw : Drive}.

(** ** Read, whatever the drive does *)

(** [bufferSectors] asked for at least one sector always returns: the
    cursor and the session are as before, and the buffer grew by at least
    that many sectors unless an error is returned, in which case it did
    not change. *)
Lemma bufferSectors_returns (n : Z) (w : World) :
  1 <= n ->
  exists err w',
    bufferSectors n w = Done err w' /\
    trueOffset (stream w') = trueOffset (stream w) /\
    match err with
    | None => exists more, buf (stream w') = buf (stream w) ++ more /\
                           n * BytesPerSector <= len more
    | Some _ => buf (stream w') = buf (stream w)
    end.
Proof.
  intros Hn.
  assert (Hn0 : 0 <= n) by lia.
  pose proof (scratch_covers n (sbuf (stream w)) Hn0) as Hcov.
  rewrite (bufferSectors_run n w Hn0). cbv zeta.
  rewrite readSectors_run. cbn [stream trace cdio set_sbuf].
  set (s := scratch n (sbuf (stream w))) in *.
  assert (Hs : 0 < len s) by (rewrite BytesPerSector_eq in Hcov; lia).
  assert (Hz : forall l : list byte, (0 <? 0) || (0 >? len l) = false).
  { intros l. pose proof (len_nonneg l). change (0 <? 0) with false.
    destruct (Z.gtb_spec 0 (len l)); [lia | reflexivity]. }
  assert (Hnil : forall l : list byte, slice_to l 0 = []) by reflexivity.
  destruct (cdio (stream w)) as [h|].
  - destruct (Z.eqb_spec (len s) 0); [lia|].
    destruct (negb _).
    + rewrite Hz. eexists. eexists. split; [reflexivity|].
      cbn [stream buf trueOffset set_buf set_bufferedOffset set_sbuf].
      rewrite Hnil, app_nil_r. split; reflexivity.
    + cbv zeta. destruct (cdio_read_audio_sectors _ _ _ _) as [rc data].
      destruct (rc =? 0).
      * rewrite len_blit.
        destruct (Z.ltb_spec (len s) 0); [lia|].
        destruct (Z.gtb_spec (len s) (len s)); [lia|]. cbn [orb].
        eexists. eexists. split; [reflexivity|].
        cbn [stream buf trueOffset set_buf set_bufferedOffset set_sbuf].
        split; [reflexivity|].
        exists (blit data s).
        rewrite <- (len_blit data s) at 1. rewrite slice_to_all, len_blit.
        split; [reflexivity | exact Hcov].
      * rewrite Hz. eexists. eexists. split; [reflexivity|].
        cbn [stream buf trueOffset set_buf set_bufferedOffset set_sbuf].
        rewrite Hnil, app_nil_r. split; reflexivity.
  - rewrite Hz. eexists. eexists. split; [reflexivity|].
    cbn [stream buf trueOffset set_buf set_bufferedOffset set_sbuf].
    rewrite Hnil, app_nil_r. split; reflexivity.
Qed.

(** The cursor after [n] bytes were delivered. *)
Lemma cursor_after_zero (t : Z) : (if 0 =? 0 then t else int64 (t + 0)) = t.
Proof. reflexivity. Qed.

(** [Read] on an empty buffer: one refill, then the copy. *)
Lemma Read_refill_contract (fuel : nat) (p : list byte) (w : World) :
  0 < len p ->
  buf (stream w) = [] ->
  exists p' n err w',
    Read_fuel (S (S (S fuel))) p w = Done (p', n, err) w' /\
    0 <= n <= len p /\
    len p' = len p /\
    (err = None -> n = len p) /\
    trueOffset (stream w') =
      (if n =? 0 then trueOffset (stream w) else int64 (trueOffset (stream w) + n)).
Proof.
  intros Hp Hb.
  rewrite Read_fuel_refill by assumption.
  destruct (bufferSectors_returns _ w (refill_count_pos p)) as (err & w1 & Hbs & Ht & Hbuf).
  rewrite (bind_Done _ _ _ _ _ Hbs).
  destruct err as [e|].
  - exists p, 0, (Some e), w1. split; [reflexivity|].
    split; [lia|]. split; [reflexivity|]. split; [discriminate|].
    rewrite Ht. reflexivity.
  - destruct Hbuf as (more & Hmore & Hlen). rewrite Hb in Hmore. cbn [app] in Hmore.
    pose proof (refill_count_least (len p) (len_nonneg p)) as [Hlt _].
    rewrite Read_fuel_covered by (rewrite Hmore; lia).
    eexists. eexists. eexists. eexists. split; [reflexivity|].
    split; [lia|].
    split; [apply len_slice_to; rewrite Hmore; lia|].
    split; [reflexivity|].
    cbn [stream trueOffset set_trueOffset]. rewrite Ht.
    destruct (Z.eqb_spec (len p) 0); [lia | reflexivity].
Qed.

Lemma Read_contract_aux (p : list byte) (w : World) :
  exists p' n err w',
    Read p w = Done (p', n, err) w' /\
    0 <= n <= len p /\
    len p' = len p /\
    (err = None -> n = len p) /\
    trueOffset (stream w') =
      (if n =? 0 then trueOffset (stream w) else int64 (trueOffset (stream w) + n)).
Proof.
  unfold Read, Read_depth.
  pose proof (len_nonneg p) as Hp.
  pose proof (len_nonneg (buf (stream w))) as Hb.
  destruct (Z.eqb_spec (len p) 0) as [E|N].
  - apply len_nil_iff in E. subst p.
    exists [], 0, None, w. repeat split; try reflexivity; cbn; lia.
  - destruct (Z.eqb_spec (len (buf (stream w))) 0) as [Eb|Nb].
    + apply len_nil_iff in Eb. apply Read_refill_contract; [lia | exact Eb].
    + destruct (Z_le_gt_dec (len p) (len (buf (stream w)))) as [Hle|Hgt].
      * rewrite Read_fuel_covered by lia.
        eexists. eexists. eexists. eexists. split; [reflexivity|].
        split; [lia|]. split; [apply len_slice_to; lia|]. split; [reflexivity|].
        cbn [stream trueOffset set_trueOffset].
        destruct (Z.eqb_spec (len p) 0); [lia | reflexivity].
      * rewrite Read_fuel_serve by lia. cbv zeta.
        replace (Z.min (len p) (len (buf (stream w)))) with (len (buf (stream w))) by lia.
        rewrite slice_from_all, slice_to_all.
        set (n1 := len (buf (stream w))) in *.
        match goal with
        | |- context [bind (Read_fuel 3 ?q) _ ?w0] =>
            destruct (Read_refill_contract 0 q w0) as (q' & nn & err & w' & HR & Hnn & Hq' & He & Ht)
        end.
        { rewrite len_slice_from; lia. }
        { reflexivity. }
        rewrite (bind_Done _ _ _ _ _ HR). cbv beta iota.
        rewrite len_slice_from in Hnn, Hq', He by lia.
        cbn [stream trueOffset set_trueOffset set_buf] in Ht.
        eexists. eexists. eexists. eexists. split; [reflexivity|].
        split; [lia|].
        split.
        { rewrite len_app, len_blit, len_slice_to, Hq' by lia. lia. }
        split; [intros E; specialize (He E); lia|].
        rewrite Ht.
        destruct (Z.eqb_spec (n1 + nn) 0); [lia|].
        destruct (Z.eqb_spec nn 0) as [E0|N0].
        -- rewrite E0, Z.add_0_r. reflexivity.
        -- rewrite int64_add_idemp, Z.add_assoc. reflexivity.
Qed.

(** X8.  [Read] always returns, for every request and every state of the
    stream and the drive: it does not panic, and its calls to itself never
    nest deeper than four, however long [p] is.  It returns a count
    between 0 and [len(p)], keeps the length of [p], and never returns
    fewer than [len(p)] bytes without an error.  The cursor moves by the
    count (as an [int64]). *)
Theorem Read_returns_all_or_an_error (p : list byte) (w : World) :
  exists p' n err w',
    Read p w = Done (p', n, err) w' /\
    (forall fuel, (Read_depth <= fuel)%nat -> Read_fuel fuel p w = Done (p', n, err) w') /\
    0 <= n <= len p /\
    len p' = len p /\
    (err = None -> n = len p) /\
    trueOffset (stream w') =
      (if n =? 0 then trueOffset (stream w) else int64 (trueOffset (stream w) + n)).
Proof.
  destruct (Read_contract_aux p w) as (p' & n & err & w' & HR & H).
  exists p', n, err, w'. split; [exact HR|].
  split; [|exact H].
  intros fuel Hf. rewrite Read_fuel_enough by exact Hf. exact HR.
Qed.

(** X9.  When the buffer holds at least [len(p)] bytes, [Read] copies the
    first [len(p)] of them, removes them from the buffer, moves the cursor
    and calls nothing; it does not look at the session. *)
Theorem Read_from_buffer_calls_nothing (p : list byte) (w : World) :
  0 < len p <= len (buf (stream w)) ->
  Read p w =
  Done (slice_to (buf (stream w)) (len p), len p, None)
       (mkWorld (set_trueOffset (int64 (trueOffset (stream w) + len p))
                   (set_buf (slice_from (buf (stream w)) (len p)) (stream w)))
                (trace w)).
Proof. intros H. unfold Read, Read_depth. apply Read_fuel_covered. exact H. Qed.

(** X10.  When the buffer holds fewer bytes than asked for and the drive
    answers the refill with an error code, [Read] returns that error
    together with the count of the bytes it had already copied from the
    buffer: they are at the front of [p], the rest of [p] is untouched,
    and the buffer is left empty. *)
Theorem Read_reports_bytes_copied_before_a_device_error
        (p : list byte) (w : World) (h : CdIo) :
  let held := buf (stream w) in
  let rest := slice_from p (len held) in
  let s := scratch (Z.quot (len rest) BytesPerSector + 1) (sbuf (stream w)) in
  let cursor := if len held =? 0 then trueOffset (stream w)
                else int64 (trueOffset (stream w) + len held) in
  let lsn := lsn_t (uint32 (Z.quot cursor BytesPerSector)) in
  let cnt := c_uint (Z.quot (len s) BytesPerSector) in
  let rc := fst (cdio_read_audio_sectors (trace w) (Some h) lsn cnt) in
  cdio (stream w) = Some h ->
  sbuf_whole (stream w) ->
  len held < len p ->
  rc <> 0 ->
  exists w',
    Read p w = Done (held ++ rest, len held, Some (AudioCDError rc)) w' /\
    buf (stream w') = [] /\
    trace w' = trace w ++ [EvReadAudioSectors (Some h) lsn cnt (len s)].
Proof.
  intros held rest s cursor lsn cnt rc Hc Hwhole Hlt Hrc.
  pose proof (len_nonneg held) as Hh.
  assert (Hfail : forall fuel w0,
             buf (stream w0) = [] -> cdio (stream w0) = Some h ->
             sbuf (stream w0) = sbuf (stream w) -> trace w0 = trace w ->
             trueOffset (stream w0) = cursor ->
             exists w',
               Read_fuel (S fuel) rest w0 = Done (rest, 0, Some (AudioCDError rc)) w' /\
               buf (stream w') = [] /\
               trace w' = trace w ++ [EvReadAudioSectors (Some h) lsn cnt (len s)]).
  { intros fuel w0 Hb0 Hc0 Hs0 Ht0 Hcur.
    assert (Hrest : 0 < len rest) by (unfold rest; rewrite len_slice_from; lia).
    rewrite Read_fuel_refill by assumption.
    pose proof (bufferSectors_open _ w0 h (refill_count_pos rest) Hc0) as Hbs.
    cbv zeta in Hbs. rewrite Hs0 in Hbs. fold s in Hbs.
    assert (Hrem : Z.rem (len s) BytesPerSector = 0).
    { destruct (scratch_whole _ (stream w) (refill_count_pos rest) Hwhole)
        as (k & Hk & Hlen).
      fold s in Hlen. rewrite Hlen, BytesPerSector_eq. apply Z.rem_mul. lia. }
    specialize (Hbs Hrem).
    unfold start_lsn in Hbs. rewrite Hcur, Ht0 in Hbs. fold lsn cnt in Hbs.
    fold rc in Hbs.
    destruct (Z.eqb_spec rc 0) as [E|_]; [contradiction|].
    rewrite (bind_Done _ _ _ _ _ Hbs).
    eexists. split; [reflexivity|].
    cbn [stream trace buf set_buf]. rewrite Hb0. split; reflexivity. }
  unfold Read, Read_depth.
  destruct (Z.eqb_spec (len held) 0) as [E0|N0].
  - assert (Hnil : held = []) by (apply len_nil_iff; exact E0).
    assert (Hrest : rest = p) by (unfold rest; rewrite E0; reflexivity).
    destruct (Hfail 3%nat w Hnil Hc eq_refl eq_refl eq_refl) as (w' & HR & Hb' & Htr).
    rewrite Hrest in HR. exists w'. rewrite Hnil, Hrest. cbn [app].
    change (len (@nil byte)) with 0. split; [exact HR|]. split; assumption.
  - rewrite Read_fuel_serve by (fold held; lia). cbv zeta. fold held.
    replace (Z.min (len p) (len held)) with (len held) by lia.
    rewrite slice_from_all, slice_to_all. fold rest.
    match goal with
    | |- context [bind (Read_fuel 3 rest) _ ?w0] =>
        destruct (Hfail 2%nat w0) as (w' & HR & Hb' & Htr)
    end; try reflexivity; [exact Hc|].
    rewrite (bind_Done _ _ _ _ _ HR). cbv beta iota.
    exists w'. rewrite Z.add_0_r.
    rewrite blit_same_length by (rewrite len_slice_to; [reflexivity | lia]).
    split; [reflexivity|]. split; assumption.
Qed.

End Reading.

(** ** Reading the disc *)

Lemma map_seq_from {A : Type} (f : nat -> A) (a k : nat) :
  map f (seq a k) = map (fun i => f (a + i)%nat) (seq 0 k).
Proof.
  revert a. induction k as [|k IH]; intros a; [reflexivity|].
  cbn [seq map]. rewrite Nat.add_0_r. f_equal.
  rewrite IH, <- seq_shift, map_map.
  apply map_ext. intros i. f_equal. lia.
Qed.

Lemma firstn_seq_min (m a n : nat) : firstn m (seq a n) = seq a (Nat.min m n).
Proof.
  revert a n. induction m as [|m IH]; intros a n; [reflexivity|].
  destruct n as [|n]; [reflexivity|].
  cbn [seq firstn Nat.min]. f_equal. apply IH.
Qed.

Lemma slice_to_from {A : Type} (l : list A) (n : Z) : slice_to l n ++ slice_from l n = l.
Proof. apply firstn_skipn. Qed.

Lemma len_bytes_from (content : Z -> byte) (off n : Z) :
  0 <= n -> len (bytes_from content off n) = n.
Proof.
  intros H. unfold len, bytes_from. rewrite length_map, length_seq. lia.
Qed.

Lemma slice_to_bytes_from (content : Z -> byte) (off n m : Z) :
  0 <= m <= n -> slice_to (bytes_from content off n) m = bytes_from content off m.
Proof.
  intros H. unfold slice_to, bytes_from.
  rewrite firstn_map, firstn_seq_min. f_equal. f_equal. lia.
Qed.

Lemma slice_from_bytes_from (content : Z -> byte) (off n m : Z) :
  0 <= m <= n ->
  slice_from (bytes_from content off n) m = bytes_from content (off + m) (n - m).
Proof.
  intros H. unfold slice_from, bytes_from.
  rewrite skipn_map, skipn_seq, map_seq_from.
  replace (Z.to_nat n - Z.to_nat m)%nat with (Z.to_nat (n - m)) by lia.
  apply map_ext. intros i. f_equal. lia.
Qed.

Lemma bytes_from_app (content : Z -> byte) (off a b : Z) :
  0 <= a -> 0 <= b ->
  bytes_from content off a ++ bytes_from content (off + a) b
  = bytes_from content off (a + b).
Proof.
  intros Ha Hb.
  rewrite <- (slice_to_from (bytes_from content off (a + b)) a).
  rewrite slice_to_bytes_from, slice_from_bytes_from by lia.
  do 2 f_equal. lia.
Qed.

Lemma lsn_of_sector (x : Z) : 0 <= x < 2 ^ 31 -> lsn_t (uint32 x) = x.
Proof.
  intros H. unfold lsn_t, int32, uint32, wrap_signed.
  change (2 ^ (32 - 1)) with (2 ^ 31). change (2 ^ 32) with (2 * 2 ^ 31).
  rewrite (Z.mod_small x) by lia. rewrite Z.mod_small; lia.
Qed.

Section Streaming.
Context {hw : Drive}.
Variable content : Z -> byte.

(** The world a refill leaves when the drive delivers. *)
Lemma bufferSectors_delivers (n : Z) (w : World) :
  1 <= n ->
  streaming content (stream w) ->
  buf (stream w) = [] ->
  drive_delivers content w n ->
  let s := scratch n (sbuf (stream w)) in
  let data := bytes_from content (bufferedOffset (stream w)) (len s) in
  n * BytesPerSector <= len s /\
  bufferSectors n w =
  Done None
    (mkWorld (set_buf data
                (set_bufferedOffset (bufferedOffset (stream w) + len s)
                   (set_sbuf (Some data) (stream w))))
             (trace w ++ [EvReadAudioSectors (cdio (stream w))
                            (Z.quot (bufferedOffset (stream w)) BytesPerSector)
                            (Z.quot (len s) BytesPerSector) (len s)])).
Proof.
  intros Hn (Hopen & Ht & (Hle & Hacc) & Hal & Hcap & Hbuf & Hwhole) Hb (Hroom & Hdev) s data.
  fold s in Hroom, Hdev.
  destruct (cdio (stream w)) as [h|] eqn:Hc; [|contradiction].
  destruct (scratch_whole n (stream w) Hn Hwhole) as (k & Hk & Hlen). fold s in Hlen.
  pose proof (scratch_covers n (sbuf (stream w)) ltac:(lia)) as Hcov. fold s in Hcov.
  split; [exact Hcov|].
  assert (Htb : trueOffset (stream w) = bufferedOffset (stream w)).
  { rewrite Hb in Hacc. change (len (@nil byte)) with 0 in Hacc. lia. }
  assert (Hrem : Z.rem (len s) BytesPerSector = 0).
  { rewrite Hlen, BytesPerSector_eq. apply Z.rem_mul. lia. }
  assert (Hq : Z.quot (len s) BytesPerSector = k).
  { rewrite Hlen, BytesPerSector_eq. apply Z.quot_mul. lia. }
  pose proof (bufferSectors_open n w h Hn Hc Hrem) as Hbs. cbv zeta in Hbs.
  fold s in Hbs. unfold start_lsn in Hbs. rewrite Htb in Hbs.
  rewrite BytesPerSector_eq in *.
  assert (Hb0 : 0 <= bufferedOffset (stream w)) by lia.
  pose proof (Z.quot_rem' (bufferedOffset (stream w)) 2352) as Hdiv.
  pose proof (Z.quot_pos (bufferedOffset (stream w)) 2352 Hb0 ltac:(lia)) as Hqp.
  rewrite lsn_of_sector in Hbs by lia.
  rewrite Hq in Hbs, Hdev |- *.
  rewrite c_uint_small in Hbs by lia.
  rewrite Hdev in Hbs. cbn [fst snd] in Hbs. change (0 =? 0) with true in Hbs.
  cbv iota in Hbs. rewrite Hb in Hbs. cbn [app] in Hbs.
  fold data in Hbs.
  assert (Hdl : len data = len s) by (unfold data; apply len_bytes_from; lia).
  rewrite (blit_same_length data s Hdl) in Hbs.
  rewrite int64_small in Hbs by lia.
  rewrite Hbs. destruct (stream w); reflexivity.
Qed.

(** [Read] from a buffer that covers the request. *)
Lemma Read_covered_streaming (fuel : nat) (p : list byte) (w : World) :
  streaming content (stream w) ->
  0 < len p <= len (buf (stream w)) ->
  exists w',
    Read_fuel (S (S fuel)) p w
    = Done (bytes_from content (trueOffset (stream w)) (len p), len p, None) w' /\
    streaming content (stream w') /\
    trueOffset (stream w') = trueOffset (stream w) + len p /\
    bufferedOffset (stream w') = bufferedOffset (stream w) /\
    trace w' = trace w.
Proof.
  intros (Hopen & Ht & (Hle & Hacc) & Hal & Hcap & Hbuf & Hwhole) Hp.
  rewrite Read_fuel_covered by exact Hp.
  rewrite BytesPerSector_eq in Hcap.
  rewrite int64_small by lia.
  assert (E : slice_to (buf (stream w)) (len p)
              = bytes_from content (trueOffset (stream w)) (len p))
    by (rewrite Hbuf; apply slice_to_bytes_from; lia).
  rewrite E.
  eexists. split; [reflexivity|].
  cbn [stream trace trueOffset bufferedOffset set_trueOffset set_buf].
  split; [|auto].
  unfold streaming, accounted, sbuf_whole.
  cbn [cdio trueOffset bufferedOffset buf sbuf set_trueOffset set_buf].
  rewrite len_slice_from by lia.
  split; [exact Hopen|]. split; [lia|]. split; [lia|]. split; [exact Hal|].
  split; [rewrite BytesPerSector_eq; exact Hcap|]. split; [|exact Hwhole].
  rewrite Hbuf at 1. apply slice_from_bytes_from. lia.
Qed.

(** [Read] from an empty buffer when the drive delivers. *)
Lemma Read_refill_streaming (fuel : nat) (p : list byte) (w : World) :
  streaming content (stream w) ->
  buf (stream w) = [] ->
  0 < len p ->
  drive_delivers content w (Z.quot (len p) BytesPerSector + 1) ->
  let s := scratch (Z.quot (len p) BytesPerSector + 1) (sbuf (stream w)) in
  exists w',
    Read_fuel (S (S (S fuel))) p w
    = Done (bytes_from content (trueOffset (stream w)) (len p), len p, None) w' /\
    streaming content (stream w') /\
    trueOffset (stream w') = trueOffset (stream w) + len p /\
    bufferedOffset (stream w') = bufferedOffset (stream w) + len s /\
    trace w' = trace w ++ [EvReadAudioSectors (cdio (stream w))
                             (Z.quot (bufferedOffset (stream w)) BytesPerSector)
                             (Z.quot (len s) BytesPerSector) (len s)].
Proof.
  intros Hs Hb Hp Hdev s.
  pose proof (refill_count_pos p) as Hn.
  destruct (bufferSectors_delivers _ w Hn Hs Hb Hdev) as (Hcov & Hbs).
  fold s in Hcov, Hbs.
  pose proof (refill_count_least (len p) (len_nonneg p)) as [Hlt _].
  destruct Hdev as (Hroom & _). fold s in Hroom.
  destruct Hs as (Hopen & Ht & (Hle & Hacc) & Hal & Hcap & Hbuf & Hwhole).
  assert (Htb : trueOffset (stream w) = bufferedOffset (stream w)).
  { rewrite Hb in Hacc. change (len (@nil byte)) with 0 in Hacc. lia. }
  destruct (scratch_whole _ (stream w) Hn Hwhole) as (k & Hk & Hlen). fold s in Hlen.
  rewrite Read_fuel_refill by assumption.
  rewrite (bind_Done _ _ _ _ _ Hbs).
  remember (bytes_from content (bufferedOffset (stream w)) (len s)) as data eqn:Hdata.
  assert (Hdl : len data = len s)
    by (rewrite Hdata; apply len_bytes_from; pose proof (len_nonneg s); lia).
  match goal with
  | |- context [Read_fuel _ p ?w1] =>
      destruct (Read_covered_streaming fuel p w1) as (w' & HR & Hs' & Ht' & Hb' & Htr')
  end.
  - unfold streaming, accounted, sbuf_whole.
    cbn [stream cdio trueOffset bufferedOffset buf sbuf set_buf set_bufferedOffset set_sbuf].
    rewrite Hdl.
    split; [exact Hopen|]. split; [exact Ht|]. split; [lia|].
    split.
    { rewrite Hlen, BytesPerSector_eq in *.
      pose proof (Z.quot_rem' (bufferedOffset (stream w)) 2352).
      rewrite Hal, Z.add_0_r in H. rewrite H.
      replace (2352 * (bufferedOffset (stream w) ÷ 2352) + k * 2352)
        with ((bufferedOffset (stream w) ÷ 2352 + k) * 2352) by lia.
      apply Z.rem_mul. lia. }
    split; [exact Hroom|].
    split; [rewrite Htb; exact Hdata|].
    exists k. auto.
  - cbn [stream buf set_buf]. rewrite Hdl. lia.
  - exists w'. cbn [stream trace trueOffset bufferedOffset set_buf set_bufferedOffset set_sbuf]
      in HR, Ht', Hb', Htr'.
    split; [exact HR|]. split; [exact Hs'|]. split; [exact Ht'|].
    split; [exact Hb' | exact Htr'].
Qed.

Lemma Read_streaming_aux (p : list byte) (w : World) :
  streaming content (stream w) ->
  (len (buf (stream w)) < len p ->
   drive_delivers content w
     (Z.quot (len p - len (buf (stream w))) BytesPerSector + 1)) ->
  exists w',
    Read p w = Done (bytes_from content (trueOffset (stream w)) (len p), len p, None) w' /\
    streaming content (stream w') /\
    trueOffset (stream w') = trueOffset (stream w) + len p /\
    (len p <= len (buf (stream w)) -> trace w' = trace w) /\
    (len (buf (stream w)) < len p -> exists e, trace w' = trace w ++ [e]).
Proof.
  intros Hs Hdev. unfold Read, Read_depth.
  pose proof (len_nonneg p) as Hp.
  pose proof (len_nonneg (buf (stream w))) as Hb.
  destruct (Z.eqb_spec (len p) 0) as [E|N].
  - assert (p = []) by (apply len_nil_iff; exact E). subst p.
    exists w. split; [reflexivity|]. split; [exact Hs|].
    split; [change (len (@nil byte)) with 0; lia|].
    split; [reflexivity|]. intros Hlt. change (len (@nil byte)) with 0 in Hlt. lia.
  - destruct (Z_le_gt_dec (len p) (len (buf (stream w)))) as [Hle|Hgt].
    + destruct (Read_covered_streaming 2 p w Hs ltac:(lia))
        as (w' & HR & Hs' & Ht' & _ & Htr').
      exists w'. split; [exact HR|]. split; [exact Hs'|]. split; [exact Ht'|].
      split; [intros _; exact Htr' | intros Hlt; lia].
    + specialize (Hdev ltac:(lia)).
      destruct (Z.eqb_spec (len (buf (stream w))) 0) as [Eb|Nb].
      * assert (Hnil : buf (stream w) = []) by (apply len_nil_iff; exact Eb).
        rewrite Eb, Z.sub_0_r in Hdev.
        destruct (Read_refill_streaming 1 p w Hs Hnil ltac:(lia) Hdev)
          as (w' & HR & Hs' & Ht' & _ & Htr').
        exists w'. split; [exact HR|]. split; [exact Hs'|]. split; [exact Ht'|].
        split; [intros Hle; lia | intros _; eexists; exact Htr'].
      * pose proof Hs as (Hopen & Ht & (Hle & Hacc) & Hal & Hcap & Hbuf & Hwhole).
        rewrite Read_fuel_serve by lia. cbv zeta.
        replace (Z.min (len p) (len (buf (stream w)))) with (len (buf (stream w))) by lia.
        rewrite slice_from_all, slice_to_all.
        set (held := buf (stream w)) in *.
        rewrite BytesPerSector_eq in Hcap.
        rewrite int64_small by lia.
        match goal with
        | |- context [bind (Read_fuel 3 ?q) _ ?w0] =>
            destruct (Read_refill_streaming 0 q w0) as (w' & HR & Hs' & Ht' & _ & Htr')
        end.
        { unfold streaming, accounted, sbuf_whole.
          cbn [stream cdio trueOffset bufferedOffset buf sbuf set_trueOffset set_buf].
          change (len (@nil byte)) with 0.
          split; [exact Hopen|]. split; [lia|]. split; [lia|]. split; [exact Hal|].
          split; [rewrite BytesPerSector_eq; exact Hcap|]. split; [reflexivity|exact Hwhole]. }
        { reflexivity. }
        { rewrite len_slice_from; lia. }
        { rewrite len_slice_from by lia. exact Hdev. }
        rewrite (bind_Done _ _ _ _ _ HR). cbv beta iota.
        cbn [stream trace trueOffset set_trueOffset set_buf] in Ht', Htr'.
        rewrite len_slice_from in Ht' by lia.
        exists w'. split.
        { unfold ret. do 2 f_equal. f_equal.
          - rewrite blit_same_length by (rewrite len_slice_to; [reflexivity | lia]).
            cbn [stream trueOffset set_trueOffset set_buf].
            rewrite len_slice_from by lia.
            transitivity (bytes_from content (trueOffset (stream w)) (len held)
                          ++ bytes_from content (trueOffset (stream w) + len held)
                               (len p - len held));
              [f_equal; exact Hbuf|].
            rewrite bytes_from_app by lia. f_equal. lia.
          - rewrite len_slice_from by lia. lia. }
        split; [exact Hs'|]. split; [lia|].
        split; [intros Hle'; lia | intros _; eexists; exact Htr'].
Qed.

(** X11.  On a stream whose buffer holds the disc's bytes from the cursor
    on, and with a drive that answers the refill (if one is needed) with
    the disc's bytes, [Read] returns exactly the [len(p)] bytes of the disc
    at the cursor, without error, and moves the cursor by [len(p)]; the
    buffer again holds the disc's bytes from the new cursor on.  At most
    one device read is made, and none when the buffer covers the
    request. *)
Theorem Read_delivers_disc_bytes_at_cursor (p : list byte) (w : World) :
  streaming content (stream w) ->
  (len (buf (stream w)) < len p ->
   drive_delivers content w
     (Z.quot (len p - len (buf (stream w))) BytesPerSector + 1)) ->
  exists w',
    Read p w = Done (bytes_from content (trueOffset (stream w)) (len p), len p, None) w' /\
    streaming content (stream w') /\
    trueOffset (stream w') = trueOffset (stream w) + len p /\
    (len p <= len (buf (stream w)) -> trace w' = trace w) /\
    (len (buf (stream w)) < len p -> exists e, trace w' = trace w ++ [e]).
Proof. exact (Read_streaming_aux p w). Qed.

(** X12.  Two [Read]s in a row return, one after the other, the bytes one
    [Read] of the combined length returns: the disc's bytes from the first
    cursor on. *)
Theorem consecutive_Reads_deliver_consecutive_bytes
        (p1 p2 d1 : list byte) (n1 : Z) (w w1 : World) :
  streaming content (stream w) ->
  (len (buf (stream w)) < len p1 ->
   drive_delivers content w
     (Z.quot (len p1 - len (buf (stream w))) BytesPerSector + 1)) ->
  Read p1 w = Done (d1, n1, None) w1 ->
  (len (buf (stream w1)) < len p2 ->
   drive_delivers content w1
     (Z.quot (len p2 - len (buf (stream w1))) BytesPerSector + 1)) ->
  exists d2 w2,
    Read p2 w1 = Done (d2, len p2, None) w2 /\
    d1 ++ d2 = bytes_from content (trueOffset (stream w)) (len p1 + len p2) /\
    trueOffset (stream w2) = trueOffset (stream w) + len p1 + len p2 /\
    streaming content (stream w2).
Proof.
  intros Hs H1 HR1 H2.
  destruct (Read_streaming_aux p1 w Hs H1) as (w1' & HR & Hs1 & Ht1 & _).
  rewrite HR in HR1. injection HR1 as <- <- <-.
  destruct (Read_streaming_aux p2 w1' Hs1 H2) as (w2 & HR2 & Hs2 & Ht2 & _).
  eexists. exists w2. split; [exact HR2|].
  rewrite Ht1. split; [|split; [lia | exact Hs2]].
  apply bytes_from_app; apply len_nonneg.
Qed.

End Streaming.

Lemma bind_Done_Panic {A B : Type} (m : M A) (k : A -> M B) (w w' : World) :
  m w = Panic w' -> bind m k w = Panic w'.
Proof. intros H; unfold bind; rewrite H; reflexivity. Qed.

Lemma device_reads_app (tr1 tr2 : list Event) :
  device_reads (tr1 ++ tr2) = device_reads tr1 ++ device_reads tr2.
Proof.
  induction tr1 as [|e tr IH]; [reflexivity|].
  destruct e; cbn [app device_reads]; rewrite ?IH; reflexivity.
Qed.

Section Seeking.
Context {hw : Drive}.

(** ** Seek *)

(** [io.SeekCurrent] is [io.SeekStart] at the resolved target. *)
Lemma Seek_current_as_start (w : World) (h : CdIo) (offset : Z) :
  cdio (stream w) = Some h ->
  Seek offset SeekCurrent w = Seek (int64 (trueOffset (stream w) + offset)) SeekStart w.
Proof.
  intros Hc. unfold Seek.
  rewrite !(bind_Done _ _ _ _ _ (IsOpen_run w)), Hc. run.
  change (SeekCurrent =? SeekCurrent) with true.
  change (SeekStart =? SeekCurrent) with false.
  change (SeekStart =? SeekEnd) with false. run. reflexivity.
Qed.

(** The slow path of [Seek], whatever the drive answers and wherever the
    target is. *)
Lemma Seek_slow_outcome (w : World) (h : CdIo) (target : Z) :
  let s := scratch 1 (sbuf (stream w)) in
  let b := bufferedOffset (stream w) in
  let lsn := lsn_t (uint32 (Z.quot b BytesPerSector)) in
  let cnt := c_uint (Z.quot (len s) BytesPerSector) in
  let rc := fst (cdio_read_audio_sectors (trace w) (Some h) lsn cnt) in
  let s' := blit (snd (cdio_read_audio_sectors (trace w) (Some h) lsn cnt)) s in
  let tr' := trace w ++ [EvReadAudioSectors (Some h) lsn cnt (len s)] in
  let after_read (grown : Z) (held : list byte) :=
    set_trueOffset (int64 (b + grown))
      (set_buf held
         (set_bufferedOffset (int64 (b + grown))
            (set_sbuf (Some s') (set_trueOffset b (set_buf [] (stream w)))))) in
  cdio (stream w) = Some h ->
  target <> trueOffset (stream w) ->
  target < trueOffset (stream w) \/ b <= target ->
  - 2 ^ 63 <= target < 2 ^ 63 ->
  Z.rem (len s) BytesPerSector = 0 ->
  Seek target SeekStart w =
  if rc =? 0 then
    if Z.rem target BytesPerSector <? 0
    then Panic (mkWorld (after_read (len s) s') tr')
    else Done (target, None)
           (mkWorld (set_trueOffset target
                       (set_buf (slice_from s' (Z.rem target BytesPerSector))
                          (after_read (len s) s'))) tr')
  else Done (int64 (b + 0), Some (AudioCDError rc)) (mkWorld (after_read 0 []) tr').
Proof.
  intros s b lsn cnt rc s' tr' after_read Hc Hne Hout Hrange Hrem. unfold Seek.
  rewrite (bind_Done _ _ _ _ _ (IsOpen_run w)), Hc. run.
  change (SeekStart =? SeekCurrent) with false.
  change (SeekStart =? SeekEnd) with false. run.
  destruct (Z.eqb_spec target (trueOffset (stream w))); [contradiction|].
  assert (E : (target >? trueOffset (stream w)) && (target <? bufferedOffset (stream w))
              = false).
  { destruct (Z.gtb_spec target (trueOffset (stream w))); [|reflexivity].
    destruct (Z.ltb_spec target (bufferedOffset (stream w))); [unfold b in *; lia|reflexivity]. }
  rewrite E.
  rewrite (bind_Done _ _ _ _ _ (buf_Truncate_0_run w)). run.
  match goal with
  | |- bind (bufferSectors 1) _ ?w1 = _ =>
      pose proof (bufferSectors_open 1 w1 h ltac:(lia) Hc) as Hbs
  end.
  cbv zeta in Hbs. cbn [stream trace sbuf buf bufferedOffset set_buf set_trueOffset] in Hbs.
  fold s in Hbs. specialize (Hbs Hrem).
  change (start_lsn (set_trueOffset (bufferedOffset (stream w)) (set_buf [] (stream w))))
    with lsn in Hbs.
  fold cnt in Hbs. fold rc s' b in Hbs. cbn [app] in Hbs.
  rewrite (bind_Done _ _ _ _ _ Hbs). run. fold b.
  destruct (rc =? 0); [|reflexivity].
  rewrite BytesPerSector_eq.
  pose proof (Z.quot_rem' target 2352) as Hqr.
  assert (Hrb : (0 <= target /\ 0 <= Z.rem target 2352 < 2352) \/
                (target <= 0 /\ - 2352 < Z.rem target 2352 <= 0)).
  { destruct (Z_le_gt_dec 0 target) as [Hpos|Hneg].
    - left. split; [exact Hpos|]. apply Z.rem_bound_pos; lia.
    - right. split; [lia|].
      pose proof (Z.rem_bound_pos_neg target 2352 ltac:(lia) ltac:(lia)). lia. }
  assert (Hsub : int64 (target - int64 (target - Z.rem target 2352))
                 = Z.rem target 2352).
  { rewrite (int64_small (target - Z.rem target 2352)) by lia.
    rewrite int64_small by lia. lia. }
  rewrite Hsub.
  destruct (Z.ltb_spec (Z.rem target 2352) 0) as [Hneg|Hpos].
  - rewrite (bind_Done_Panic _ _ _ _ (buf_Next_negative _ _ Hneg)). reflexivity.
  - pose proof (scratch_covers 1 (sbuf (stream w)) ltac:(lia)) as Hcov. fold s in Hcov.
    rewrite BytesPerSector_eq in Hcov.
    match goal with
    | |- bind (buf_Next _) _ ?w2 = _ =>
        pose proof (buf_Next_run (Z.rem target 2352) w2 Hpos) as HN
    end.
    cbv zeta in HN. cbn [stream trace buf set_buf set_trueOffset] in HN.
    replace (Z.min (Z.rem target 2352) (len s')) with (Z.rem target 2352) in HN
      by (unfold s'; rewrite len_blit; lia).
    rewrite (bind_Done _ _ _ _ _ HN). reflexivity.
Qed.

(** X13.  A seek to a target strictly between the cursor and the end of
    the buffered region, given from the start or relative to the cursor,
    calls nothing: it returns the target, drops the bytes before it from
    the buffer, and the buffer still holds the disc's bytes from the new
    cursor on. *)
Theorem Seek_within_buffer_keeps_streaming
        (content : Z -> byte) (w : World) (target : Z) :
  streaming content (stream w) ->
  trueOffset (stream w) < target < bufferedOffset (stream w) ->
  exists w',
    Seek target SeekStart w = Done (target, None) w' /\
    Seek (target - trueOffset (stream w)) SeekCurrent w = Done (target, None) w' /\
    streaming content (stream w') /\
    trueOffset (stream w') = target /\
    bufferedOffset (stream w') = bufferedOffset (stream w) /\
    trace w' = trace w.
Proof.
  intros (Hopen & Ht & (Hle & Hacc) & Hal & Hcap & Hbuf & Hwhole) Hin.
  destruct (cdio (stream w)) as [h|] eqn:Hc; [|contradiction].
  assert (Hcap' : bufferedOffset (stream w) < 2 ^ 63)
    by (rewrite BytesPerSector_eq in Hcap; lia).
  pose proof (Seek_fast_path w h target Hc Hin Ht Hcap') as HS. cbv zeta in HS.
  replace (Z.min (target - trueOffset (stream w)) (len (buf (stream w))))
    with (target - trueOffset (stream w)) in HS by lia.
  eexists. split; [exact HS|].
  split.
  { rewrite (Seek_current_as_start w h _ Hc).
    replace (trueOffset (stream w) + (target - trueOffset (stream w))) with target by lia.
    rewrite int64_small by lia. exact HS. }
  cbn [stream trace trueOffset bufferedOffset set_trueOffset set_buf].
  split; [|auto].
  unfold streaming, accounted, sbuf_whole.
  cbn [cdio trueOffset bufferedOffset buf sbuf set_trueOffset set_buf].
  rewrite Hc. rewrite len_slice_from by lia.
  split; [discriminate|]. split; [lia|]. split; [lia|]. split; [exact Hal|].
  split; [exact Hcap|]. split; [|exact Hwhole].
  rewrite Hbuf at 1. rewrite slice_from_bytes_from by lia. f_equal. lia.
Qed.

(** X14.  A seek to a target in the sector that starts where the buffered
    region ends takes the slow path and is right: with a drive that
    delivers that read, it returns the target after one device read at
    that sector, and the buffer holds the disc's bytes from the target
    on. *)
Theorem Seek_into_next_sector_keeps_streaming
        (content : Z -> byte) (w : World) (target : Z) :
  streaming content (stream w) ->
  bufferedOffset (stream w) <= target < bufferedOffset (stream w) + BytesPerSector ->
  target <> trueOffset (stream w) ->
  drive_delivers content w 1 ->
  exists w',
    Seek target SeekStart w = Done (target, None) w' /\
    streaming content (stream w') /\
    trueOffset (stream w') = target /\
    device_reads (trace w') =
      device_reads (trace w)
      ++ [(Z.quot (bufferedOffset (stream w)) BytesPerSector,
           Z.quot (len (scratch 1 (sbuf (stream w)))) BytesPerSector,
           len (scratch 1 (sbuf (stream w))))].
Proof.
  intros (Hopen & Ht & (Hle & Hacc) & Hal & Hcap & Hbuf & Hwhole) Hin Hne (Hroom & Hdev).
  destruct (cdio (stream w)) as [h|] eqn:Hc; [|contradiction].
  set (s := scratch 1 (sbuf (stream w))) in *.
  set (b := bufferedOffset (stream w)) in *.
  destruct (scratch_whole 1 (stream w) ltac:(lia) Hwhole) as (k & Hk & Hlen).
  fold s in Hlen.
  assert (Hrem : Z.rem (len s) BytesPerSector = 0)
    by (rewrite Hlen, BytesPerSector_eq; apply Z.rem_mul; lia).
  assert (Hq : Z.quot (len s) BytesPerSector = k)
    by (rewrite Hlen, BytesPerSector_eq; apply Z.quot_mul; lia).
  assert (Hb0 : 0 <= b) by lia.
  pose proof (Z.quot_rem' b BytesPerSector) as Hdiv.
  pose proof (Z.quot_pos b BytesPerSector Hb0 ltac:(rewrite BytesPerSector_eq; lia)) as Hqp.
  rewrite Hal, Z.add_0_r in Hdiv.
  assert (Hsmall : 0 <= Z.quot b BytesPerSector < 2 ^ 31 /\ 0 <= k < 2 ^ 32).
  { rewrite BytesPerSector_eq in *. lia. }
  pose proof (Seek_slow_outcome w h target Hc Hne ltac:(fold b; lia)
                ltac:(rewrite BytesPerSector_eq in *; lia) Hrem) as HS.
  cbv zeta in HS. fold s b in HS.
  rewrite lsn_of_sector, Hq, c_uint_small in HS by lia.
  rewrite Hq in Hdev. rewrite Hdev in HS. cbn [fst snd] in HS.
  change (0 =? 0) with true in HS. cbv iota in HS.
  remember (bytes_from content b (len s)) as data eqn:Hdata.
  assert (Hdl : len data = len s)
    by (rewrite Hdata; apply len_bytes_from; rewrite Hlen, BytesPerSector_eq; lia).
  rewrite (blit_same_length data s Hdl) in HS.
  assert (Hsub : Z.rem target BytesPerSector = target - b).
  { rewrite Z.rem_mod_nonneg by (rewrite BytesPerSector_eq in *; lia).
    replace target with ((target - b) + Z.quot b BytesPerSector * BytesPerSector) at 1 by lia.
    rewrite Z.mod_add by (rewrite BytesPerSector_eq; lia).
    apply Z.mod_small. lia. }
  rewrite Hsub in HS.
  destruct (Z.ltb_spec (target - b) 0) as [Hneg|_]; [lia|].
  rewrite int64_small in HS by (rewrite BytesPerSector_eq in *; lia).
  eexists. split; [exact HS|].
  cbn [stream trace trueOffset bufferedOffset set_trueOffset set_buf set_bufferedOffset
       set_sbuf].
  split; [|split; [reflexivity|]].
  - unfold streaming, accounted, sbuf_whole.
    cbn [cdio trueOffset bufferedOffset buf sbuf set_trueOffset set_buf
         set_bufferedOffset set_sbuf].
    rewrite Hc.
    assert (Hls : len (slice_from data (target - b)) = len s - (target - b)).
    { rewrite len_slice_from; rewrite Hdl, Hlen, BytesPerSector_eq in *; lia. }
    rewrite Hls.
    split; [discriminate|]. split; [lia|].
    split; [rewrite Hlen, BytesPerSector_eq in *; lia|].
    split.
    { rewrite Hdiv, Hlen, BytesPerSector_eq.
      replace (2352 * (b ÷ 2352) + k * 2352) with ((b ÷ 2352 + k) * 2352) by lia.
      apply Z.rem_mul. lia. }
    split; [exact Hroom|].
    split; [|exists k; rewrite Hdl; auto].
    rewrite Hdata, slice_from_bytes_from
      by (rewrite Hlen, BytesPerSector_eq in *; lia).
    f_equal. lia.
  - rewrite device_reads_app. cbn [device_reads]. rewrite Hq. reflexivity.
Qed.

(** X15.  When the drive answers the read of the slow path with an error
    code, [Seek] returns that error and the offset where the buffered
    region ended, not the target: the buffer is empty and the cursor
    stands at that offset, so the buffer is accounted for. *)
Theorem Seek_failure_leaves_cursor_at_buffered_offset
        (w : World) (h : CdIo) (target : Z) :
  let s := scratch 1 (sbuf (stream w)) in
  let b := bufferedOffset (stream w) in
  let lsn := lsn_t (uint32 (Z.quot b BytesPerSector)) in
  let cnt := c_uint (Z.quot (len s) BytesPerSector) in
  let rc := fst (cdio_read_audio_sectors (trace w) (Some h) lsn cnt) in
  cdio (stream w) = Some h ->
  sbuf_whole (stream w) ->
  target <> trueOffset (stream w) ->
  target < trueOffset (stream w) \/ b <= target ->
  - 2 ^ 63 <= target < 2 ^ 63 ->
  - 2 ^ 63 <= b < 2 ^ 63 ->
  rc <> 0 ->
  exists w',
    Seek target SeekStart w = Done (b, Some (AudioCDError rc)) w' /\
    buf (stream w') = [] /\
    trueOffset (stream w') = b /\
    bufferedOffset (stream w') = b /\
    accounted (stream w') /\
    trace w' = trace w ++ [EvReadAudioSectors (Some h) lsn cnt (len s)].
Proof.
  intros s b lsn cnt rc Hc Hwhole Hne Hout Hrange Hb Hrc.
  destruct (scratch_whole 1 (stream w) ltac:(lia) Hwhole) as (k & Hk & Hlen).
  fold s in Hlen.
  assert (Hrem : Z.rem (len s) BytesPerSector = 0)
    by (rewrite Hlen, BytesPerSector_eq; apply Z.rem_mul; lia).
  pose proof (Seek_slow_outcome w h target Hc Hne Hout Hrange Hrem) as HS.
  cbv zeta in HS. fold s b lsn cnt rc in HS.
  destruct (Z.eqb_spec rc 0) as [E|_]; [contradiction|].
  rewrite Z.add_0_r, int64_small in HS by exact Hb.
  eexists. split; [exact HS|].
  cbn [stream trace buf trueOffset bufferedOffset set_trueOffset set_buf
       set_bufferedOffset set_sbuf].
  do 3 (split; [reflexivity|]).
  split; [|reflexivity].
  unfold accounted.
  cbn [buf trueOffset bufferedOffset set_trueOffset set_buf set_bufferedOffset set_sbuf].
  change (len (@nil byte)) with 0. lia.
Qed.

(** X16.  [Seek] does not reject a target before the start of the disc.
    With the cursor at or after the start and a drive that answers the
    read of the slow path, a negative target that is a multiple of
    [BytesPerSector] is accepted and becomes the cursor; any other
    negative target makes [Seek] panic, after the device read, on the
    negative count it passes to the buffer. *)
Theorem Seek_before_start_is_accepted_or_panics
        (w : World) (h : CdIo) (target : Z) :
  let s := scratch 1 (sbuf (stream w)) in
  let b := bufferedOffset (stream w) in
  let lsn := lsn_t (uint32 (Z.quot b BytesPerSector)) in
  let cnt := c_uint (Z.quot (len s) BytesPerSector) in
  let rc := fst (cdio_read_audio_sectors (trace w) (Some h) lsn cnt) in
  cdio (stream w) = Some h ->
  sbuf_whole (stream w) ->
  0 <= trueOffset (stream w) ->
  - 2 ^ 63 <= target < 0 ->
  rc = 0 ->
  exists w',
    trace w' = trace w ++ [EvReadAudioSectors (Some h) lsn cnt (len s)] /\
    Seek target SeekStart w =
      (if Z.rem target BytesPerSector =? 0 then Done (target, None) w' else Panic w') /\
    (Z.rem target BytesPerSector = 0 -> trueOffset (stream w') = target).
Proof.
  intros s b lsn cnt rc Hc Hwhole Ht Hrange Hrc.
  destruct (scratch_whole 1 (stream w) ltac:(lia) Hwhole) as (k & Hk & Hlen).
  fold s in Hlen.
  assert (Hrem : Z.rem (len s) BytesPerSector = 0)
    by (rewrite Hlen, BytesPerSector_eq; apply Z.rem_mul; lia).
  pose proof (Seek_slow_outcome w h target Hc ltac:(lia) ltac:(lia) ltac:(lia) Hrem) as HS.
  cbv zeta in HS. fold s b lsn cnt rc in HS. rewrite Hrc in HS.
  change (0 =? 0) with true in HS. cbv iota in HS.
  assert (Hle : Z.rem target BytesPerSector <= 0).
  { rewrite BytesPerSector_eq.
    pose proof (Z.rem_bound_pos_neg target 2352 ltac:(lia) ltac:(lia)). lia. }
  destruct (Z.eqb_spec (Z.rem target BytesPerSector) 0) as [E|N].
  - destruct (Z.ltb_spec (Z.rem target BytesPerSector) 0); [lia|].
    eexists. split; [|split; [exact HS|]]; [reflexivity|]. intros _. reflexivity.
  - destruct (Z.ltb_spec (Z.rem target BytesPerSector) 0); [|lia].
    eexists. split; [|split; [exact HS|]]; [reflexivity|]. intros E. contradiction.
Qed.

Lemma Seek_end_run (w : World) (h : CdIo) (offset : Z) :
  cdio (stream w) = Some h ->
  Seek offset SeekEnd w =
  match LengthSectors w with
  | Done (l, None) w' =>
      Seek (int64 (int64 (l * BytesPerSector) + offset)) SeekStart w'
  | Done (_, Some e) w' => Done (0, Some e) w'
  | Panic w' => Panic w'
  | OutOfFuel => OutOfFuel
  end.
Proof.
  intros Hc.
  pose proof (LengthSectors_frame w) as Hf.
  unfold Seek at 1.
  rewrite (bind_Done _ _ _ _ _ (IsOpen_run w)), Hc. cbn [negb].
  change (SeekEnd =? SeekCurrent) with false.
  change (SeekEnd =? SeekEnd) with true. cbv iota.
  rewrite bind_assoc. unfold bind at 1.
  destruct (LengthSectors w) as [[l [e|]] w'|w'|]; try reflexivity.
  assert (Hc' : cdio (stream w') = Some h) by (rewrite <- Hf; exact Hc).
  unfold Seek.
  rewrite (bind_Done _ _ _ _ _ (IsOpen_run w')), Hc'. run.
  change (SeekStart =? SeekCurrent) with false.
  change (SeekStart =? SeekEnd) with false. run. reflexivity.
Qed.

(** X17.  A seek from the end first asks [LengthSectors].  When that
    returns an error, [Seek] returns it with offset 0, not the cursor;
    when it panics, so does [Seek]; when it returns [l] sectors, the seek
    goes on as a seek from the start to [l * BytesPerSector + offset].
    The stream is untouched by the question. *)
Theorem Seek_from_end_goes_through_LengthSectors (w : World) (h : CdIo) (offset : Z) :
  cdio (stream w) = Some h ->
  match LengthSectors w with
  | Done (l, None) w' =>
      stream w' = stream w /\
      Seek offset SeekEnd w
      = Seek (int64 (int64 (l * BytesPerSector) + offset)) SeekStart w'
  | Done (_, Some e) w' =>
      stream w' = stream w /\ Seek offset SeekEnd w = Done (0, Some e) w'
  | Panic w' => stream w' = stream w /\ Seek offset SeekEnd w = Panic w'
  | OutOfFuel => Seek offset SeekEnd w = OutOfFuel
  end.
Proof.
  intros Hc.
  pose proof (LengthSectors_frame w) as Hf.
  rewrite (Seek_end_run w h offset Hc).
  destruct (LengthSectors w) as [[l [e|]] w'|w'|]; auto.
Qed.

End Seeking.

Section Contents.
Context {hw : Drive}.

(** ** The table of contents *)

Lemma track_checked_intro (t : TrackPosition) :
  0 < LengthSectors_of t -> StartSector t <> CDIO_INVALID_LSN -> track_checked t.
Proof.
  intros Hl Hs. unfold track_checked, ContainsSector.
  split; [exact Hl|]. split; [exact Hs|].
  split; [|split].
  - destruct (Z.geb_spec (StartSector t) (StartSector t)); [|lia].
    destruct (Z.ltb_spec (StartSector t) (StartSector t + LengthSectors_of t));
      [reflexivity | lia].
  - destruct (Z.geb_spec (StartSector t + LengthSectors_of t - 1) (StartSector t)); [|lia].
    destruct (Z.ltb_spec (StartSector t + LengthSectors_of t - 1)
                (StartSector t + LengthSectors_of t)); [reflexivity | lia].
  - destruct (Z.ltb_spec (StartSector t + LengthSectors_of t)
                (StartSector t + LengthSectors_of t)); [lia|].
    apply andb_false_r.
Qed.

Lemma toc_entry_checked (p : option CdIo) (t1 i : Z) (w : World) :
  match toc_entry p t1 i w with
  | Done (inl t) w' => stream w' = stream w /\ TrackNum t = t1 + i /\ track_checked t
  | Done (inr _) w' => stream w' = stream w
  | Panic _ | OutOfFuel => False
  end.
Proof.
  unfold toc_entry. run.
  match goal with
  | |- context [lsn_t ?x =? CDIO_INVALID_LSN] =>
      destruct (Z.eqb_spec (lsn_t x) CDIO_INVALID_LSN) as [E|N]
  end; run; [reflexivity|].
  match goal with
  | |- context [c_uint ?x =? 0] => destruct (Z.eqb_spec (c_uint x) 0) as [E0|N0]
  end; run; [reflexivity|].
  split; [reflexivity|]. split; [reflexivity|].
  apply track_checked_intro; cbn [LengthSectors_of StartSector]; [|exact N].
  match goal with
  | |- 0 < c_uint ?x =>
      pose proof (Z.mod_pos_bound x (2 ^ 32) ltac:(lia)); unfold c_uint, uint32 in *; lia
  end.
Qed.

Lemma toc_loop_checked (p : option CdIo) (t1 : Z) (idx : list nat) :
  forall filled w,
    match toc_loop p t1 idx filled w with
    | Done (entries, None) w' =>
        stream w' = stream w /\
        exists more, entries = filled ++ more /\
                     map TrackNum more = map (fun i => t1 + Z.of_nat i) idx /\
                     Forall track_checked more
    | Done (entries, Some _) w' => stream w' = stream w /\ entries = []
    | Panic _ | OutOfFuel => False
    end.
Proof.
  induction idx as [|i rest IH]; intros filled w; cbn [toc_loop].
  - run. split; [reflexivity|]. exists []. rewrite app_nil_r. repeat split. constructor.
  - pose proof (toc_entry_checked p t1 (Z.of_nat i) w) as He. unfold bind.
    destruct (toc_entry p t1 (Z.of_nat i) w) as [[t|e] w1|w1|]; try contradiction.
    + destruct He as (Hs & Hnum & Hok).
      specialize (IH (filled ++ [t]) w1).
      destruct (toc_loop p t1 rest (filled ++ [t]) w1) as [[entries [e|]] w'|w'|];
        try contradiction.
      * destruct IH as (Hs' & He'). split; [congruence | exact He'].
      * destruct IH as (Hs' & more & Hm & Hn & Hf). split; [congruence|].
        exists (t :: more). rewrite Hm, <- app_assoc. split; [reflexivity|].
        split; [cbn [map]; rewrite Hnum, Hn; reflexivity | constructor; assumption].
    + run. split; [exact He | reflexivity].
Qed.

(** [TOC] on an open stream: two questions, then the loop over the
    tracks. *)
Lemma TOC_open_run (w : World) (h : CdIo) :
  cdio (stream w) = Some h ->
  let n := track_t (cdio_get_num_tracks (trace w) (Some h)) in
  let t1 := track_t (cdio_get_first_track_num
                       (trace w ++ [EvGetNumTracks (Some h)]) (Some h)) in
  let w2 := mkWorld (stream w)
                    (trace w ++ [EvGetNumTracks (Some h); EvGetFirstTrackNum (Some h)]) in
  0 <= n <= 255 /\
  TOC w =
  if t1 =? CDIO_INVALID_TRACK
  then Done ([], Some (Errorf "libcdio: CDIO_INVALID_TRACK")) w2
  else toc_loop (Some h) t1 (seq 0 (Z.to_nat n)) [] w2.
Proof.
  intros Hc n t1 w2.
  assert (Hn : 0 <= n <= 255).
  { unfold n, track_t, uint8.
    match goal with
    | |- _ <= ?x mod _ <= _ => pose proof (Z.mod_pos_bound x (2 ^ 8) ltac:(lia))
    end. change (2 ^ 8) with 256 in *. lia. }
  split; [exact Hn|].
  unfold TOC.
  rewrite (bind_Done _ _ _ _ _ (IsOpen_run w)), Hc. cbn [negb]. run.
  unfold TrackCount.
  rewrite bind_assoc, (bind_Done _ _ _ _ _ (IsOpen_run w)), Hc. cbn [negb]. run.
  unfold trackCount, toc. run. rewrite Hc. fold n.
  destruct (Z.ltb_spec n 0); [lia|]. run.
  rewrite <- app_assoc. cbn [app]. fold t1. fold w2.
  destruct (t1 =? CDIO_INVALID_TRACK); reflexivity.
Qed.

Lemma TOC_checked (w : World) (h : CdIo) :
  cdio (stream w) = Some h ->
  let n := track_t (cdio_get_num_tracks (trace w) (Some h)) in
  let t1 := track_t (cdio_get_first_track_num
                       (trace w ++ [EvGetNumTracks (Some h)]) (Some h)) in
  match TOC w with
  | Done (entries, None) w' =>
      stream w' = stream w /\
      t1 <> CDIO_INVALID_TRACK /\
      map TrackNum entries = map (fun i => t1 + Z.of_nat i) (seq 0 (Z.to_nat n)) /\
      Forall track_checked entries
  | Done (entries, Some _) w' => stream w' = stream w /\ entries = []
  | Panic _ | OutOfFuel => False
  end.
Proof.
  intros Hc n t1.
  destruct (TOC_open_run w h Hc) as (Hn & HT). fold n t1 in HT. rewrite HT.
  destruct (Z.eqb_spec t1 CDIO_INVALID_TRACK) as [E|N]; [split; reflexivity|].
  match goal with
  | |- match toc_loop ?p ?t ?idx ?f ?w2 with _ => _ end =>
      pose proof (toc_loop_checked p t idx f w2) as HL;
      destruct (toc_loop p t idx f w2) as [[entries [e|]] w'|w'|]
  end; try contradiction.
  - exact HL.
  - destruct HL as (Hs & more & Hm & Hnum & Hf). cbn [app] in Hm. subst more.
    split; [exact Hs|]. split; [exact N|]. split; assumption.
Qed.

(** X18.  The table [TOC] returns without error has one entry per track
    the drive counts (an 8-bit count), numbered one by one from the first
    track number the drive reports; every entry has a length of at least
    one sector and a start other than CDIO_INVALID_LSN, so it contains its
    first and its last sector and not the sector after its last. *)
Theorem TOC_entries_are_numbered_and_checked
        (w w' : World) (h : CdIo) (entries : list TrackPosition) :
  let n := track_t (cdio_get_num_tracks (trace w) (Some h)) in
  let t1 := track_t (cdio_get_first_track_num
                       (trace w ++ [EvGetNumTracks (Some h)]) (Some h)) in
  cdio (stream w) = Some h ->
  TOC w = Done (entries, None) w' ->
  len entries = n /\
  n <= 255 /\
  t1 <> CDIO_INVALID_TRACK /\
  map TrackNum entries = map (fun i => t1 + Z.of_nat i) (seq 0 (Z.to_nat n)) /\
  Forall track_checked entries.
Proof.
  intros n t1 Hc HT.
  destruct (TOC_open_run w h Hc) as (Hn & _). fold n in Hn.
  pose proof (TOC_checked w h Hc) as H. cbv zeta in H. fold n t1 in H.
  rewrite HT in H. destruct H as (_ & Hv & Hnum & Hf).
  split.
  { unfold len. rewrite <- (length_map TrackNum), Hnum, length_map, length_seq. lia. }
  split; [lia|]. split; [exact Hv|]. split; assumption.
Qed.

(** X19.  Whenever [TOC] returns an error, on any stream, it returns no
    entries, never the part of the table it had read, and the stream is
    as it was. *)
Theorem TOC_error_comes_with_no_entries
        (w w' : World) (entries : list TrackPosition) (e : error) :
  TOC w = Done (entries, Some e) w' ->
  entries = [] /\ stream w' = stream w.
Proof.
  intros HT.
  destruct (cdio (stream w)) as [h|] eqn:Hc.
  - pose proof (TOC_checked w h Hc) as H. cbv zeta in H. rewrite HT in H.
    destruct H as (Hs & He). split; assumption.
  - unfold TOC in HT. rewrite (bind_Done _ _ _ _ _ (IsOpen_closed w Hc)) in HT.
    cbn in HT. injection HT as <- _ <-. split; reflexivity.
Qed.

(** X20.  When the drive reports CDIO_INVALID_TRACK as its first track
    number, [TOC] returns an error and no entries after just two questions
    (the track count and the first track number): it asks about no track
    and assumes no number. *)
Theorem TOC_rejects_invalid_first_track (w : World) (h : CdIo) :
  let t1 := track_t (cdio_get_first_track_num
                       (trace w ++ [EvGetNumTracks (Some h)]) (Some h)) in
  cdio (stream w) = Some h ->
  t1 = CDIO_INVALID_TRACK ->
  TOC w =
  Done ([], Some (Errorf "libcdio: CDIO_INVALID_TRACK"))
       (mkWorld (stream w)
                (trace w ++ [EvGetNumTracks (Some h); EvGetFirstTrackNum (Some h)])).
Proof.
  intros t1 Hc Ht.
  destruct (TOC_open_run w h Hc) as (_ & HT). fold t1 in HT.
  rewrite HT, Ht, Z.eqb_refl. reflexivity.
Qed.

(** X21.  The number [LengthSectors] returns without error is the sector
    after the last track of the table [TOC] returns in the same world:
    that track contains the sector before it and not the sector itself. *)
Theorem LengthSectors_is_the_sector_after_the_last_track
        (w w' : World) (h : CdIo) (l : Z) :
  cdio (stream w) = Some h ->
  LengthSectors w = Done (l, None) w' ->
  exists entries last,
    TOC w = Done (entries ++ [last], None) w' /\
    l = StartSector last + LengthSectors_of last /\
    StartSector last < l /\
    ContainsSector last (l - 1) = true /\
    ContainsSector last l = false.
Proof.
  intros Hc HL.
  pose proof (TOC_checked w h Hc) as HT. cbv zeta in HT.
  unfold LengthSectors in HL.
  rewrite (bind_Done _ _ _ _ _ (IsOpen_run w)), Hc in HL. cbn [negb] in HL.
  unfold bind in HL.
  destruct (TOC w) as [[entries [e|]] w1|w1|]; try discriminate.
  destruct HT as (_ & _ & _ & Hf).
  destruct (rev entries) as [|last front] eqn:Hrev; [discriminate|].
  cbn in HL. injection HL as <- <-.
  assert (He : entries = rev front ++ [last]).
  { rewrite <- (rev_involutive entries), Hrev. reflexivity. }
  exists (rev front), last. rewrite He in Hf |- *.
  apply Forall_app in Hf. destruct Hf as (_ & Hlast).
  inversion Hlast as [|? ? (Hpos & _ & _ & Hin & Hout) _]; subst.
  split; [reflexivity|]. split; [reflexivity|]. split; [lia|].
  split; assumption.
Qed.

(** X22.  When the drive counts no track (and reports a valid first track
    number), [LengthSectors] panics, on the last element of an empty
    table, after the two questions of [TOC]. *)
Theorem LengthSectors_panics_on_a_disc_without_tracks (w : World) (h : CdIo) :
  let n := track_t (cdio_get_num_tracks (trace w) (Some h)) in
  let t1 := track_t (cdio_get_first_track_num
                       (trace w ++ [EvGetNumTracks (Some h)]) (Some h)) in
  cdio (stream w) = Some h ->
  n = 0 ->
  t1 <> CDIO_INVALID_TRACK ->
  LengthSectors w =
  Panic (mkWorld (stream w)
                 (trace w ++ [EvGetNumTracks (Some h); EvGetFirstTrackNum (Some h)])).
Proof.
  intros n t1 Hc Hn Ht.
  destruct (TOC_open_run w h Hc) as (_ & HT). fold n t1 in HT.
  rewrite Hn in HT. destruct (Z.eqb_spec t1 CDIO_INVALID_TRACK); [contradiction|].
  cbn [Z.to_nat seq toc_loop] in HT.
  unfold LengthSectors.
  rewrite (bind_Done _ _ _ _ _ (IsOpen_run w)), Hc. cbn [negb].
  rewrite (bind_Done _ _ _ _ _ HT). reflexivity.
Qed.


End Contents.

(** ** The header of the example *)

Lemma byte_of_value (z : Z) : Z.of_N (Byte.to_N (byte_of z)) = z mod 256.
Proof.
  unfold byte_of.
  pose proof (Z.mod_pos_bound z 256 ltac:(lia)) as Hb.
  destruct (Byte.of_N (Z.to_N (z mod 256))) as [b|] eqn:E.
  - apply Byte.to_of_N in E. rewrite E. lia.
  - apply Byte.of_N_None_iff in E. lia.
Qed.

Lemma le_value_le_bytes (k : nat) :
  forall v, 0 <= v < 256 ^ Z.of_nat k -> le_value (le_bytes k v) = v.
Proof.
  induction k as [|k IH]; intros v Hv.
  - cbn in *. lia.
  - cbn [le_bytes le_value fold_right]. fold (le_value (le_bytes k (Z.shiftr v 8))).
    rewrite byte_of_value, Z.shiftr_div_pow2 by lia. change (2 ^ 8) with 256.
    rewrite IH.
    + pose proof (Z.div_mod v 256 ltac:(lia)). lia.
    + rewrite Nat2Z.inj_succ, Z.pow_succ_r in Hv by lia.
      split; [apply Z.div_pos; lia | apply Z.div_lt_upper_bound; lia].
Qed.

Lemma CreateWavHeader_run (nbytes : Z) :
  CreateWavHeader nbytes =
  Some ([x52; x49; x46; x46] ++ le_bytes 4 (uint32 (uint32 (nbytes + 44) - 8)) ++
        [x57; x41; x56; x45] ++ [x66; x6d; x74; x20] ++
        le_bytes 4 16 ++ le_bytes 2 1 ++ le_bytes 2 Channels ++ le_bytes 4 SampleRate ++
        le_bytes 4 (SampleRate * Channels * BytesPerSample) ++
        le_bytes 2 (Channels * BytesPerSample) ++ le_bytes 2 BitsPerSample ++
        [x64; x61; x74; x61] ++ le_bytes 4 nbytes).
Proof.
  unfold CreateWavHeader, PutUint32, PutUint16.
  cbn [le_bytes].
  generalize (byte_of (uint32 (uint32 (nbytes + 44) - 8))),
    (byte_of (Z.shiftr (uint32 (uint32 (nbytes + 44) - 8)) 8)),
    (byte_of (Z.shiftr (Z.shiftr (uint32 (uint32 (nbytes + 44) - 8)) 8) 8)),
    (byte_of (Z.shiftr (Z.shiftr (Z.shiftr (uint32 (uint32 (nbytes + 44) - 8)) 8) 8) 8)),
    (byte_of nbytes), (byte_of (Z.shiftr nbytes 8)),
    (byte_of (Z.shiftr (Z.shiftr nbytes 8) 8)),
    (byte_of (Z.shiftr (Z.shiftr (Z.shiftr nbytes 8) 8) 8)).
  clear nbytes. intros. vm_compute. reflexivity.
Qed.

(** X24.  For every 32-bit [nbytes], [CreateWavHeader] returns (no index
    of its stores is out of range) a header of 44 bytes with the tags
    RIFF, WAVE, fmt and data in place, whose data-size field reads back
    [nbytes], and whose format fields agree with the constants of the
    package: the block size of a frame is [Channels * BytesPerSample], the
    byte rate is [SectorsPerSecond] sectors of [BytesPerSector] bytes. *)
Theorem CreateWavHeader_layout (nbytes : Z) :
  0 <= nbytes < 2 ^ 32 ->
  exists b,
    CreateWavHeader nbytes = Some b /\
    len b = 44 /\
    field 0 4 b = [x52; x49; x46; x46] /\
    field 8 16 b = [x57; x41; x56; x45; x66; x6d; x74; x20] /\
    field 36 40 b = [x64; x61; x74; x61] /\
    le_value (field 40 44 b) = nbytes /\
    le_value (field 22 24 b) = Channels /\
    le_value (field 24 28 b) = SampleRate /\
    le_value (field 32 34 b) = Channels * BytesPerSample /\
    le_value (field 34 36 b) = BitsPerSample /\
    le_value (field 28 32 b) = SectorsPerSecond * BytesPerSector.
Proof.
  intros Hn. eexists. split; [apply CreateWavHeader_run|].
  split; [reflexivity|].
  split; [reflexivity|]. split; [reflexivity|]. split; [reflexivity|].
  split.
  { change (field 40 44 _) with (le_bytes 4 nbytes).
    apply le_value_le_bytes. change (256 ^ Z.of_nat 4) with (2 ^ 32). exact Hn. }
  rewrite BytesPerSector_eq.
  repeat split; reflexivity.
Qed.

(** X25.  The RIFF size field of the header is the data size plus the 36
    header bytes after the field only while that sum fits 32 bits: from
    [nbytes = 2^32 - 36] on the sum wraps around and the field holds a
    number smaller than the data size. *)
Theorem CreateWavHeader_riff_size_wraps (nbytes : Z) :
  0 <= nbytes < 2 ^ 32 ->
  exists b,
    CreateWavHeader nbytes = Some b /\
    le_value (field 4 8 b) = (nbytes + 36) mod 2 ^ 32 /\
    (nbytes < 2 ^ 32 - 36 -> le_value (field 4 8 b) = nbytes + 36) /\
    (2 ^ 32 - 36 <= nbytes -> le_value (field 4 8 b) = nbytes + 36 - 2 ^ 32 /\
                               le_value (field 4 8 b) < 36 <= nbytes).
Proof.
  intros Hn. eexists. split; [apply CreateWavHeader_run|].
  change (field 4 8 _) with (le_bytes 4 (uint32 (uint32 (nbytes + 44) - 8))).
  assert (Hv : uint32 (uint32 (nbytes + 44) - 8) = (nbytes + 36) mod 2 ^ 32).
  { unfold uint32. rewrite Zminus_mod_idemp_l. f_equal. lia. }
  rewrite Hv.
  pose proof (Z.mod_pos_bound (nbytes + 36) (2 ^ 32) ltac:(lia)) as Hb.
  rewrite le_value_le_bytes by (change (256 ^ Z.of_nat 4) with (2 ^ 32); exact Hb).
  split; [reflexivity|]. split.
  - intros Hs. apply Z.mod_small. lia.
  - intros Hl.
    assert (E : (nbytes + 36) mod 2 ^ 32 = nbytes + 36 - 2 ^ 32).
    { symmetry. apply (Z.mod_unique _ _ 1); lia. }
    rewrite E. lia.
Qed.

(** ** The properties above on the test drives *)

Lemma open_world_streaming : streaming disc_content (stream open_world).
Proof.
  repeat split; try (vm_compute; (reflexivity || discriminate)).
Qed.

Lemma streaming_world_streaming : streaming disc_content (stream streaming_world).
Proof.
  repeat split; try (vm_compute; (reflexivity || discriminate)).
  exists 1. split; vm_compute; (reflexivity || discriminate).
Qed.

Lemma streaming_world_next_sector : @drive_delivers drive disc_content streaming_world 1.
Proof. split; vm_compute; (reflexivity || discriminate). Qed.

Lemma last_bytes_world_sbuf_whole : sbuf_whole (stream last_bytes_world).
Proof. exists 1. split; vm_compute; (reflexivity || discriminate). Qed.

Lemma Open_resets_buffer_and_offsets_witness :
  @Open drive used_world =
  Done None (mkWorld (mkAudioCD device [] (Some (disc_sector 0)) 0 0 session) open_trace).
Proof.
  exact (@Open_resets_buffer_and_offsets drive used_world 1%positive
           eq_refl eq_refl eq_refl).
Defined.

Lemma Open_after_Open_is_noop_witness :
  IsOpen open_world = Done true open_world /\
  @Open drive open_world = Done None open_world.
Proof.
  apply (@Open_after_Open_is_noop drive fresh open_world). vm_compute. reflexivity.
Defined.

Lemma Open_without_drive_witness :
  @Open absent_drive fresh =
  Done (Some ErrNoDrive) (mkWorld (stream fresh) [EvOpen (Some device)]).
Proof.
  exact (proj1 (@Open_without_drive absent_drive fresh eq_refl eq_refl)).
Defined.


Lemma reachable_stream_invariants_witness :
  @reachable drive streaming_world /\ sbuf_whole (stream streaming_world).
Proof.
  assert (R : @reachable drive streaming_world).
  { apply (reach_call open_world streaming_world (CallRead [x00])).
    - apply (reach_call fresh open_world CallOpen).
      + exact (reach_zero "/dev/cdrom").
      + vm_compute. reflexivity.
    - vm_compute. reflexivity. }
  split; [exact R|].
  exact (proj2 (@reachable_stream_invariants drive streaming_world R)).
Defined.

Lemma Read_from_buffer_calls_nothing_witness :
  @Read drive [x01] streaming_world =
  Done ([x00], 1, None)
       (mkWorld (mkAudioCD device (repeat x00 2350) (Some (disc_sector 0)) 2352 2 session)
                (trace streaming_world)).
Proof.
  pose proof (@Read_from_buffer_calls_nothing drive [x01] streaming_world) as H.
  vm_compute in H. vm_compute. apply H. split; [reflexivity | discriminate].
Defined.

Lemma Read_reports_bytes_copied_before_a_device_error_witness :
  exists w',
    @Read drive [x01; x01; x01; x01] last_bytes_world =
      Done ([sector_byte 249; sector_byte 249; x01; x01], 2, Some (AudioCDError (-1))) w' /\
    buf (stream w') = [] /\
    trace w' = open_trace ++ [EvReadAudioSectors session 250 1 2352].
Proof.
  destruct (@Read_reports_bytes_copied_before_a_device_error drive
              [x01; x01; x01; x01] last_bytes_world 1%positive)
    as (w' & HR & Hb & Ht).
  - reflexivity.
  - exact last_bytes_world_sbuf_whole.
  - reflexivity.
  - vm_compute. discriminate.
  - exists w'. split; [exact HR|]. split; [exact Hb|]. exact Ht.
Defined.

Lemma Read_delivers_disc_bytes_at_cursor_witness :
  exists w',
    @Read drive (make_bytes 3000) open_world =
      Done (bytes_from disc_content 0 3000, 3000, None) w' /\
    trueOffset (stream w') = 3000 /\
    exists e, trace w' = open_trace ++ [e].
Proof.
  destruct (@Read_delivers_disc_bytes_at_cursor drive disc_content
              (make_bytes 3000) open_world)
    as (w' & HR & _ & Ht & _ & He).
  - exact open_world_streaming.
  - intros _. split; vm_compute; (reflexivity || discriminate).
  - exists w'. split; [exact HR|]. split; [exact Ht|].
    apply He. reflexivity.
Defined.

Lemma consecutive_Reads_deliver_consecutive_bytes_witness :
  exists d2 w2,
    @Read drive (make_bytes 3000) streaming_world = Done (d2, 3000, None) w2 /\
    [x00] ++ d2 = bytes_from disc_content 0 3001 /\
    trueOffset (stream w2) = 3001.
Proof.
  destruct (@consecutive_Reads_deliver_consecutive_bytes drive disc_content
              [x01] (make_bytes 3000) [x00] 1 open_world streaming_world)
    as (d2 & w2 & HR & Hd & Ht & _).
  - exact open_world_streaming.
  - intros _. split; vm_compute; (reflexivity || discriminate).
  - vm_compute. reflexivity.
  - intros _. exact streaming_world_next_sector.
  - exists d2, w2. split; [exact HR|]. split; [exact Hd | exact Ht].
Defined.

Lemma Seek_within_buffer_keeps_streaming_witness :
  exists w',
    @Seek drive 100 SeekStart streaming_world = Done (100, None) w' /\
    @Seek drive 99 SeekCurrent streaming_world = Done (100, None) w' /\
    len (buf (stream w')) = 2252 /\
    trace w' = trace streaming_world.
Proof.
  destruct (@Seek_within_buffer_keeps_streaming drive disc_content streaming_world 100)
    as (w' & H1 & H2 & (_ & _ & (_ & Hacc) & _) & Ht & Hb & Htr).
  - exact streaming_world_streaming.
  - split; reflexivity.
  - exists w'. split; [exact H1|]. split; [exact H2|]. split; [|exact Htr].
    rewrite <- Hacc, Ht, Hb. reflexivity.
Defined.

Lemma Seek_into_next_sector_keeps_streaming_witness :
  exists w',
    @Seek drive 2362 SeekStart streaming_world = Done (2362, None) w' /\
    streaming disc_content (stream w') /\
    device_reads (trace w') = [(0, 1, 2352); (1, 1, 2352)].
Proof.
  destruct (@Seek_into_next_sector_keeps_streaming drive disc_content streaming_world 2362)
    as (w' & H1 & Hs & _ & Hr).
  - exact streaming_world_streaming.
  - rewrite BytesPerSector_eq. split; vm_compute; (reflexivity || discriminate).
  - discriminate.
  - exact streaming_world_next_sector.
  - exists w'. split; [exact H1|]. split; [exact Hs|].
    rewrite Hr. vm_compute. reflexivity.
Defined.

Lemma Seek_failure_leaves_cursor_at_buffered_offset_witness :
  exists w',
    @Seek drive 600000 SeekStart last_bytes_world
      = Done (588000, Some (AudioCDError (-1))) w' /\
    buf (stream w') = [] /\
    trueOffset (stream w') = 588000.
Proof.
  destruct (@Seek_failure_leaves_cursor_at_buffered_offset drive
              last_bytes_world 1%positive 600000)
    as (w' & H1 & Hb & Ht & _).
  - reflexivity.
  - exact last_bytes_world_sbuf_whole.
  - discriminate.
  - right. vm_compute. discriminate.
  - split; vm_compute; (reflexivity || discriminate).
  - split; vm_compute; (reflexivity || discriminate).
  - vm_compute. discriminate.
  - exists w'. split; [exact H1|]. split; [exact Hb | exact Ht].
Defined.

Lemma Seek_before_start_is_accepted_or_panics_witness :
  (exists w', @Seek drive (-2352) SeekStart open_world = Done (-2352, None) w' /\
              trueOffset (stream w') = -2352) /\
  (exists w', @Seek drive (-1) SeekStart open_world = Panic w').
Proof.
  split.
  - destruct (@Seek_before_start_is_accepted_or_panics drive open_world 1%positive (-2352))
      as (w' & _ & HS & Ht).
    + reflexivity.
    + exact I.
    + vm_compute. discriminate.
    + split; vm_compute; (reflexivity || discriminate).
    + vm_compute. reflexivity.
    + exists w'. split; [exact HS|]. apply Ht. vm_compute. reflexivity.
  - destruct (@Seek_before_start_is_accepted_or_panics drive open_world 1%positive (-1))
      as (w' & _ & HS & _).
    + reflexivity.
    + exact I.
    + vm_compute. discriminate.
    + split; vm_compute; (reflexivity || discriminate).
    + vm_compute. reflexivity.
    + exists w'. exact HS.
Defined.

Lemma Seek_from_end_goes_through_LengthSectors_witness :
  exists w',
    @LengthSectors drive open_world = Done (250, None) w' /\
    @Seek drive (-2352) SeekEnd open_world = @Seek drive 585648 SeekStart w'.
Proof.
  pose proof (@Seek_from_end_goes_through_LengthSectors drive open_world 1%positive
                (-2352) eq_refl) as H.
  destruct (@LengthSectors drive open_world) as [[l [e|]] w'|w'|] eqn:E;
    vm_compute in E; try discriminate E.
  injection E as <- <-. eexists. split; [reflexivity|].
  destruct H as (_ & H). vm_compute in H. vm_compute. exact H.
Defined.

Lemma TOC_entries_are_numbered_and_checked_witness :
  exists w',
    @TOC drive open_world = Done ([track_one; track_two], None) w' /\
    len [track_one; track_two] = 2 /\
    Forall (@track_checked drive) [track_one; track_two].
Proof.
  eexists. split; [vm_compute; reflexivity|].
  destruct (@TOC_entries_are_numbered_and_checked drive open_world _ 1%positive
              [track_one; track_two] eq_refl ltac:(vm_compute; reflexivity))
    as (Hl & _ & _ & _ & Hf).
  split; [exact Hl | exact Hf].
Defined.

Lemma TOC_error_comes_with_no_entries_witness :
  exists entries e w',
    @TOC torn_disc open_world = Done (entries, Some e) w' /\
    In (EvGetTrackSecCount session 2) (trace w') /\
    entries = [].
Proof.
  destruct (@TOC torn_disc open_world) as [[entries [e|]] w'|w'|] eqn:E;
    try (vm_compute in E; discriminate E).
  exists entries, e, w'. split; [reflexivity|]. split.
  - vm_compute in E. injection E as _ _ <-. vm_compute. tauto.
  - exact (proj1 (@TOC_error_comes_with_no_entries torn_disc open_world w' entries e E)).
Defined.

Lemma TOC_rejects_invalid_first_track_witness :
  @TOC unnumbered_disc open_world =
  Done ([], Some (Errorf "libcdio: CDIO_INVALID_TRACK"))
       (mkWorld (stream open_world)
                (open_trace ++ [EvGetNumTracks session; EvGetFirstTrackNum session])).
Proof.
  exact (@TOC_rejects_invalid_first_track unnumbered_disc open_world 1%positive
           eq_refl eq_refl).
Defined.

Lemma LengthSectors_is_the_sector_after_the_last_track_witness :
  exists w',
    @LengthSectors drive open_world = Done (250, None) w' /\
    ContainsSector track_two 249 = true /\
    ContainsSector track_two 250 = false.
Proof.
  eexists. split; [vm_compute; reflexivity|].
  destruct (@LengthSectors_is_the_sector_after_the_last_track drive open_world _
              1%positive 250 eq_refl ltac:(vm_compute; reflexivity))
    as (entries & last & HT & _ & _ & Hin & Hout).
  vm_compute in HT. injection HT as HT.
  assert (El : last = track_two).
  { apply (f_equal (@rev TrackPosition)) in HT. rewrite rev_app_distr in HT.
    cbn in HT. injection HT as E1 _. symmetry. exact E1. }
  subst last. split; [exact Hin | exact Hout].
Defined.

Lemma LengthSectors_panics_on_a_disc_without_tracks_witness :
  @LengthSectors blank_disc open_world =
  Panic (mkWorld (stream open_world)
                 (open_trace ++ [EvGetNumTracks session; EvGetFirstTrackNum session])).
Proof.
  apply (@LengthSectors_panics_on_a_disc_without_tracks blank_disc open_world 1%positive).
  - reflexivity.
  - reflexivity.
  - vm_compute. discriminate.
Defined.


Lemma CreateWavHeader_layout_witness :
  exists b,
    CreateWavHeader 352800 = Some b /\
    len b = 44 /\
    le_value (field 40 44 b) = 352800.
Proof.
  destruct (CreateWavHeader_layout 352800) as (b & H & Hl & _ & _ & _ & Hd & _).
  - split; vm_compute; (reflexivity || discriminate).
  - exists b. split; [exact H|]. split; [exact Hl | exact Hd].
Defined.

Lemma CreateWavHeader_riff_size_wraps_witness :
  exists b,
    CreateWavHeader (2 ^ 32 - 1) = Some b /\
    le_value (field 4 8 b) = 35.
Proof.
  destruct (CreateWavHeader_riff_size_wraps (2 ^ 32 - 1)) as (b & H & _ & _ & Hw).
  - split; vm_compute; (reflexivity || discriminate).
  - exists b. split; [exact H|].
    destruct Hw as (Hw & _); [vm_compute; discriminate|].
    rewrite Hw. reflexivity.
Defined.

(** ** Starting over *)

Section Restart.
Context {hw : Drive}.

(** X26.  [Close] followed by [Open] starts the stream over from any
    state, also one whose offsets a seek or an earlier session left out of
    step: when the drive is found again and takes the speed, both calls
    return no error, the old session (if any) is destroyed first, and the
    stream is open at offset 0 with an empty buffer, so that it holds the
    disc's bytes from the cursor on.  The scratch slice is kept. *)
Theorem Close_then_Open_restarts_the_stream
        (content : Z -> byte) (w : World) (h' : CdIo) :
  let dev := if String.eqb (Device (stream w)) "" then None else Some (Device (stream w)) in
  let tr1 := trace w ++ match cdio (stream w) with
                        | Some h => [EvDestroy (Some h)]
                        | None => []
                        end in
  sbuf_whole (stream w) ->
  cdio_open tr1 dev = Some h' ->
  cdio_set_speed (tr1 ++ [EvOpen dev]) (Some h') 65535 = 0 ->
  exists w1 w2,
    Close w = Done None w1 /\
    Open w1 = Done None w2 /\
    stream w2 = mkAudioCD (Device (stream w)) [] (sbuf (stream w)) 0 0 (Some h') /\
    trace w2 = tr1 ++ [EvOpen dev; EvSetSpeed (Some h') 65535] /\
    streaming content (stream w2).
Proof.
  intros dev tr1 Hs Ho Hsp.
  eexists. eexists. split; [apply Close_run|].
  match goal with
  | |- Open ?w1 = _ /\ _ =>
      assert (Hc : cdio (stream w1) = None) by reflexivity;
      pose proof (Open_closed_run w1 Hc) as HO
  end.
  cbv zeta in HO. cbn [stream trace set_buf set_cdio Device sbuf] in HO.
  fold dev tr1 in HO. rewrite Ho, Hsp in HO. cbn [Z.eqb] in HO.
  split; [exact HO|]. split; [reflexivity|]. split; [reflexivity|].
  unfold streaming, accounted. cbn [stream cdio trueOffset bufferedOffset buf sbuf len List.length].
  rewrite BytesPerSector_eq.
  repeat split; try (vm_compute; (reflexivity || discriminate)).
  exact Hs.
Qed.

End Restart.

Lemma sought_world_sbuf_whole : sbuf_whole (stream sought_world).
Proof. exists 1. split; vm_compute; (reflexivity || discriminate). Qed.

Lemma Close_then_Open_restarts_the_stream_witness :
  ~ accounted (stream sought_world) /\
  exists w1 w2,
    Close sought_world = Done None w1 /\
    @Open drive w1 = Done None w2 /\
    stream w2 = mkAudioCD device [] (Some (disc_sector 0)) 0 0 session /\
    streaming disc_content (stream w2).
Proof.
  split.
  - intros (H & _). vm_compute in H. apply H. reflexivity.
  - destruct (@Close_then_Open_restarts_the_stream drive disc_content sought_world 1%positive)
      as (w1 & w2 & HC & HO & Hst & _ & Hs).
    + exact sought_world_sbuf_whole.
    + reflexivity.
    + reflexivity.
    + exists w1, w2. split; [exact HC|]. split; [exact HO|]. split; [exact Hst | exact Hs].
Defined.
